(** * wt-tracker: the uWebSockets gateway ([src/lib/uws-tracker.ts])

    A shallow embedding of [UWebSocketsTracker]: the [open], [message] and
    [close] handlers, [createPeer] and its [sendMessage] closure, the
    constructor, [buildApplication] and [run], together with the parts of
    the JavaScript runtime they call ([StringDecoder.end], [JSON.parse],
    [JSON.stringify], object spread) and the properties of the gateway
    proved over them.

    Layout: strings and UTF-8, JSON values, [JSON.parse], [JSON.stringify],
    the gateway and its handlers, the constructor and [run], then the
    theorems. *)

From Stdlib Require Import ZArith Lia String Ascii.
From stdpp Require Import gmap list.

Local Open Scope Z_scope.

(** ** JavaScript strings

    A JavaScript string is a sequence of UTF-16 code units; a frame is a
    sequence of bytes.  Both are lists of integers here, the code units in
    [0, 0xFFFF] and the bytes in [0, 0xFF]. *)

Definition jsstring := list Z.
Definition bytes := list Z.

Definition code_unit (c : Z) : Prop := 0 <= c <= 0xFFFF.
Definition wf_string (s : jsstring) : Prop := Forall code_unit s.

(** ASCII literals: [js] reads a literal as code units, [jsq] does the same
    with every apostrophe standing for the double quote (U+0022). *)
Definition js (s : string) : jsstring :=
  map (fun a => Z.of_N (N_of_ascii a)) (list_ascii_of_string s).

Definition jsq (s : string) : jsstring :=
  map (fun c => if c =? 39 then 34 else c) (js s).

Definition is_high_surrogate (c : Z) : bool := (0xD800 <=? c) && (c <=? 0xDBFF).
Definition is_low_surrogate (c : Z) : bool := (0xDC00 <=? c) && (c <=? 0xDFFF).
Definition is_surrogate (c : Z) : bool := (0xD800 <=? c) && (c <=? 0xDFFF).

(** ** UTF-8 decoding: [decoder.end(bytes)]

    [decoder] is a [StringDecoder] with the default encoding, utf8.  It never
    throws: a malformed sequence is replaced by U+FFFD and decoding goes on.
    The automaton below is the decoder of the Encoding standard, which V8
    follows; [needed] counts the continuation bytes still expected after the
    next one, [lower] and [upper] bound the next byte. *)

Record pending := Pending { cp : Z; needed : nat; lower : Z; upper : Z }.

Definition REPLACEMENT : Z := 0xFFFD.

Definition utf8_lead (b : Z) : list Z * option pending :=
  if b <=? 0x7F then ([b], None)
  else if (0xC2 <=? b) && (b <=? 0xDF) then
    ([], Some (Pending (b - 0xC0) 0 0x80 0xBF))
  else if (0xE0 <=? b) && (b <=? 0xEF) then
    ([], Some (Pending (b - 0xE0) 1
                 (if b =? 0xE0 then 0xA0 else 0x80)
                 (if b =? 0xED then 0x9F else 0xBF)))
  else if (0xF0 <=? b) && (b <=? 0xF4) then
    ([], Some (Pending (b - 0xF0) 2
                 (if b =? 0xF0 then 0x90 else 0x80)
                 (if b =? 0xF4 then 0x8F else 0xBF)))
  else ([REPLACEMENT], None).

Definition utf8_step (p : option pending) (b : Z) : list Z * option pending :=
  match p with
  | None => utf8_lead b
  | Some q =>
      if (lower q <=? b) && (b <=? upper q) then
        let c := cp q * 64 + (b - 0x80) in
        match needed q with
        | O => ([c], None)
        | S n => ([], Some (Pending c n 0x80 0xBF))
        end
      else
        let '(out, p') := utf8_lead b in (REPLACEMENT :: out, p')
  end.

(** The code points of a byte sequence; a sequence cut short at the end of
    the buffer gives one more U+FFFD. *)
Fixpoint utf8_decode (p : option pending) (bs : bytes) : list Z :=
  match bs with
  | [] => match p with Some _ => [REPLACEMENT] | None => [] end
  | b :: bs' =>
      let '(out, p') := utf8_step p b in out ++ utf8_decode p' bs'
  end.

Definition utf16_encode (c : Z) : jsstring :=
  if c <? 0x10000 then [c]
  else [0xD800 + (c - 0x10000) / 0x400; 0xDC00 + (c - 0x10000) mod 0x400].

Definition decoder_end (message : bytes) : jsstring :=
  flat_map utf16_encode (utf8_decode None message).

(** Well-formed UTF-8 (RFC 3629, section 4), the property a strict decoder
    would check and [decoder_end] does not. *)
Definition continuation (b : Z) : bool := (0x80 <=? b) && (b <=? 0xBF).

Fixpoint valid_utf8 (bs : bytes) : bool :=
  match bs with
  | [] => true
  | b1 :: r1 =>
      if (0 <=? b1) && (b1 <=? 0x7F) then valid_utf8 r1
      else if (0xC2 <=? b1) && (b1 <=? 0xDF) then
        match r1 with
        | b2 :: r2 => continuation b2 && valid_utf8 r2
        | _ => false
        end
      else if (0xE0 <=? b1) && (b1 <=? 0xEF) then
        match r1 with
        | b2 :: b3 :: r3 =>
            ((if b1 =? 0xE0 then 0xA0 else 0x80) <=? b2) &&
            (b2 <=? (if b1 =? 0xED then 0x9F else 0xBF)) &&
            continuation b3 && valid_utf8 r3
        | _ => false
        end
      else if (0xF0 <=? b1) && (b1 <=? 0xF4) then
        match r1 with
        | b2 :: b3 :: b4 :: r4 =>
            ((if b1 =? 0xF0 then 0x90 else 0x80) <=? b2) &&
            (b2 <=? (if b1 =? 0xF4 then 0x8F else 0xBF)) &&
            continuation b3 && continuation b4 && valid_utf8 r4
        | _ => false
        end
      else false
  end.

(** ** UTF-8 encoding: the text frame written by [ws.send(text, false, false)]

    The transport writes a JavaScript string as UTF-8: a surrogate pair is one
    code point of four bytes, a lone surrogate is written as U+FFFD. *)

Definition utf8_encode_cp (c : Z) : bytes :=
  if c <? 0x80 then [c]
  else if c <? 0x800 then [0xC0 + c / 64; 0x80 + c mod 64]
  else if c <? 0x10000 then
    [0xE0 + c / 4096; 0x80 + (c / 64) mod 64; 0x80 + c mod 64]
  else
    [0xF0 + c / 262144; 0x80 + (c / 4096) mod 64;
     0x80 + (c / 64) mod 64; 0x80 + c mod 64].

Fixpoint utf8_encode (s : jsstring) : bytes :=
  match s with
  | [] => []
  | c :: s' =>
      if is_high_surrogate c then
        match s' with
        | d :: s'' =>
            if is_low_surrogate d then
              utf8_encode_cp (0x10000 + (c - 0xD800) * 0x400 + (d - 0xDC00))
                ++ utf8_encode s''
            else utf8_encode_cp REPLACEMENT ++ utf8_encode s'
        | [] => utf8_encode_cp REPLACEMENT
        end
      else if is_low_surrogate c then utf8_encode_cp REPLACEMENT ++ utf8_encode s'
      else utf8_encode_cp c ++ utf8_encode s'
  end.

(** ** JavaScript values

    The fragment of [any] the gateway handles: what [JSON.parse] can return,
    together with [undefined] and the non-finite numbers, which a tracker can
    hand to [sendMessage].  Functions, symbols, bigints, cyclic objects and
    objects with a [toJSON] method are outside the fragment.

    A number is an IEEE double.  [NInt z] is the double of the integer [z],
    exact when [|z| <= 2^53]; [NDec m e] stands for the double nearest to
    [m * 10^e], for a finite literal that is not such an integer ([m] is not
    zero and not a multiple of ten), so that equality on [NDec] is finer than
    equality of doubles.  Arithmetic on fractions is outside the embedding. *)

Inductive number :=
| NInt (z : Z)
| NNegZero
| NDec (m e : Z)
| NNaN
| NInf (negative : bool).

#[warnings="-register-all"]
Inductive value :=
| VUndefined
| VNull
| VBool (b : bool)
| VNum (n : number)
| VStr (s : jsstring)
| VArr (elements : list value)
| VObj (properties : list (jsstring * value)).

#[global] Instance number_eq_dec : EqDecision number.
Proof. solve_decision. Defined.

Abbreviation TAB := 9 (only parsing).
Abbreviation LF := 10 (only parsing).
Abbreviation CR := 13 (only parsing).
Abbreviation SPACE := 32 (only parsing).
Abbreviation QUOTE := 34 (only parsing).
Abbreviation PLUS := 43 (only parsing).
Abbreviation COMMA := 44 (only parsing).
Abbreviation MINUS := 45 (only parsing).
Abbreviation DOT := 46 (only parsing).
Abbreviation SLASH := 47 (only parsing).
Abbreviation ZERO := 48 (only parsing).
Abbreviation COLON := 58 (only parsing).
Abbreviation LBRACKET := 91 (only parsing).
Abbreviation BACKSLASH := 92 (only parsing).
Abbreviation RBRACKET := 93 (only parsing).
Abbreviation LBRACE := 123 (only parsing).
Abbreviation RBRACE := 125 (only parsing).

Definition is_digit (c : Z) : bool := (48 <=? c) && (c <=? 57).

Definition digits_value (ds : list Z) : Z :=
  fold_left (fun acc d => acc * 10 + (d - 48)) ds 0.

(** *** Objects

    The properties of an object are kept in the order in which [JSON.stringify]
    and [for-in] enumerate them: array indices (canonical numerals below
    2^32 - 1) in ascending order, then the other keys in creation order. *)

Definition array_index (k : jsstring) : option Z :=
  match k with
  | [] => None
  | d :: ds =>
      if forallb is_digit k && (negb (d =? ZERO) || bool_decide (ds = []))
         && (length k <=? 10)%nat && (digits_value k <=? 4294967294)
      then Some (digits_value k) else None
  end.

Fixpoint get_property (k : jsstring) (o : list (jsstring * value)) : option value :=
  match o with
  | [] => None
  | (k', v) :: o' => if bool_decide (k' = k) then Some v else get_property k o'
  end.

Fixpoint replace_property (k : jsstring) (v : value) (o : list (jsstring * value))
  : list (jsstring * value) :=
  match o with
  | [] => []
  | (k', v') :: o' =>
      if bool_decide (k' = k) then (k, v) :: o'
      else (k', v') :: replace_property k v o'
  end.

Fixpoint insert_index (i : Z) (k : jsstring) (v : value) (o : list (jsstring * value))
  : list (jsstring * value) :=
  match o with
  | [] => [(k, v)]
  | (k', v') :: o' =>
      match array_index k' with
      | Some j => if i <? j then (k, v) :: o else (k', v') :: insert_index i k v o'
      | None => (k, v) :: o
      end
  end.

(** [CreateDataProperty(o, k, v)] on an ordinary object. *)
Definition define_property (o : list (jsstring * value)) (kv : jsstring * value)
  : list (jsstring * value) :=
  let '(k, v) := kv in
  match get_property k o with
  | Some _ => replace_property k v o
  | None =>
      match array_index k with
      | Some i => insert_index i k v o
      | None => o ++ [(k, v)]
      end
  end.

(** ** [JSON.parse]

    A recursive-descent reader of the JSON grammar of ECMA-262 (24.5.1): the
    four white-space characters, the three literals, numbers, strings with
    their escapes, arrays and objects.  [fuel] bounds the nesting and the
    number of elements. *)

Inductive result (A : Type) :=
| Parsed (a : A) (rest : jsstring)
| SyntaxError
| OutOfFuel.
Arguments Parsed {A} a rest.
Arguments SyntaxError {A}.
Arguments OutOfFuel {A}.

Definition bind {A B} (r : result A) (f : A -> jsstring -> result B) : result B :=
  match r with
  | Parsed a rest => f a rest
  | SyntaxError => SyntaxError
  | OutOfFuel => OutOfFuel
  end.

Definition is_ws (c : Z) : bool :=
  (c =? TAB) || (c =? LF) || (c =? CR) || (c =? SPACE).

Fixpoint skip_ws (s : jsstring) : jsstring :=
  match s with
  | c :: s' => if is_ws c then skip_ws s' else s
  | [] => []
  end.

Fixpoint span_digits (s : jsstring) : list Z * jsstring :=
  match s with
  | c :: s' =>
      if is_digit c then let '(ds, r) := span_digits s' in (c :: ds, r)
      else ([], s)
  | [] => ([], [])
  end.

(** Trailing zeros of the digits move to the exponent. *)
Fixpoint strip_zeros (fuel : nat) (m e : Z) : Z * Z :=
  match fuel with
  | O => (m, e)
  | S fuel' => if m mod 10 =? 0 then strip_zeros fuel' (m / 10) (e + 1) else (m, e)
  end.

(** The number denoted by the digits [m] (of which there are [len]) at
    exponent [e], with sign [neg]. *)
Definition number_of_decimal (neg : bool) (len : nat) (m e : Z) : number :=
  if m =? 0 then (if neg then NNegZero else NInt 0)
  else
    let '(m', e') := strip_zeros len m e in
    if (0 <=? e') && (e' <=? 15) && (m' * 10 ^ e' <=? 2 ^ 53)
    then NInt (if neg then - (m' * 10 ^ e') else m' * 10 ^ e')
    else NDec (if neg then - m' else m') e'.

(** The four parts of a number: sign, integer part (a lone zero, or digits
    that do not start with zero), fraction and exponent. *)
Definition number_sign (s : jsstring) : bool * jsstring :=
  match s with
  | c :: r => if c =? MINUS then (true, r) else (false, s)
  | [] => (false, s)
  end.

Definition number_int (s : jsstring) : list Z * jsstring :=
  match s with
  | c :: r => if c =? ZERO then ([c], r) else span_digits s
  | [] => ([], s)
  end.

Definition number_frac (s : jsstring) : result (list Z) :=
  match s with
  | c :: r =>
      if c =? DOT then
        let '(fd, s') := span_digits r in
        match fd with [] => SyntaxError | _ => Parsed fd s' end
      else Parsed [] s
  | [] => Parsed [] s
  end.

Definition number_exp (s : jsstring) : result Z :=
  match s with
  | c :: r =>
      if (c =? 101) || (c =? 69) then
        let '(eneg, r') :=
          match r with
          | g :: r1 =>
              if g =? MINUS then (true, r1)
              else if g =? PLUS then (false, r1) else (false, r)
          | [] => (false, r)
          end in
        let '(ed, s') := span_digits r' in
        match ed with
        | [] => SyntaxError
        | _ => Parsed (if eneg then - digits_value ed else digits_value ed) s'
        end
      else Parsed 0 s
  | [] => Parsed 0 s
  end.

Definition parse_number (s : jsstring) : result number :=
  let '(neg, s1) := number_sign s in
  let '(ip, s2) := number_int s1 in
  match ip with
  | [] => SyntaxError
  | _ =>
      bind (number_frac s2) (fun fd s3 =>
      bind (number_exp s3) (fun ex s4 =>
      Parsed (number_of_decimal neg (length (ip ++ fd))
                (digits_value (ip ++ fd)) (ex - Z.of_nat (length fd))) s4))
  end.

Definition hex_digit (c : Z) : option Z :=
  if (48 <=? c) && (c <=? 57) then Some (c - 48)
  else if (97 <=? c) && (c <=? 102) then Some (c - 87)
  else if (65 <=? c) && (c <=? 70) then Some (c - 55)
  else None.

Definition simple_escape (c : Z) : option Z :=
  if c =? QUOTE then Some QUOTE
  else if c =? BACKSLASH then Some BACKSLASH
  else if c =? SLASH then Some SLASH
  else if c =? 98 then Some 8
  else if c =? 102 then Some 12
  else if c =? 110 then Some LF
  else if c =? 114 then Some CR
  else if c =? 116 then Some TAB
  else None.

(** The characters of a string literal after its opening quote, up to and
    including the closing quote. *)
Fixpoint parse_string (s : jsstring) : result jsstring :=
  match s with
  | [] => SyntaxError
  | c :: s1 =>
      if c =? QUOTE then Parsed [] s1
      else if c =? BACKSLASH then
        match s1 with
        | [] => SyntaxError
        | e :: s2 =>
            if e =? 117 then
              match s2 with
              | h1 :: h2 :: h3 :: h4 :: s6 =>
                  match hex_digit h1, hex_digit h2, hex_digit h3, hex_digit h4 with
                  | Some d1, Some d2, Some d3, Some d4 =>
                      bind (parse_string s6) (fun t r =>
                        Parsed (((d1 * 16 + d2) * 16 + d3) * 16 + d4 :: t) r)
                  | _, _, _, _ => SyntaxError
                  end
              | _ => SyntaxError
              end
            else
              match simple_escape e with
              | Some u => bind (parse_string s2) (fun t r => Parsed (u :: t) r)
              | None => SyntaxError
              end
        end
      else if c <? 32 then SyntaxError
      else bind (parse_string s1) (fun t r => Parsed (c :: t) r)
  end.

Fixpoint expect (word : jsstring) (s : jsstring) : option jsstring :=
  match word, s with
  | [], _ => Some s
  | w :: word', c :: s' => if c =? w then expect word' s' else None
  | _ :: _, [] => None
  end.

Fixpoint parse_value (fuel : nat) (s : jsstring) {struct fuel} : result value :=
  match fuel with
  | O => OutOfFuel
  | S fuel' =>
      match skip_ws s with
      | [] => SyntaxError
      | c :: s' =>
          if c =? LBRACE then
            match skip_ws s' with
            | [] => SyntaxError
            | d :: r =>
                if d =? RBRACE then Parsed (VObj []) r
                else bind (parse_members fuel' (d :: r)) (fun ps rest =>
                       Parsed (VObj (fold_left define_property ps [])) rest)
            end
          else if c =? LBRACKET then
            match skip_ws s' with
            | [] => SyntaxError
            | d :: r =>
                if d =? RBRACKET then Parsed (VArr []) r
                else bind (parse_elements fuel' (d :: r)) (fun vs rest =>
                       Parsed (VArr vs) rest)
            end
          else if c =? QUOTE then
            bind (parse_string s') (fun t rest => Parsed (VStr t) rest)
          else if (c =? MINUS) || is_digit c then
            bind (parse_number (c :: s')) (fun n rest => Parsed (VNum n) rest)
          else if c =? 110 then
            match expect (js "ull") s' with
            | Some rest => Parsed VNull rest
            | None => SyntaxError
            end
          else if c =? 116 then
            match expect (js "rue") s' with
            | Some rest => Parsed (VBool true) rest
            | None => SyntaxError
            end
          else if c =? 102 then
            match expect (js "alse") s' with
            | Some rest => Parsed (VBool false) rest
            | None => SyntaxError
            end
          else SyntaxError
      end
  end

(** The elements of an array after [[], up to and including []]. *)
with parse_elements (fuel : nat) (s : jsstring) {struct fuel} : result (list value) :=
  match fuel with
  | O => OutOfFuel
  | S fuel' =>
      bind (parse_value fuel' s) (fun v s1 =>
      match skip_ws s1 with
      | [] => SyntaxError
      | d :: s2 =>
          if d =? COMMA then
            bind (parse_elements fuel' s2) (fun vs rest => Parsed (v :: vs) rest)
          else if d =? RBRACKET then Parsed [v] s2
          else SyntaxError
      end)
  end

(** The members of an object after [{] and white space, up to and including
    [}], in the order of the text. *)
with parse_members (fuel : nat) (s : jsstring) {struct fuel}
  : result (list (jsstring * value)) :=
  match fuel with
  | O => OutOfFuel
  | S fuel' =>
      match s with
      | [] => SyntaxError
      | q :: s1 =>
          if q =? QUOTE then
            bind (parse_string s1) (fun k s2 =>
            match skip_ws s2 with
            | [] => SyntaxError
            | col :: s3 =>
                if col =? COLON then
                  bind (parse_value fuel' s3) (fun v s4 =>
                  match skip_ws s4 with
                  | [] => SyntaxError
                  | d :: s5 =>
                      if d =? COMMA then
                        bind (parse_members fuel' (skip_ws s5)) (fun ps rest =>
                          Parsed ((k, v) :: ps) rest)
                      else if d =? RBRACE then Parsed [(k, v)] s5
                      else SyntaxError
                  end)
                else SyntaxError
            end)
          else SyntaxError
      end
  end.

(** [JSON.parse(text)]: [None] is the [SyntaxError] it throws.  A level of
    nesting costs two units of fuel and at least one character, so that twice
    the length is enough fuel for any text ([JSON_parse_fuel]). *)
Definition JSON_parse (text : jsstring) : option value :=
  match parse_value (S (2 * length text)) text with
  | Parsed v rest => match skip_ws rest with [] => Some v | _ => None end
  | _ => None
  end.

(** ** [JSON.stringify]

    [QuoteJSONString] (ECMA-262 24.5.2.2, with the well-formed output of
    ES2019): the seven short escapes, [\uXXXX] in lower-case hexadecimal for
    the other control characters and for a lone surrogate, every other code
    unit as it is. *)

Definition hex_char (d : Z) : Z := if d <? 10 then 48 + d else 87 + d.

Definition unicode_escape (c : Z) : jsstring :=
  [BACKSLASH; 117; hex_char (c / 4096); hex_char ((c / 256) mod 16);
   hex_char ((c / 16) mod 16); hex_char (c mod 16)].

Definition quote_unit (c : Z) : jsstring :=
  if c =? 8 then [BACKSLASH; 98]
  else if c =? TAB then [BACKSLASH; 116]
  else if c =? LF then [BACKSLASH; 110]
  else if c =? 12 then [BACKSLASH; 102]
  else if c =? CR then [BACKSLASH; 114]
  else if c =? QUOTE then [BACKSLASH; QUOTE]
  else if c =? BACKSLASH then [BACKSLASH; BACKSLASH]
  else if c <? 32 then unicode_escape c
  else [c].

Fixpoint quote_units (s : jsstring) : jsstring :=
  match s with
  | [] => []
  | c :: s1 =>
      if is_high_surrogate c then
        match s1 with
        | d :: s2 =>
            if is_low_surrogate d then c :: d :: quote_units s2
            else unicode_escape c ++ quote_units s1
        | [] => unicode_escape c
        end
      else if is_low_surrogate c then unicode_escape c ++ quote_units s1
      else quote_unit c ++ quote_units s1
  end.

Definition QuoteJSONString (s : jsstring) : jsstring :=
  QUOTE :: quote_units s ++ [QUOTE].

(** The decimal digits of a natural number. *)
Fixpoint digits (fuel : nat) (z : Z) : list Z :=
  match fuel with
  | O => []
  | S fuel' =>
      if z <? 10 then [48 + z] else digits fuel' (z / 10) ++ [48 + z mod 10]
  end.

Definition decimal (z : Z) : jsstring := digits (S (Z.to_nat (Z.log2 z))) z.

(** [Number::toString] (ECMA-262 6.1.6.1.20) of the positive number whose
    shortest digits are those of [m], at exponent [e]. *)
Definition Number_toString_decimal (m e : Z) : jsstring :=
  let s := decimal m in
  let k := Z.of_nat (length s) in
  let n := k + e in
  if (k <=? n) && (n <=? 21) then s ++ repeat ZERO (Z.to_nat (n - k))
  else if (0 <? n) && (n <=? 21) then
    take (Z.to_nat n) s ++ DOT :: drop (Z.to_nat n) s
  else if (-6 <? n) && (n <=? 0) then
    ZERO :: DOT :: repeat ZERO (Z.to_nat (- n)) ++ s
  else
    match s with
    | [] => []
    | d :: r =>
        d :: match r with [] => [] | _ => DOT :: r end
          ++ 101 :: (if n - 1 <? 0 then MINUS else PLUS) :: decimal (Z.abs (n - 1))
    end.

Definition Number_toString (n : number) : jsstring :=
  match n with
  | NInt z =>
      let a := Z.abs z in
      (if z <? 0 then [MINUS] else []) ++
      (if a <? 10 ^ 21 then decimal a
       else let '(m, e) := strip_zeros (S (Z.to_nat (Z.log2 a))) a 0 in
            Number_toString_decimal m e)
  | NNegZero => js "0"
  | NDec m e => (if m <? 0 then [MINUS] else []) ++ Number_toString_decimal (Z.abs m) e
  | NNaN => js "NaN"
  | NInf negative => if negative then js "-Infinity" else js "Infinity"
  end.

Definition is_finite (n : number) : bool :=
  match n with
  | NNaN | NInf _ => false
  | _ => true
  end.

Fixpoint join_comma (parts : list jsstring) : jsstring :=
  match parts with
  | [] => []
  | [t] => t
  | t :: parts' => t ++ COMMA :: join_comma parts'
  end.

(** [SerializeJSONProperty]: [None] is [undefined].  In an array [undefined]
    is written [null]; in an object a property whose value is [undefined] is
    left out. *)
Fixpoint SerializeJSONProperty (v : value) : option jsstring :=
  match v with
  | VUndefined => None
  | VNull => Some (js "null")
  | VBool b => Some (if b then js "true" else js "false")
  | VNum n => Some (if is_finite n then Number_toString n else js "null")
  | VStr s => Some (QuoteJSONString s)
  | VArr l =>
      Some (LBRACKET ::
            join_comma (map (fun x => match SerializeJSONProperty x with
                                      | Some t => t
                                      | None => js "null"
                                      end) l)
            ++ [RBRACKET])
  | VObj o =>
      Some (LBRACE ::
            join_comma (omap (fun kx => match SerializeJSONProperty (snd kx) with
                                        | Some t => Some (QuoteJSONString (fst kx) ++ COLON :: t)
                                        | None => None
                                        end) o)
            ++ [RBRACE])
  end.

(** [JSON.stringify(json)]. *)
Definition JSON_stringify (json : value) : option jsstring :=
  SerializeJSONProperty json.

(** ** Equality of values up to the order of keys *)

Fixpoint value_equiv (v w : value) : bool :=
  match v, w with
  | VUndefined, VUndefined => true
  | VNull, VNull => true
  | VBool a, VBool b => bool_decide (a = b)
  | VNum a, VNum b => bool_decide (a = b)
  | VStr a, VStr b => bool_decide (a = b)
  | VArr l, VArr l' =>
      (fix go (l l' : list value) : bool :=
         match l, l' with
         | [], [] => true
         | x :: l1, y :: l2 => value_equiv x y && go l1 l2
         | _, _ => false
         end) l l'
  | VObj o, VObj o' =>
      (length o =? length o')%nat &&
      (fix go (o : list (jsstring * value)) : bool :=
         match o with
         | [] => true
         | kx :: o1 =>
             match get_property (fst kx) o' with
             | Some y => value_equiv (snd kx) y
             | None => false
             end && go o1
         end) o
  | _, _ => false
  end.

(** The values of the JSON data model: no [undefined], numbers that are
    integers of magnitude at most 2^53, strings of code units, and objects
    whose keys are distinct. *)
Fixpoint json_value (v : value) : Prop :=
  match v with
  | VUndefined => False
  | VNull | VBool _ => True
  | VNum (NInt z) => - 2 ^ 53 <= z <= 2 ^ 53
  | VNum _ => False
  | VStr s => wf_string s
  | VArr l => (fix all (l : list value) : Prop :=
                 match l with
                 | [] => True
                 | x :: l' => json_value x /\ all l'
                 end) l
  | VObj o => NoDup (map fst o) /\
              (fix all (o : list (jsstring * value)) : Prop :=
                 match o with
                 | [] => True
                 | kx :: o' => wf_string (fst kx) /\ json_value (snd kx) /\ all o'
                 end) o
  end.

(** ** The vocabulary of the round trip

    The text of an element of an array and of a member of an object, as
    [SerializeJSONProperty] writes them. *)
Definition item_text (x : value) : jsstring :=
  match SerializeJSONProperty x with Some t => t | None => js "null" end.

Definition member_text (kx : jsstring * value) : option jsstring :=
  match SerializeJSONProperty kx.2 with
  | Some t => Some (QuoteJSONString kx.1 ++ COLON :: t)
  | None => None
  end.

(** What may follow a value in a JSON text: the end, or [,], []] or [}]. *)
Definition delimited (rest : jsstring) : Prop :=
  match rest with
  | [] => True
  | c :: _ => c = COMMA \/ c = RBRACKET \/ c = RBRACE
  end.

(** A text that starts a value: its first character is neither white space
    nor a closing bracket. *)
Definition starts_value (text : jsstring) : Prop :=
  match text with
  | [] => False
  | c :: _ => is_ws c = false /\ c <> RBRACKET /\ c <> RBRACE
  end.

(** [text] is read back as [v'], which is [v] up to the order of keys. *)
Definition reads_back (v : value) (text : jsstring) (v' : value) : Prop :=
  value_equiv v v' = true /\ starts_value text /\
  forall fuel rest, (length text <= fuel)%nat -> delimited rest ->
    parse_value fuel (text ++ rest) = Parsed v' rest.

(** Well-formed UTF-16: every surrogate is half of a pair.  These are the
    strings that UTF-8 can carry. *)
Fixpoint well_formed (s : jsstring) : Prop :=
  match s with
  | [] => True
  | c :: s1 =>
      if is_high_surrogate c then
        match s1 with
        | d :: s2 => is_low_surrogate d = true /\ well_formed s2
        | [] => False
        end
      else is_low_surrogate c = false /\ 0 <= c <= 0xFFFF /\ well_formed s1
  end.

Definition plain (c : Z) : Prop := is_surrogate c = false /\ 0 <= c <= 0xFFFF.

(** ** The gateway

    A [WebSocket] object and a [PeerContext] object are known by reference.
    What [e instanceof TrackerError] tells apart is the constructor of the
    exception. *)

Abbreviation conn := nat (only parsing).
Abbreviation pref := nat (only parsing).

Inductive exn :=
| TrackerError (message : string)
| TypeError (message : string)
| Error (message : string).

Definition instanceof_TrackerError (e : exn) : bool :=
  match e with
  | TrackerError _ => true
  | _ => false
  end.

Inductive completion (A : Type) :=
| Normal (a : A)
| Throws (e : exn).
Arguments Normal {A} a.
Arguments Throws {A} e.

(** The transport's view of a connection (the OPENING, OPEN and CLOSED of
    the lifecycle); a connection the transport has not announced yet has no
    state. *)
Inductive ready_state := OPEN | CLOSED.

#[global] Instance ready_state_eq_dec : EqDecision ready_state.
Proof. solve_decision. Defined.

(** What crosses the gateway's two boundaries, in the order it happens: the
    calls into the tracker and the calls of the transport's [ws.close] and
    [ws.send]. *)
Inductive call :=
| processMessage_call (json : value) (peer : pref)
| disconnectPeer_call (peer : pref)
| ws_close_call (ws : conn)
| ws_send_call (ws : conn) (message : option jsstring).

(** What the tracker does while it handles a call: it returns or throws,
    leaving its own state [t], or it calls the [sendMessage] of a context it
    holds and goes on according to how that call completed. *)
Inductive prog (T : Type) :=
| Return (t : T)
| Raise (t : T) (e : exn)
| Call_sendMessage (peer : pref) (json : value) (k : option exn -> prog T).
Arguments Return {T} t.
Arguments Raise {T} t e.
Arguments Call_sendMessage {T} peer json k.

(** Modelled from the spec: the [Tracker] of [./tracker], which is not among
    the sources.  The constructor receives it ([readonly tracker: Tracker]);
    section 6 of the design gives its interface: [processMessage] may throw
    the protocol error or any other one, [disconnectPeer] is a notification
    that returns nothing.  A tracker is any state [T] with a program for
    [processMessage] and a function on the state for [disconnectPeer].

    With it come the two other things the module depends on:
    [debugMessagesEnabled] is [debugMessages.enabled], read once when the
    module loads; [invalid_access] is what a method of a [WebSocket] does
    once the connection is closed: the call is ignored ([None]) or throws,
    and uWebSockets.js has done either, depending on its version. *)
Class Setting := {
  T : Type;
  processMessage : value -> pref -> T -> prog T;
  disconnectPeer : pref -> T -> T;
  debugMessagesEnabled : bool;
  invalid_access : option exn
}.

Section Gateway.

Context {setting : Setting}.

(** [webSocketsCount] is the private counter; [peer] holds the [peer]
    property of each [WebSocket] object; [contexts] is the heap of
    [PeerContext] objects, a context being known by its position and holding
    the [ws] its [sendMessage] closed over; [readyState] belongs to the
    transport, [tracker] to the tracker. *)
Record Gateway := mkGateway {
  webSocketsCount : Z;
  peer : gmap conn pref;
  contexts : list conn;
  readyState : gmap conn ready_state;
  tracker : T;
  trace : list call
}.

Definition M (A : Type) : Type := Gateway -> completion A * Gateway.

Definition ret {A} (a : A) : M A := fun g => (Normal a, g).

Definition throw {A} (e : exn) : M A := fun g => (Throws e, g).

Definition bindM {A B} (m : M A) (k : A -> M B) : M B :=
  fun g =>
    match m g with
    | (Normal a, g') => k a g'
    | (Throws e, g') => (Throws e, g')
    end.

Definition try_catch {A} (m : M A) (handler : exn -> M A) : M A :=
  fun g =>
    match m g with
    | (Normal a, g') => (Normal a, g')
    | (Throws e, g') => handler e g'
    end.

Definition gets {A} (f : Gateway -> A) : M A := fun g => (Normal (f g), g).

Definition modify (f : Gateway -> Gateway) : M unit := fun g => (Normal tt, f g).

Notation "x <- m ;; k" := (bindM m (fun x => k))
  (at level 100, m at next level, k at level 200, right associativity).
Notation "m ;;; k" := (bindM m (fun _ => k))
  (at level 100, k at level 200, right associativity).

Definition set_webSocketsCount (n : Z) (g : Gateway) : Gateway :=
  mkGateway n (peer g) (contexts g) (readyState g) (tracker g) (trace g).

Definition set_peer (f : gmap conn pref) (g : Gateway) : Gateway :=
  mkGateway (webSocketsCount g) f (contexts g) (readyState g) (tracker g) (trace g).

Definition set_contexts (l : list conn) (g : Gateway) : Gateway :=
  mkGateway (webSocketsCount g) (peer g) l (readyState g) (tracker g) (trace g).

Definition set_readyState (f : gmap conn ready_state) (g : Gateway) : Gateway :=
  mkGateway (webSocketsCount g) (peer g) (contexts g) f (tracker g) (trace g).

Definition set_tracker (t : T) (g : Gateway) : Gateway :=
  mkGateway (webSocketsCount g) (peer g) (contexts g) (readyState g) t (trace g).

Definition record (c : call) : M unit :=
  modify (fun g =>
    mkGateway (webSocketsCount g) (peer g) (contexts g) (readyState g) (tracker g)
              (trace g ++ [c])).

(** [get stats()]. *)
Definition stats (g : Gateway) : Z := webSocketsCount g.

(** A call of a transport method on [ws]: refused as [invalid_access] says
    once [ws] is closed. *)
Definition access (ws : conn) (method : M unit) : M unit :=
  st <- gets (fun g => readyState g !! ws) ;;
  match st with
  | Some CLOSED =>
      match invalid_access with
      | Some e => throw e
      | None => ret tt
      end
  | _ => method
  end.

(** [ws.send(message, false, false)]. *)
Definition ws_send (ws : conn) (message : option jsstring) : M unit :=
  record (ws_send_call ws message) ;;;
  access ws (ret tt).

(** The [sendMessage] of the context that [createPeer(ws)] returns. *)
Definition sendMessage (ws : conn) (json : value) : M unit :=
  ws_send ws (JSON_stringify json) ;;;
  if debugMessagesEnabled then
    p <- gets (fun g => peer g !! ws) ;;
    match p with
    | Some _ => ret tt
    | None => throw (TypeError "Cannot read property 'id' of undefined")
    end
  else ret tt.

(** [createPeer(ws)]: a new context, whose [sendMessage] closes over [ws]. *)
Definition createPeer (ws : conn) : M pref :=
  p <- gets (fun g => length (contexts g)) ;;
  modify (fun g => set_contexts (contexts g ++ [ws]) g) ;;;
  ret p.

(** [context.sendMessage(json)] for the context at [p]. *)
Definition PeerContext_sendMessage (p : pref) (json : value) : M unit :=
  c <- gets (fun g => contexts g !! p) ;;
  match c with
  | Some ws => sendMessage ws json
  | None => throw (TypeError "Cannot read property 'sendMessage' of undefined")
  end.

(** The tracker at work. *)
Fixpoint run (m : prog T) : M unit :=
  match m with
  | Return t => modify (set_tracker t)
  | Raise t e => modify (set_tracker t) ;;; throw e
  | Call_sendMessage p json k =>
      fun g =>
        match PeerContext_sendMessage p json g with
        | (Normal _, g') => run (k None) g'
        | (Throws e, g') => run (k (Some e)) g'
        end
  end.

Definition tracker_processMessage (json : value) (p : pref) : M unit :=
  record (processMessage_call json p) ;;;
  t <- gets tracker ;;
  run (processMessage json p t).

Definition tracker_disconnectPeer (p : pref) : M unit :=
  record (disconnectPeer_call p) ;;;
  modify (fun g => set_tracker (disconnectPeer p (tracker g)) g).

(** The [open] handler of [buildApplication]. *)
Definition open (ws : conn) : M unit :=
  modify (fun g => set_webSocketsCount (webSocketsCount g + 1) g).

(** The [drain] handler: it only reads [ws.getBufferedAmount()]. *)
Definition drain (ws : conn) : M unit :=
  access ws (ret tt).

Definition onClose (ws : conn) : M unit :=
  modify (fun g => set_webSocketsCount (webSocketsCount g - 1) g) ;;;
  p <- gets (fun g => peer g !! ws) ;;
  match p with
  | Some p =>
      modify (fun g => set_peer (delete ws (peer g)) g) ;;;
      tracker_disconnectPeer p
  | None => ret tt
  end.

(** [ws.close()]: the transport closes the connection and calls the [close]
    handler before it returns. *)
Definition ws_close (ws : conn) : M unit :=
  record (ws_close_call ws) ;;;
  access ws (modify (fun g => set_readyState (<[ws := CLOSED]> (readyState g)) g) ;;;
             onClose ws).

(** Lines 107 to 111 of [onMessage]: the context attached to [ws], created
    and attached first when there is none. *)
Definition resolve (ws : conn) : M pref :=
  p0 <- gets (fun g => peer g !! ws) ;;
  match p0 with
  | Some p => ret p
  | None =>
      p <- createPeer ws ;;
      modify (fun g => set_peer (<[ws := p]> (peer g)) g) ;;;
      ret p
  end.

Definition onMessage (ws : conn) (message : bytes) : M unit :=
  match JSON_parse (decoder_end message) with
  | None => ws_close ws
  | Some json =>
      p <- resolve ws ;;
      try_catch (tracker_processMessage json p)
        (fun e => if instanceof_TrackerError e then ws_close ws else throw e)
  end.

(** *** Events

    What the transport and the tracker do to the gateway: the transport
    announces a connection, delivers a frame or a drain signal, or signals a
    close, and calls the handler registered for it; the holder of a context
    calls its [sendMessage]. *)
Inductive event :=
| Open (ws : conn)
| Message (ws : conn) (message : bytes)
| Drain (ws : conn)
| Close (ws : conn)
| Send (p : pref) (json : value).

Definition deliver (e : event) : M unit :=
  match e with
  | Open ws =>
      modify (fun g => set_readyState (<[ws := OPEN]> (readyState g)) g) ;;;
      open ws
  | Message ws message => onMessage ws message
  | Drain ws => drain ws
  | Close ws =>
      modify (fun g => set_readyState (<[ws := CLOSED]> (readyState g)) g) ;;;
      onClose ws
  | Send p json => PeerContext_sendMessage p json
  end.

(** An exception that leaves a handler reaches the fault boundary of the
    process; the state the handler left is what the next event finds. *)
Definition after (e : event) (g : Gateway) : Gateway := snd (deliver e g).

Definition exec (events : list event) (g : Gateway) : Gateway :=
  fold_left (fun g e => after e g) events g.

Definition initial (t : T) : Gateway := mkGateway 0 ∅ [] ∅ t [].

(** The transport's discipline (section 4.2 of the design: a connection is
    opened once, [message], [drain] and [close] come only while it is open),
    and a context can be called only once it exists. *)
Definition admissible (e : event) (g : Gateway) : Prop :=
  match e with
  | Open ws => readyState g !! ws = None
  | Message ws _ | Drain ws | Close ws => readyState g !! ws = Some OPEN
  | Send p _ => (p < length (contexts g))%nat
  end.

Fixpoint disciplined (events : list event) (g : Gateway) : Prop :=
  match events with
  | [] => True
  | e :: events' => admissible e g /\ disciplined events' (after e g)
  end.

(** The connections that are open. *)
Definition open_connections (rs : gmap conn ready_state) : gset conn :=
  dom (filter (fun kv => kv.2 = OPEN) rs).

Definition live (g : Gateway) : gset conn := open_connections (readyState g).

(** A frame of [ws] was decoded to a message. *)
Definition decoded (ws : conn) (events : list event) : Prop :=
  exists message json,
    In (Message ws message) events /\ JSON_parse (decoder_end message) = Some json.

Definition disconnects_of (tr : list call) : list pref :=
  omap (fun c => match c with
                 | disconnectPeer_call p => Some p
                 | _ => None
                 end) tr.

Definition disconnects (g : Gateway) : list pref := disconnects_of (trace g).

Definition count_disconnects (p : pref) (g : Gateway) : nat :=
  length (filter (fun q => q = p) (disconnects g)).

Definition calls_of (tr : list call) : list (value * pref) :=
  omap (fun c => match c with
                 | processMessage_call json p => Some (json, p)
                 | _ => None
                 end) tr.

Definition processMessage_calls (g : Gateway) : list (value * pref) :=
  calls_of (trace g).

(** What a call of [sendMessage], or the tracker at work, leaves as it was:
    everything but the tracker's own state, and the trace grows by calls of
    [ws.send] only. *)
Definition is_send (c : call) : Prop :=
  match c with
  | ws_send_call _ _ => True
  | _ => False
  end.

Definition frame (g g' : Gateway) : Prop :=
  webSocketsCount g' = webSocketsCount g /\ peer g' = peer g /\
  contexts g' = contexts g /\ readyState g' = readyState g /\
  exists l, trace g' = trace g ++ l /\ Forall is_send l.

(** The invariants behind the trace properties.

    [coherent] holds whatever the order of the events: an attached context
    was created for the connection it is attached to and has not been
    disconnected, and no context is disconnected twice.  [orderly] needs the
    transport's discipline: the counter is the number of open connections,
    no connection has two contexts, and a context is either attached to its
    open connection or disconnected with its connection closed.  [accounted]
    ties the contexts and the calls of [processMessage] to the frames that
    were decoded. *)
Definition coherent_on (pe : gmap conn pref) (cx : list conn) (ds : list pref) : Prop :=
  (forall ws p, pe !! ws = Some p -> cx !! p = Some ws /\ p ∉ ds) /\
  NoDup ds /\
  (forall p, p ∈ ds -> (p < length cx)%nat).

Definition orderly_on (n : Z) (pe : gmap conn pref) (cx : list conn)
    (rs : gmap conn ready_state) (ds : list pref) : Prop :=
  n = Z.of_nat (size (open_connections rs)) /\
  NoDup cx /\
  (forall p ws, cx !! p = Some ws ->
     (rs !! ws = Some OPEN /\ pe !! ws = Some p) \/
     (rs !! ws = Some CLOSED /\ p ∈ ds)).

Definition accounted_on (events : list event) (cx : list conn)
    (calls : list (value * pref)) : Prop :=
  (forall p ws, cx !! p = Some ws -> decoded ws events) /\
  (forall ws, decoded ws events -> exists p, cx !! p = Some ws) /\
  (forall json p, (json, p) ∈ calls ->
     exists ws message,
       In (Message ws message) events /\
       JSON_parse (decoder_end message) = Some json /\
       cx !! p = Some ws).

Definition coherent (g : Gateway) : Prop :=
  coherent_on (peer g) (contexts g) (disconnects g).

Definition orderly (g : Gateway) : Prop :=
  orderly_on (webSocketsCount g) (peer g) (contexts g) (readyState g) (disconnects g).

Definition accounted (events : list event) (g : Gateway) : Prop :=
  accounted_on events (contexts g) (processMessage_calls g).

End Gateway.

(** ** A tracker for the examples

    It follows the shape of the tracker of the repository: it reads
    [json.action], which throws a [TypeError] when the message is [null];
    it answers an announce through the context of the sender and counts it;
    it rejects anything else with a [TrackerError]. *)
Definition announce_reply : value :=
  VObj [(js "action", VStr (js "announce")); (js "interval", VNum (NInt 120))].

Definition sample_processMessage (json : value) (p : pref) (t : nat) : prog nat :=
  match json with
  | VNull | VUndefined =>
      Raise t (TypeError "Cannot read property 'action' of null")
  | VObj o =>
      match get_property (js "action") o with
      | Some (VStr a) =>
          if bool_decide (a = js "announce") then
            Call_sendMessage p announce_reply
              (fun r => match r with None => Return (S t) | Some e => Raise t e end)
          else Raise t (TrackerError "unknown action")
      | _ => Raise t (TrackerError "unknown action")
      end
  | _ => Raise t (TrackerError "unknown action")
  end.

Definition sample (debug : bool) (refusal : option exn) : Setting :=
  {| T := nat;
     processMessage := sample_processMessage;
     disconnectPeer := fun _ t => t;
     debugMessagesEnabled := debug;
     invalid_access := refusal |}.

(** The sample tracker, from the initial state, through [events]. *)
Definition sample_exec (debug : bool) (refusal : option exn) (events : list event)
  : Gateway (setting := sample debug refusal) :=
  exec (setting := sample debug refusal) events
    (initial (setting := sample debug refusal) 0%nat).

(** Frames: an announce, the same with a byte that is not UTF-8 inside a
    string, a document cut short, and the document [null]. *)
Definition announce_frame : bytes := jsq "{'action':'announce','info_hash':'abc'}".

Definition malformed_utf8_frame : bytes :=
  jsq "{'action':'announce','info_hash':'" ++ [0xFF] ++ jsq "'}".

Definition truncated_frame : bytes := jsq "{'action':'announce','info_hash':".

Definition scrape_frame : bytes := jsq "{'action':'scrape'}".

Definition null_frame : bytes := js "null".

(** A message with an integer-like key, nested values, an escaped quote, an
    astral character and a lone surrogate. *)
Definition sample_message : value :=
  VObj [(js "action", VStr (js "announce")); (js "10", VNum (NInt (-42)));
        (js "2", VArr [VNull; VBool true; VStr [0x22; 0xD83D; 0xDE00; 0xD800; 0x0A; 0xE9]]);
        (js "offers", VObj [])].

(** ** Further vocabulary

    The message that an event brings, when it brings one. *)
Definition message_of (e : event) : option value :=
  match e with
  | Message _ message => JSON_parse (decoder_end message)
  | _ => None
  end.

(** The connection that an event of the transport is about. *)
Definition connection_of (e : event) : option nat :=
  match e with
  | Open ws | Message ws _ | Drain ws | Close ws => Some ws
  | Send _ _ => None
  end.

(** What [JSON.parse] returns: no [undefined] at any depth, and no object
    with a key twice. *)
#[warnings="-register-all"]
Inductive parsed : value -> Prop :=
| parsed_null : parsed VNull
| parsed_bool b : parsed (VBool b)
| parsed_num n : parsed (VNum n)
| parsed_str s : parsed (VStr s)
| parsed_arr l : Forall parsed l -> parsed (VArr l)
| parsed_obj o : NoDup (map fst o) -> Forall (fun kx => parsed kx.2) o -> parsed (VObj o).

(** A Unicode scalar value: a code point that is not a surrogate. *)
Definition scalar (c : Z) : Prop := 0 <= c <= 0x10FFFF /\ is_surrogate c = false.

(** A value whose strings and keys are sequences of UTF-16 code units. *)
#[warnings="-register-all"]
Inductive of_code_units : value -> Prop :=
| units_undefined : of_code_units VUndefined
| units_null : of_code_units VNull
| units_bool b : of_code_units (VBool b)
| units_num n : of_code_units (VNum n)
| units_str s : wf_string s -> of_code_units (VStr s)
| units_arr l : Forall of_code_units l -> of_code_units (VArr l)
| units_obj o :
    Forall (fun kx => wf_string kx.1 /\ of_code_units kx.2) o -> of_code_units (VObj o).

(** ** The constructor and [run]

    The static side of a [UWebSocketsTracker]: the settings the constructor
    merges, the application it creates, the route [buildApplication]
    registers, and the promise of [run].  What the constructor leaves in the
    private counter and in [tracker] is [initial]. *)

Module UWebSocketsTracker.

(** [ToBoolean] (ECMA-262 7.1.2).  The double of [NDec m e] is a zero when
    [|m| * 10^e] is at most half of the least positive double, 2^-1075. *)
Definition ToBoolean (v : value) : bool :=
  match v with
  | VUndefined | VNull => false
  | VBool b => b
  | VNum (NInt z) => negb (z =? 0)
  | VNum NNegZero | VNum NNaN => false
  | VNum (NDec m e) => negb (Z.abs m * 2 ^ 1075 <=? 10 ^ (- e))
  | VNum (NInf _) => true
  | VStr s => negb (bool_decide (s = []))
  | VArr _ | VObj _ => true
  end.

(** The own enumerable properties of a value, in the order of
    [OrdinaryOwnPropertyKeys]: those of an object, the elements of an array,
    the code units of a string; the other values have none. *)
Definition indexed {A} (f : A -> value) (l : list A) : list (jsstring * value) :=
  imap (fun i x => (decimal (Z.of_nat i), f x)) l.

Definition own_enumerable (v : value) : list (jsstring * value) :=
  match v with
  | VStr s => indexed (fun c => VStr [c]) s
  | VArr l => indexed id l
  | VObj o => o
  | _ => []
  end.

(** [v.k], for a key [k] that the prototypes do not define (none of the
    keys the module reads is defined by one): [None] is the [TypeError] of a
    read on [undefined] or [null]. *)
Definition Get (v : value) (k : jsstring) : option value :=
  match v with
  | VUndefined | VNull => None
  | VObj o => Some (default VUndefined (get_property k o))
  | VArr l =>
      Some (if bool_decide (k = js "length") then VNum (NInt (Z.of_nat (length l)))
            else default VUndefined (get_property k (indexed id l)))
  | VStr s =>
      Some (if bool_decide (k = js "length") then VNum (NInt (Z.of_nat (length s)))
            else default VUndefined (get_property k (indexed (fun c => VStr [c]) s)))
  | _ => Some VUndefined
  end.

(** [{ ...o, ...source }] for the properties [o] already written in an
    object literal: [CopyDataProperties]. *)
Definition spread (o : list (jsstring * value)) (source : value)
  : list (jsstring * value) :=
  fold_left define_property (own_enumerable source) o.

(** [(settings && settings.k) ? settings.k : {}]. *)
Definition section (settings : value) (k : jsstring) : option value :=
  if ToBoolean settings then
    match Get settings k with
    | Some c => if ToBoolean c then Get settings k else Some (VObj [])
    | None => None
    end
  else Some (VObj []).

Definition default_server : list (jsstring * value) :=
  [(js "port", VNum (NInt 8000)); (js "host", VStr (js "0.0.0.0"))].

Definition default_websockets : list (jsstring * value) :=
  [(js "path", VStr (js "/")); (js "maxPayloadLength", VNum (NInt (64 * 1024)));
   (js "idleTimeout", VNum (NInt 240)); (js "compression", VNum (NInt 1))].

(** [this.settings]. *)
Record Settings := {
  server : list (jsstring * value);
  websockets : list (jsstring * value)
}.

(** [this._app]: which of [App] and [SSLApp] made it, and with what. *)
Inductive TemplatedApp :=
| App (options : list (jsstring * value))
| SSLApp (options : list (jsstring * value)).

(** The route that [buildApplication] registers with [ws]; the four
    handlers are those of the gateway. *)
Record Route := {
  pattern : value;
  compression : value;
  maxPayloadLength : value;
  idleTimeout : value
}.

Record instance := {
  settings : Settings;
  app : TemplatedApp;
  route : Route
}.

Definition property (o : list (jsstring * value)) (k : string) : value :=
  default VUndefined (get_property (js k) o).

Definition buildApplication (s : Settings) : Route :=
  {| pattern := property (websockets s) "path";
     compression := property (websockets s) "compression";
     maxPayloadLength := property (websockets s) "maxPayloadLength";
     idleTimeout := property (websockets s) "idleTimeout" |}.

(** [new UWebSocketsTracker(tracker, settings)]; [settings] defaults to
    [{}].  [None] is a [TypeError] of the merge; what [App] and [SSLApp] do
    with their options is the transport's. *)
Definition constructor (settings : value) : option instance :=
  let settings := match settings with VUndefined => VObj [] | _ => settings end in
  match section settings (js "server") with
  | Some given_server =>
      match section settings (js "websockets") with
      | Some given_websockets =>
          let s := {| server := spread default_server given_server;
                      websockets := spread default_websockets given_websockets |} in
          Some {| settings := s;
                  app := match property (server s) "key_file_name" with
                         | VUndefined => App (server s)
                         | _ => SSLApp (server s)
                         end;
                  route := buildApplication s |}
      | None => None
      end
  | None => None
  end.

(** [ToString] (ECMA-262 7.1.17); [None] is the [TypeError] of an object
    that cannot be converted: one whose own [toString] hides that of
    [Object.prototype] (no value of the fragment is a function). *)
Fixpoint ToString (v : value) : option jsstring :=
  match v with
  | VUndefined => Some (js "undefined")
  | VNull => Some (js "null")
  | VBool b => Some (if b then js "true" else js "false")
  | VNum n => Some (Number_toString n)
  | VStr s => Some s
  | VArr l =>
      (fix join (l : list value) : option jsstring :=
         match l with
         | [] => Some []
         | x :: l' =>
             match (match x with
                    | VUndefined | VNull => Some []
                    | _ => ToString x
                    end) with
             | Some t =>
                 match l' with
                 | [] => Some t
                 | _ => match join l' with
                        | Some r => Some (t ++ COMMA :: r)
                        | None => None
                        end
                 end
             | None => None
             end
         end) l
  | VObj o =>
      match get_property (js "toString") o with
      | None => Some (js "[object Object]")
      | Some _ => None
      end
  end.

(** What becomes of the promise of [run] when the transport calls the
    callback of [listen]: it is resolved, or rejected with an [Error] of the
    given message, or the callback throws. *)
Inductive settlement :=
| Resolved
| Rejected (message : jsstring)
| Threw.

(** [run()]: the arguments of [listen], and the callback applied to the
    [token] the transport passes to it. *)
Definition run (this : instance) (token : value) : value * value * settlement :=
  let host := property (server (settings this)) "host" in
  let port := property (server (settings this)) "port" in
  (host, port,
   if ToBoolean token then Resolved
   else match ToString host, ToString port with
        | Some h, Some p => Rejected (js "failed to listen to " ++ h ++ COLON :: p)
        | _, _ => Threw
        end).

(** What the constructor finds at [settings.k]: the property of an object;
    no other value has one. *)
Definition given (settings : value) (k : string) : value :=
  match settings with
  | VObj o => property o k
  | _ => VUndefined
  end.

(** A value that is an object has no key twice. *)
Definition distinct_keys (v : value) : Prop :=
  match v with
  | VObj o => NoDup (map fst o)
  | _ => True
  end.

(** Settings for the examples: a port, a key file and a limit; and the
    instance made from them. *)
Definition sample_settings : value :=
  VObj [(js "server", VObj [(js "port", VNum (NInt 9000));
                            (js "key_file_name", VStr (js "key.pem"))]);
        (js "websockets", VObj [(js "maxPayloadLength", VNum (NInt 1024))])].

Definition sample_instance : instance :=
  let s := [(js "port", VNum (NInt 9000)); (js "host", VStr (js "0.0.0.0"));
            (js "key_file_name", VStr (js "key.pem"))] in
  {| settings :=
       {| server := s;
          websockets :=
            [(js "path", VStr (js "/")); (js "maxPayloadLength", VNum (NInt 1024));
             (js "idleTimeout", VNum (NInt 240)); (js "compression", VNum (NInt 1))] |};
     app := SSLApp s;
     route := {| pattern := VStr (js "/"); compression := VNum (NInt 1);
                 maxPayloadLength := VNum (NInt 1024); idleTimeout := VNum (NInt 240) |} |}.

End UWebSocketsTracker.

(** * Properties *)

(** ** The round trip of [JSON.stringify] and [JSON.parse] *)

Lemma value_ind' (P : value -> Prop) :
  P VUndefined -> P VNull -> (forall b, P (VBool b)) -> (forall n, P (VNum n)) ->
  (forall s, P (VStr s)) ->
  (forall l, Forall P l -> P (VArr l)) ->
  (forall o, Forall (fun kx => P kx.2) o -> P (VObj o)) ->
  forall v, P v.
Proof.
  intros HU HN HB HNum HS HA HO. fix IH 1.
  intros [| |b|n|s|l|o]; [exact HU | exact HN | apply HB | apply HNum | apply HS | |].
  - apply HA. induction l as [|x l IHl]; constructor; [apply IH | apply IHl].
  - apply HO. induction o as [|[k x] o IHo]; constructor; [apply IH | apply IHo].
Qed.

Lemma json_value_arr l : json_value (VArr l) <-> Forall json_value l.
Proof.
  simpl. induction l as [|x l IH]; [split; auto|].
  rewrite Forall_cons. simpl. tauto.
Qed.

Lemma json_value_obj o :
  json_value (VObj o) <->
  NoDup (map fst o) /\ Forall (fun kx => wf_string kx.1 /\ json_value kx.2) o.
Proof.
  simpl. apply and_iff_compat_l. induction o as [|kx o IH]; [split; auto|].
  rewrite Forall_cons. simpl. tauto.
Qed.

(** *** Numbers *)
Lemma digits_value_snoc ds d : digits_value (ds ++ [d]) = digits_value ds * 10 + (d - 48).
Proof. unfold digits_value. by rewrite fold_left_app. Qed.

Lemma digits_S fuel z :
  digits (S fuel) z =
  if z <? 10 then [48 + z] else digits fuel (z / 10) ++ [48 + z mod 10].
Proof. reflexivity. Qed.

Lemma digits_spec fuel : forall z, 0 <= z < 2 ^ Z.of_nat (S fuel) ->
  let ds := digits (S fuel) z in
  Forall (fun d => is_digit d = true) ds /\ digits_value ds = z /\
  exists d ds', ds = d :: ds' /\ (d = 48 -> z = 0 /\ ds' = []).
Proof.
  induction fuel as [|fuel IH]; intros z Hz ds; subst ds; rewrite digits_S;
    destruct (Z.ltb_spec z 10) as [Hlt|Hge].
  1, 3: split_and!;
      [ repeat constructor; unfold is_digit; lia
      | unfold digits_value; simpl; lia
      | eexists _, _; split; [done|]; intros; split; [lia|done] ].
  - change (2 ^ Z.of_nat 1) with 2 in Hz. lia.
  - assert (0 <= z / 10 < 2 ^ Z.of_nat (S fuel)) as Hq.
    { rewrite (Nat2Z.inj_succ (S fuel)), Z.pow_succ_r in Hz by lia.
      split; [apply Z.div_pos; lia|].
      apply Z.div_lt_upper_bound; lia. }
    destruct (IH _ Hq) as (Hd & Hv & d & ds' & Heq & Hz0). cbv zeta in *.
    split_and!.
    + apply Forall_app. split; [done|]. repeat constructor. unfold is_digit.
      pose proof (Z.mod_pos_bound z 10). lia.
    + rewrite digits_value_snoc, Hv. pose proof (Z.div_mod z 10). lia.
    + rewrite Heq. eexists _, _. split; [done|]. intros ->.
      destruct (Hz0 eq_refl) as [Hq0 _].
      assert (z < 10) by (apply Z.div_small_iff in Hq0; lia). lia.
Qed.

Lemma decimal_spec z : 0 <= z ->
  let ds := decimal z in
  Forall (fun d => is_digit d = true) ds /\ digits_value ds = z /\
  exists d ds', ds = d :: ds' /\ (d = 48 -> z = 0 /\ ds' = []).
Proof.
  intros Hz. apply digits_spec. split; [done|].
  rewrite Nat2Z.inj_succ, Z2Nat.id by apply Z.log2_nonneg.
  destruct (Z.eq_dec z 0) as [->|]; [done|]. apply Z.log2_spec. lia.
Qed.


Lemma span_digits_app ds rest :
  Forall (fun d => is_digit d = true) ds ->
  match rest with [] => True | c :: _ => is_digit c = false end ->
  span_digits (ds ++ rest) = (ds, rest).
Proof.
  intros Hd Hr. induction Hd as [|d ds Hd _ IH]; simpl.
  - destruct rest as [|c rest]; simpl; [done|]. by rewrite Hr.
  - by rewrite Hd, IH.
Qed.

Lemma strip_zeros_spec fuel : forall m e, 0 < m ->
  let r := strip_zeros fuel m e in
  0 < r.1 /\ e <= r.2 /\ r.1 * 10 ^ (r.2 - e) = m.
Proof.
  induction fuel as [|fuel IH]; intros m e Hm; simpl.
  - replace (e - e) with 0 by lia. lia.
  - destruct (Z.eqb_spec (m mod 10) 0) as [H0|H0]; simpl.
    + assert (0 < m / 10) as Hq by (pose proof (Z.div_mod m 10); lia).
      destruct (IH (m / 10) (e + 1) Hq) as (H1 & H2 & H3).
      split_and!; [done | lia|].
      replace (((strip_zeros fuel (m / 10) (e + 1)).2) - e)
        with (Z.succ ((strip_zeros fuel (m / 10) (e + 1)).2 - (e + 1))) by lia.
      rewrite Z.pow_succ_r by lia. pose proof (Z.div_mod m 10). lia.
    + replace (e - e) with 0 by lia. lia.
Qed.

Lemma number_of_decimal_int (neg : bool) len a :
  0 <= a <= 2 ^ 53 -> (neg = true -> a <> 0) ->
  number_of_decimal neg len a 0 = NInt (if neg then - a else a).
Proof.
  intros Ha Hneg. unfold number_of_decimal.
  destruct (Z.eqb_spec a 0) as [->|Hne].
  - destruct neg; [exfalso; by apply Hneg | done].
  - destruct (strip_zeros_spec len a 0 ltac:(lia)) as (Hm & He & Hp).
    destruct (strip_zeros len a 0) as [m e]. simpl in *.
    rewrite Z.sub_0_r in Hp.
    assert (e <= 15) as He15.
    { destruct (Z.le_gt_cases e 15) as [|Hgt]; [done|]. exfalso.
      assert (10 ^ 16 <= 10 ^ e) by (apply Z.pow_le_mono_r; lia).
      change (2 ^ 53) with 9007199254740992 in Ha.
      change (10 ^ 16) with 10000000000000000 in *. nia. }
    rewrite Hp.
    replace ((0 <=? e) && (e <=? 15) && (a <=? 2 ^ 53)) with true; [done|].
    symmetry. rewrite !andb_true_iff. lia.
Qed.

Lemma parse_number_digits (neg : bool) ds rest :
  Forall (fun d => is_digit d = true) ds ->
  (exists d ds', ds = d :: ds' /\ (d = 48 -> ds' = [])) ->
  delimited rest ->
  parse_number ((if neg then [45] else [] : jsstring) ++ ds ++ rest)
  = Parsed (number_of_decimal neg (length ds) (digits_value ds) 0) rest.
Proof.
  intros Hd (d & ds' & -> & H0) Hrest.
  assert (is_digit d = true) as Hdig by (by inversion Hd).
  assert (match rest with [] => True | c :: _ => is_digit c = false end) as Hr1.
  { destruct rest as [|c rest]; [done|]. unfold is_digit. simpl in Hrest. lia. }
  assert ((d =? 45) = false) as Hd45 by (unfold is_digit in Hdig; lia).
  unfold parse_number.
  assert (number_sign ((if neg then [45] else [] : jsstring) ++ (d :: ds') ++ rest)
          = (neg, (d :: ds') ++ rest)) as ->.
  { destruct neg; simpl; [done|]. by rewrite Hd45. }
  assert (number_int ((d :: ds') ++ rest) = (d :: ds', rest)) as ->.
  { simpl. destruct (Z.eqb_spec d 48) as [->|Hne].
    - by rewrite (H0 eq_refl).
    - pose proof (span_digits_app _ _ Hd Hr1) as Hs. simpl in Hs. rewrite Hdig in *.
      by rewrite Hs. }
  assert (number_frac rest = Parsed [] rest) as ->.
  { destruct rest as [|c rest]; simpl; [done|]. simpl in Hrest.
    by assert ((c =? 46) = false) as -> by lia. }
  cbn [bind].
  assert (number_exp rest = Parsed 0 rest) as ->.
  { destruct rest as [|c rest]; simpl; [done|]. simpl in Hrest.
    assert ((c =? 101) = false) as -> by lia.
    by assert ((c =? 69) = false) as -> by lia. }
  simpl. by rewrite app_nil_r.
Qed.

Lemma number_round_trip z rest :
  - 2 ^ 53 <= z <= 2 ^ 53 -> delimited rest ->
  parse_number (Number_toString (NInt z) ++ rest) = Parsed (NInt z) rest.
Proof.
  intros Hz Hrest.
  assert (Z.abs z < 10 ^ 21) as Habs by (change (2 ^ 53) with 9007199254740992 in Hz; lia).
  unfold Number_toString. apply Z.ltb_lt in Habs. rewrite Habs.
  destruct (decimal_spec (Z.abs z) (Z.abs_nonneg z)) as (Hd & Hv & d & ds' & Heq & H0).
  cbv zeta in *. rewrite <- app_assoc.
  rewrite (parse_number_digits (z <? 0)); try done.
  - rewrite Hv, number_of_decimal_int.
    + f_equal. f_equal. destruct (Z.ltb_spec z 0); lia.
    + lia.
    + intros ?%Z.ltb_lt. lia.
  - exists d, ds'. split; [done|]. intros E. by destruct (H0 E).
Qed.

(** *** Strings *)
Lemma hex_digit_hex_char d : 0 <= d < 16 -> hex_digit (hex_char d) = Some d.
Proof.
  intros Hd. unfold hex_char, hex_digit.
  destruct (Z.ltb_spec d 10).
  - replace ((48 <=? 48 + d) && (48 + d <=? 57)) with true
      by (symmetry; rewrite andb_true_iff; lia).
    f_equal. lia.
  - replace ((48 <=? 87 + d) && (87 + d <=? 57)) with false
      by (symmetry; rewrite andb_false_iff; lia).
    replace ((97 <=? 87 + d) && (87 + d <=? 102)) with true
      by (symmetry; rewrite andb_true_iff; lia).
    f_equal. lia.
Qed.

Lemma parse_string_literal c tail :
  c <> 34 -> c <> 92 -> 32 <= c ->
  parse_string (c :: tail) = bind (parse_string tail) (fun t r => Parsed (c :: t) r).
Proof.
  intros H1 H2 H3. simpl.
  assert ((c =? 34) = false) as -> by lia.
  assert ((c =? 92) = false) as -> by lia.
  by assert ((c <? 32) = false) as -> by lia.
Qed.

Lemma parse_string_unicode_escape c tail :
  0 <= c <= 0xFFFF ->
  parse_string (unicode_escape c ++ tail)
  = bind (parse_string tail) (fun t r => Parsed (c :: t) r).
Proof.
  intros Hc. unfold unicode_escape.
  change (parse_string ([92; 117; hex_char (c / 4096); hex_char ((c / 256) mod 16);
                         hex_char ((c / 16) mod 16); hex_char (c mod 16)] ++ tail))
    with (match hex_digit (hex_char (c / 4096)), hex_digit (hex_char ((c / 256) mod 16)),
                hex_digit (hex_char ((c / 16) mod 16)), hex_digit (hex_char (c mod 16)) with
          | Some d1, Some d2, Some d3, Some d4 =>
              bind (parse_string tail) (fun t r =>
                Parsed (((d1 * 16 + d2) * 16 + d3) * 16 + d4 :: t) r)
          | _, _, _, _ => SyntaxError
          end).
  rewrite !hex_digit_hex_char.
  - replace (((c / 4096 * 16 + (c / 256) mod 16) * 16 + (c / 16) mod 16) * 16 + c mod 16)
      with c; [done|].
    Z.div_mod_to_equations. lia.
  - apply Z.mod_pos_bound. lia.
  - apply Z.mod_pos_bound. lia.
  - apply Z.mod_pos_bound. lia.
  - split; [apply Z.div_pos; lia|]. apply Z.div_lt_upper_bound; lia.
Qed.

Lemma parse_string_quote_unit c tail :
  0 <= c <= 0xFFFF ->
  parse_string (quote_unit c ++ tail)
  = bind (parse_string tail) (fun t r => Parsed (c :: t) r).
Proof.
  intros Hc. unfold quote_unit.
  destruct (Z.eqb_spec c 8) as [->|]; [done|].
  destruct (Z.eqb_spec c 9) as [->|]; [done|].
  destruct (Z.eqb_spec c 10) as [->|]; [done|].
  destruct (Z.eqb_spec c 12) as [->|]; [done|].
  destruct (Z.eqb_spec c 13) as [->|]; [done|].
  destruct (Z.eqb_spec c 34) as [->|]; [done|].
  destruct (Z.eqb_spec c 92) as [->|]; [done|].
  destruct (Z.ltb_spec c 32).
  - by apply parse_string_unicode_escape.
  - by apply parse_string_literal.
Qed.

Lemma quote_units_cons c s :
  quote_units (c :: s) =
  if is_high_surrogate c then
    match s with
    | d :: s2 =>
        if is_low_surrogate d then c :: d :: quote_units s2
        else unicode_escape c ++ quote_units s
    | [] => unicode_escape c
    end
  else if is_low_surrogate c then unicode_escape c ++ quote_units s
  else quote_unit c ++ quote_units s.
Proof. reflexivity. Qed.

Lemma parse_string_quote_units n : forall s rest,
  (length s <= n)%nat -> wf_string s ->
  parse_string (quote_units s ++ 34 :: rest) = Parsed s rest.
Proof.
  induction n as [|n IH]; intros [|c s] rest Hlen Hwf; try done; simpl in Hlen; [lia|].
  apply Forall_cons in Hwf as [Hc Hwf]. unfold code_unit in Hc.
  assert (forall t, (length t <= n)%nat -> wf_string t ->
    bind (parse_string (quote_units t ++ 34 :: rest)) (fun t' r => Parsed (c :: t') r)
    = Parsed (c :: t) rest) as Hnext.
  { intros t Ht Hwt. by rewrite IH. }
  rewrite quote_units_cons. destruct (is_high_surrogate c) eqn:Hhigh.
  - unfold is_high_surrogate in Hhigh. destruct s as [|d s].
    + rewrite parse_string_unicode_escape by done.
      apply (Hnext []); [simpl; lia | constructor].
    + destruct (is_low_surrogate d) eqn:Hlow.
      * unfold is_low_surrogate in Hlow. apply Forall_cons in Hwf as [Hd Hwf].
        rewrite <- !app_comm_cons. rewrite parse_string_literal by lia.
        rewrite parse_string_literal by lia. rewrite IH; [done | simpl in Hlen; lia | done].
      * rewrite <- app_assoc, parse_string_unicode_escape by done.
        apply Hnext; [simpl in *; lia | done].
  - destruct (is_low_surrogate c) eqn:Hlow.
    + rewrite <- app_assoc, parse_string_unicode_escape by done.
      apply Hnext; [lia | done].
    + rewrite <- app_assoc, parse_string_quote_unit by done. apply Hnext; [lia | done].
Qed.

Lemma QuoteJSONString_round_trip s rest :
  wf_string s -> parse_string (quote_units s ++ 34 :: rest) = Parsed s rest.
Proof. by apply (parse_string_quote_units (length s)). Qed.

(** *** Objects *)
Lemma get_replace_property k k' v o :
  is_Some (get_property k' o) ->
  get_property k (replace_property k' v o)
  = if bool_decide (k' = k) then Some v else get_property k o.
Proof.
  induction o as [|[k0 v0] o IH]; simpl; [by intros [? ?]|].
  intros Hs. destruct (bool_decide_reflect (k0 = k')) as [->|Hne]; simpl.
  - by destruct (bool_decide (k' = k)).
  - destruct (bool_decide_reflect (k0 = k)) as [->|Hne'].
    + rewrite bool_decide_eq_false_2; [done | congruence].
    + by apply IH.
Qed.

Lemma get_insert_index k i k' v o :
  get_property k' o = None ->
  get_property k (insert_index i k' v o)
  = if bool_decide (k' = k) then Some v else get_property k o.
Proof.
  induction o as [|[k0 v0] o IH]; simpl; [done|].
  destruct (bool_decide_reflect (k0 = k')) as [|Hne]; [done|]. intros Hn.
  destruct (array_index k0) as [j|]; [destruct (i <? j)|]; simpl; try done.
  destruct (bool_decide_reflect (k0 = k)) as [->|Hne'].
  - rewrite bool_decide_eq_false_2; [done | congruence].
  - by apply IH.
Qed.

Lemma get_property_snoc k k' v o :
  get_property k' o = None ->
  get_property k (o ++ [(k', v)])
  = if bool_decide (k' = k) then Some v else get_property k o.
Proof.
  induction o as [|[k0 v0] o IH]; simpl; [done|].
  destruct (bool_decide_reflect (k0 = k')) as [|Hne]; [done|]. intros Hn.
  destruct (bool_decide_reflect (k0 = k)) as [->|Hne'].
  - rewrite bool_decide_eq_false_2; [done | congruence].
  - by apply IH.
Qed.

Lemma get_define_property k k' v o :
  get_property k (define_property o (k', v))
  = if bool_decide (k' = k) then Some v else get_property k o.
Proof.
  unfold define_property. destruct (get_property k' o) as [y|] eqn:Hg.
  - apply get_replace_property. by rewrite Hg.
  - destruct (array_index k'); [by apply get_insert_index | by apply get_property_snoc].
Qed.

Lemma length_replace_property k v o :
  length (replace_property k v o) = length o.
Proof.
  induction o as [|[k0 v0] o IH]; simpl; [done|].
  destruct (bool_decide (k0 = k)); simpl; by rewrite ?IH.
Qed.

Lemma length_insert_index i k v o :
  length (insert_index i k v o) = S (length o).
Proof.
  induction o as [|[k0 v0] o IH]; simpl; [done|].
  destruct (array_index k0) as [j|]; [destruct (i <? j)|]; simpl; by rewrite ?IH.
Qed.

Lemma length_define_property k v o :
  get_property k o = None -> length (define_property o (k, v)) = S (length o).
Proof.
  intros Hg. unfold define_property. rewrite Hg.
  destruct (array_index k); [apply length_insert_index|].
  rewrite length_app. simpl. lia.
Qed.

Lemma get_property_None k o : get_property k o = None <-> k ∉ map fst o.
Proof.
  induction o as [|[k0 v0] o IH]; simpl.
  - split; [intros _; apply not_elem_of_nil | done].
  - rewrite not_elem_of_cons, <- IH.
    destruct (bool_decide_reflect (k0 = k)) as [->|Hne]; [split; [done | tauto]|].
    split; [intros; split; congruence | tauto].
Qed.

(** The object that [JSON.parse] builds from the members [ps] of a text. *)
Lemma fold_define_property ps : forall acc,
  NoDup (map fst ps) ->
  (forall k, k ∈ map fst ps -> get_property k acc = None) ->
  length (fold_left define_property ps acc) = (length acc + length ps)%nat /\
  forall k, get_property k (fold_left define_property ps acc)
            = match get_property k ps with
              | Some y => Some y
              | None => get_property k acc
              end.
Proof.
  induction ps as [|[k0 v0] ps IH]; intros acc Hnd Hacc;
    cbn [fold_left map fst length get_property] in *.
  - split; [lia | done].
  - apply NoDup_cons in Hnd as [Hk0 Hnd].
    destruct (IH (define_property acc (k0, v0)) Hnd) as [Hlen Hget].
    { intros k Hk. rewrite get_define_property.
      rewrite bool_decide_eq_false_2 by (intros ->; done).
      apply Hacc. by right. }
    split.
    + rewrite Hlen, length_define_property; [lia|]. apply Hacc. by left.
    + intros k. rewrite Hget, get_define_property.
      destruct (bool_decide_reflect (k0 = k)) as [->|Hne]; [|done].
      apply get_property_None in Hk0. by rewrite Hk0.
Qed.

Lemma get_property_In k y ps :
  NoDup (map fst ps) -> (k, y) ∈ ps -> get_property k ps = Some y.
Proof.
  induction ps as [|[k0 v0] ps IH]; simpl; [by intros _ ?%elem_of_nil|].
  intros [Hk0 Hnd]%NoDup_cons [[= -> ->]|Hin]%elem_of_cons.
  - by rewrite bool_decide_eq_true_2.
  - rewrite bool_decide_eq_false_2; [by apply IH|].
    intros ->. apply Hk0. apply list_elem_of_fmap. by exists (k, y).
Qed.

Lemma value_equiv_arr l l' :
  Forall2 (fun x y => value_equiv x y = true) l l' ->
  value_equiv (VArr l) (VArr l') = true.
Proof.
  simpl. induction 1 as [|x y l l' Hxy _ IH]; [done|].
  rewrite Hxy. exact IH.
Qed.

Lemma value_equiv_obj o o' :
  length o = length o' ->
  Forall (fun kx => exists y, get_property kx.1 o' = Some y /\ value_equiv kx.2 y = true) o ->
  value_equiv (VObj o) (VObj o') = true.
Proof.
  intros Hlen Hall. simpl. rewrite Hlen, Nat.eqb_refl. simpl. clear Hlen.
  induction Hall as [|kx o (y & Hy & Hxy) _ IH]; [done|].
  rewrite Hy, Hxy. exact IH.
Qed.

Lemma value_equiv_built o ps :
  NoDup (map fst o) -> map fst ps = map fst o ->
  Forall2 (fun kx kx' => value_equiv kx.2 kx'.2 = true) o ps ->
  value_equiv (VObj o) (VObj (fold_left define_property ps [])) = true.
Proof.
  intros Hnd Hkeys Hvals.
  assert (NoDup (map fst ps)) as Hnd' by (by rewrite Hkeys).
  destruct (fold_define_property ps [] Hnd') as [Hlen Hget]; [done|].
  apply value_equiv_obj.
  - rewrite Hlen. simpl. by rewrite <- (length_map fst ps), Hkeys, length_map.
  - apply Forall_lookup_2. intros i [k x] Hi.
    destruct (Forall2_lookup_l _ _ _ _ _ Hvals Hi) as ([k' x'] & Hi' & Hxx').
    assert (k' = k) as ->.
    { assert (map fst ps !! i = Some k') as H1 by (by rewrite list_lookup_fmap, Hi').
      assert (map fst o !! i = Some k) as H2 by (by rewrite list_lookup_fmap, Hi).
      congruence. }
    exists x'. split; [|done]. rewrite Hget.
    erewrite get_property_In; [done | done |]. by eapply list_elem_of_lookup_2.
Qed.

(** *** The reader, one level at a time *)
Lemma parse_value_S fuel s :
  parse_value (S fuel) s =
  match skip_ws s with
  | [] => SyntaxError
  | c :: s' =>
      if c =? 123 then
        match skip_ws s' with
        | [] => SyntaxError
        | d :: r =>
            if d =? 125 then Parsed (VObj []) r
            else bind (parse_members fuel (d :: r)) (fun ps rest =>
                   Parsed (VObj (fold_left define_property ps [])) rest)
        end
      else if c =? 91 then
        match skip_ws s' with
        | [] => SyntaxError
        | d :: r =>
            if d =? 93 then Parsed (VArr []) r
            else bind (parse_elements fuel (d :: r)) (fun vs rest =>
                   Parsed (VArr vs) rest)
        end
      else if c =? 34 then
        bind (parse_string s') (fun t rest => Parsed (VStr t) rest)
      else if (c =? 45) || is_digit c then
        bind (parse_number (c :: s')) (fun n rest => Parsed (VNum n) rest)
      else if c =? 110 then
        match expect (js "ull") s' with
        | Some rest => Parsed VNull rest
        | None => SyntaxError
        end
      else if c =? 116 then
        match expect (js "rue") s' with
        | Some rest => Parsed (VBool true) rest
        | None => SyntaxError
        end
      else if c =? 102 then
        match expect (js "alse") s' with
        | Some rest => Parsed (VBool false) rest
        | None => SyntaxError
        end
      else SyntaxError
  end.
Proof. reflexivity. Qed.

Lemma parse_elements_S fuel s :
  parse_elements (S fuel) s =
  bind (parse_value fuel s) (fun v s1 =>
    match skip_ws s1 with
    | [] => SyntaxError
    | d :: s2 =>
        if d =? 44 then
          bind (parse_elements fuel s2) (fun vs rest => Parsed (v :: vs) rest)
        else if d =? 93 then Parsed [v] s2
        else SyntaxError
    end).
Proof. reflexivity. Qed.

Lemma parse_members_S fuel s :
  parse_members (S fuel) s =
  match s with
  | [] => SyntaxError
  | q :: s1 =>
      if q =? 34 then
        bind (parse_string s1) (fun k s2 =>
          match skip_ws s2 with
          | [] => SyntaxError
          | col :: s3 =>
              if col =? 58 then
                bind (parse_value fuel s3) (fun v s4 =>
                  match skip_ws s4 with
                  | [] => SyntaxError
                  | d :: s5 =>
                      if d =? 44 then
                        bind (parse_members fuel (skip_ws s5)) (fun ps rest =>
                          Parsed ((k, v) :: ps) rest)
                      else if d =? 125 then Parsed [(k, v)] s5
                      else SyntaxError
                  end)
              else SyntaxError
          end)
      else SyntaxError
  end.
Proof. reflexivity. Qed.

Lemma skip_ws_starts text rest : starts_value text -> skip_ws (text ++ rest) = text ++ rest.
Proof. destruct text as [|c text]; [done|]. intros [Hc _]. simpl. by rewrite Hc. Qed.

Lemma skip_ws_delimited rest : delimited rest -> skip_ws rest = rest.
Proof.
  destruct rest as [|c rest]; [done|]. simpl. intros Hc.
  replace (is_ws c) with false; [done|]. unfold is_ws. lia.
Qed.

Lemma elements_read_back l :
  Forall (fun x => exists t x', SerializeJSONProperty x = Some t /\ reads_back x t x') l ->
  l <> [] ->
  exists l',
    Forall2 (fun x y => value_equiv x y = true) l l' /\
    starts_value (join_comma (map item_text l)) /\
    forall fuel rest, (length (join_comma (map item_text l)) < fuel)%nat ->
      parse_elements fuel (join_comma (map item_text l) ++ 93 :: rest) = Parsed l' rest.
Proof.
  induction 1 as [|x l (t & x' & Hser & Heq & Hst & Hread) Hl IH]; [done|]. intros _.
  assert (item_text x = t) as Ht by (unfold item_text; by rewrite Hser).
  destruct l as [|x2 l2].
  - exists [x']. simpl. rewrite Ht. split_and!; [by repeat constructor | done |].
    intros [|fuel] rest Hfuel; [lia|]. rewrite parse_elements_S.
    rewrite Hread by (simpl; auto; lia). cbn [bind].
    rewrite skip_ws_delimited by (simpl; auto). done.
  - destruct IH as (l' & Hl' & Hst' & Hread'); [done|].
    exists (x' :: l'). change (map item_text (x :: x2 :: l2))
      with (item_text x :: map item_text (x2 :: l2)).
    change (join_comma (item_text x :: map item_text (x2 :: l2)))
      with (item_text x ++ 44 :: join_comma (map item_text (x2 :: l2))).
    rewrite Ht. split_and!.
    + by constructor.
    + destruct t; [done|]. done.
    + intros [|fuel] rest Hfuel; [lia|]. rewrite length_app in Hfuel.
      cbn [length] in Hfuel.
      rewrite parse_elements_S, <- app_assoc.
      rewrite Hread by (simpl; auto; lia). cbn [bind].
      rewrite <- app_comm_cons, skip_ws_delimited by (simpl; auto).
      change (44 =? 44) with true. cbv iota.
      rewrite Hread' by lia. done.
Qed.

Lemma member_app k t tail :
  (QuoteJSONString k ++ 58 :: t) ++ tail
  = 34 :: quote_units k ++ 34 :: 58 :: t ++ tail.
Proof. unfold QuoteJSONString. simpl. by rewrite <- !app_assoc. Qed.

Lemma members_read_back o :
  Forall (fun kx => wf_string kx.1 /\
            exists t x', SerializeJSONProperty kx.2 = Some t /\ reads_back kx.2 t x') o ->
  o <> [] ->
  exists ps,
    map fst ps = map fst o /\
    Forall2 (fun kx kx' => value_equiv kx.2 kx'.2 = true) o ps /\
    (exists M, join_comma (omap member_text o) = 34 :: M) /\
    forall fuel rest, (length (join_comma (omap member_text o)) < fuel)%nat ->
      parse_members fuel (join_comma (omap member_text o) ++ 125 :: rest) = Parsed ps rest.
Proof.
  induction 1 as [|[k x] o (Hk & t & x' & Hser & Heq & Hst & Hread) Ho IH]; [done|].
  intros _. simpl in Hk, Hser, Heq, Hread.
  assert (omap member_text ((k, x) :: o)
          = (QuoteJSONString k ++ 58 :: t) :: omap member_text o) as Hm.
  { cbn [omap list_omap]. unfold member_text at 1. simpl. by rewrite Hser. }
  rewrite Hm. clear Hm.
  assert (forall fuel tail, (length t <= fuel)%nat -> delimited tail ->
    parse_members (S fuel) ((QuoteJSONString k ++ 58 :: t) ++ tail)
    = match tail with
      | [] => SyntaxError
      | d :: s5 =>
          if d =? 44 then
            bind (parse_members fuel (skip_ws s5)) (fun ps rest => Parsed ((k, x') :: ps) rest)
          else if d =? 125 then Parsed [(k, x')] s5
          else SyntaxError
      end) as Hmember.
  { intros fuel tail Hfuel Htail. rewrite member_app, parse_members_S.
    change (34 =? 34) with true. cbv iota.
    rewrite QuoteJSONString_round_trip by done. cbn [bind].
    change (skip_ws (58 :: t ++ tail)) with (58 :: t ++ tail).
    change (58 =? 58) with true. cbv iota.
    rewrite Hread by done. cbn [bind]. by rewrite skip_ws_delimited. }
  assert (Nat.lt (length t) (length (QuoteJSONString k ++ 58 :: t))) as Hlt
    by (rewrite length_app; simpl; lia).
  destruct o as [|kx2 o2].
  - exists [(k, x')]. cbn [omap list_omap join_comma].
    split_and!; [done | by repeat constructor | unfold QuoteJSONString; simpl; eauto |].
    intros [|fuel] rest Hfuel; [lia|]. rewrite Hmember; [done | lia | simpl; auto].
  - destruct IH as (ps & Hkeys & Hvals & (M & HM) & Hread'); [done|].
    exists ((k, x') :: ps).
    destruct (omap member_text (kx2 :: o2)) as [|m2 ms] eqn:Hms; [done|].
    change (join_comma ((QuoteJSONString k ++ 58 :: t) :: m2 :: ms))
      with ((QuoteJSONString k ++ 58 :: t) ++ 44 :: join_comma (m2 :: ms)).
    split_and!.
    + simpl. by rewrite Hkeys.
    + by constructor.
    + unfold QuoteJSONString. simpl. eauto.
    + intros [|fuel] rest Hfuel; [lia|]. rewrite length_app in Hfuel.
      cbn [length] in Hfuel. rewrite <- app_assoc, <- app_comm_cons.
      rewrite Hmember; [| lia | simpl; auto].
      change (44 =? 44) with true. cbv iota.
      rewrite HM. rewrite <- app_comm_cons.
      change (skip_ws (34 :: M ++ 125 :: rest)) with (34 :: M ++ 125 :: rest).
      rewrite app_comm_cons, <- HM. rewrite Hread'; [done | lia].
Qed.

Lemma Number_toString_head z :
  - 2 ^ 53 <= z <= 2 ^ 53 ->
  exists c t, Number_toString (NInt z) = c :: t /\ (c = 45 \/ is_digit c = true).
Proof.
  intros Hz.
  assert (Z.abs z < 10 ^ 21) as Habs by (change (2 ^ 53) with 9007199254740992 in Hz; lia).
  unfold Number_toString. apply Z.ltb_lt in Habs. rewrite Habs.
  destruct (decimal_spec (Z.abs z) (Z.abs_nonneg z)) as (Hd & _ & d & ds' & Heq & _).
  cbv zeta in *. rewrite Heq in *. apply Forall_cons in Hd as [Hd _].
  destruct (z <? 0); simpl; eauto.
Qed.

Lemma parse_value_number fuel c t rest :
  c = 45 \/ is_digit c = true ->
  parse_value (S fuel) (c :: t ++ rest)
  = bind (parse_number (c :: t ++ rest)) (fun n r => Parsed (VNum n) r).
Proof.
  intros Hc. rewrite parse_value_S.
  assert (is_ws c = false) as Hws by (unfold is_ws, is_digit in *; lia).
  cbn [skip_ws]. rewrite Hws.
  assert ((c =? 123) = false) as -> by (unfold is_digit in *; lia).
  assert ((c =? 91) = false) as -> by (unfold is_digit in *; lia).
  assert ((c =? 34) = false) as -> by (unfold is_digit in *; lia).
  assert ((c =? 45) || is_digit c = true) as ->; [|done].
  destruct Hc as [->| ->]; [done | apply orb_true_r].
Qed.

Lemma parse_value_head fuel c s :
  is_ws c = false -> parse_value (S fuel) (c :: s) = parse_value (S fuel) (skip_ws (c :: s)).
Proof.
  intros Hc. rewrite !parse_value_S. cbn [skip_ws]. rewrite Hc. cbn [skip_ws]. by rewrite Hc.
Qed.

Lemma parse_value_string fuel s :
  parse_value (S fuel) (34 :: s) = bind (parse_string s) (fun t rest => Parsed (VStr t) rest).
Proof. reflexivity. Qed.

Lemma parse_value_array fuel s :
  parse_value (S fuel) (91 :: s) =
  match skip_ws s with
  | [] => SyntaxError
  | d :: r =>
      if d =? 93 then Parsed (VArr []) r
      else bind (parse_elements fuel (d :: r)) (fun vs rest => Parsed (VArr vs) rest)
  end.
Proof. reflexivity. Qed.

Lemma parse_value_object fuel s :
  parse_value (S fuel) (123 :: s) =
  match skip_ws s with
  | [] => SyntaxError
  | d :: r =>
      if d =? 125 then Parsed (VObj []) r
      else bind (parse_members fuel (d :: r)) (fun ps rest =>
             Parsed (VObj (fold_left define_property ps [])) rest)
  end.
Proof. reflexivity. Qed.

(** The text of a value of the JSON data model is read back as that value,
    up to the order of keys. *)
Lemma stringify_reads_back v :
  json_value v ->
  exists t v', SerializeJSONProperty v = Some t /\ reads_back v t v'.
Proof.
  induction v as [| |b|n|s|l IH|o IH] using value_ind'; intros Hv.
  - done.
  - exists (js "null"), VNull. split; [done|]. split_and!; [done | done |].
    by intros [|fuel] rest Hf _; [simpl in Hf; lia|].
  - exists (if b then js "true" else js "false"), (VBool b). split; [done|].
    split_and!; [by destruct b | by destruct b |].
    intros [|fuel] rest Hf _; destruct b; simpl in Hf; try lia; done.
  - destruct n as [z| | | |]; try done. simpl in Hv.
    exists (Number_toString (NInt z)), (VNum (NInt z)). split; [done|].
    destruct (Number_toString_head z Hv) as (c & t & Heq & Hc).
    split_and!.
    + simpl. by rewrite bool_decide_eq_true_2.
    + rewrite Heq. unfold starts_value, is_ws, is_digit in *. lia.
    + intros [|fuel] rest Hf Hrest; [rewrite Heq in Hf; simpl in Hf; lia|].
      pose proof (number_round_trip z rest Hv Hrest) as Hn.
      rewrite Heq in *. rewrite <- app_comm_cons in *.
      rewrite parse_value_number by done. by rewrite Hn.
  - simpl in Hv. exists (QuoteJSONString s), (VStr s). split; [done|].
    split_and!; [simpl; by rewrite bool_decide_eq_true_2 | done |].
    intros [|fuel] rest Hf Hrest; [simpl in Hf; lia|].
    unfold QuoteJSONString. rewrite <- app_comm_cons, <- app_assoc, parse_value_string.
    change ([34] ++ rest) with (34 :: rest).
    by rewrite QuoteJSONString_round_trip.
  - apply json_value_arr in Hv.
    assert (Forall (fun x => exists t x',
              SerializeJSONProperty x = Some t /\ reads_back x t x') l) as Hall.
    { apply Forall_forall. intros x Hx. rewrite Forall_forall in IH, Hv. auto. }
    change (SerializeJSONProperty (VArr l))
      with (Some (91 :: join_comma (map item_text l) ++ [93])).
    destruct l as [|x l].
    + exists [91; 93], (VArr []). split; [done|]. split_and!; [done | done |].
      by intros [|fuel] rest Hf _; [simpl in Hf; lia|].
    + destruct (elements_read_back _ Hall) as (l' & Hl' & Hst & Hread); [done|].
      eexists _, (VArr l'). split; [done|].
      split_and!; [by apply value_equiv_arr | done |].
      intros [|fuel] rest Hf Hrest; [simpl in Hf; lia|].
      rewrite <- app_comm_cons, <- app_assoc, parse_value_array.
      rewrite skip_ws_starts by done.
      change ([93] ++ rest) with (93 :: rest).
      destruct (join_comma (map item_text (x :: l))) as [|d r] eqn:HJ; [done|].
      destruct Hst as (_ & Hd & _). rewrite <- app_comm_cons.
      assert ((d =? 93) = false) as -> by lia.
      rewrite app_comm_cons, Hread; [done|].
      cbn [length] in *. rewrite length_app in Hf. cbn [length] in Hf. lia.
  - apply json_value_obj in Hv as [Hnd Hv].
    assert (Forall (fun kx => wf_string kx.1 /\ exists t x',
              SerializeJSONProperty kx.2 = Some t /\ reads_back kx.2 t x') o) as Hall.
    { apply Forall_forall. intros kx Hx. rewrite Forall_forall in IH, Hv.
      destruct (Hv _ Hx). auto. }
    change (SerializeJSONProperty (VObj o))
      with (Some (123 :: join_comma (omap member_text o) ++ [125])).
    destruct o as [|kx o].
    + exists [123; 125], (VObj []). split; [done|]. split_and!; [done | done |].
      by intros [|fuel] rest Hf _; [simpl in Hf; lia|].
    + destruct (members_read_back _ Hall) as (ps & Hkeys & Hvals & (M & HM) & Hread);
        [done|].
      eexists _, (VObj (fold_left define_property ps [])). split; [done|].
      split_and!; [by apply value_equiv_built | done |].
      intros [|fuel] rest Hf Hrest; [simpl in Hf; lia|].
      rewrite <- app_comm_cons, <- app_assoc, parse_value_object.
      change ([125] ++ rest) with (125 :: rest).
      assert (length (join_comma (omap member_text (kx :: o))) < fuel)%nat as Hlen.
      { cbn [length] in Hf. rewrite length_app in Hf. cbn [length] in Hf. lia. }
      pose proof (Hread fuel rest Hlen) as Hr. rewrite HM in *.
      rewrite <- app_comm_cons in *.
      change (skip_ws (34 :: M ++ 125 :: rest)) with (34 :: M ++ 125 :: rest).
      change (34 =? 125) with false. cbv iota. by rewrite Hr.
Qed.

(** *** [JSON.parse] after [JSON.stringify] *)

(** On the texts themselves, without the wire. *)
Lemma JSON_round_trip v :
  json_value v ->
  exists text v',
    JSON_stringify v = Some text /\ JSON_parse text = Some v' /\ value_equiv v v' = true.
Proof.
  intros Hv. destruct (stringify_reads_back v Hv) as (t & v' & Hser & Heq & _ & Hread).
  exists t, v'. split_and!; [done | | done].
  unfold JSON_parse. specialize (Hread (S (2 * length t)) [] ltac:(lia) I).
  rewrite app_nil_r in Hread. by rewrite Hread.
Qed.

(** *** Enough fuel *)

Lemma skip_ws_length s : (length (skip_ws s) <= length s)%nat.
Proof. induction s as [|c s IH]; simpl; [lia|]. destruct (is_ws c); simpl; lia. Qed.

Lemma span_digits_length s : (length (span_digits s).2 <= length s)%nat.
Proof.
  induction s as [|c s IH]; simpl; [lia|].
  destruct (is_digit c); [|simpl; lia].
  destruct (span_digits s) as [ds r]. simpl in *. lia.
Qed.

Lemma span_digits_nonempty s c ds r :
  span_digits s = (c :: ds, r) -> (length r < length s)%nat.
Proof.
  destruct s as [|d s]; simpl; [done|].
  destruct (is_digit d); [|done].
  pose proof (span_digits_length s). destruct (span_digits s) as [ds' r'].
  intros [= _ _ <-]. simpl in *. lia.
Qed.

Lemma expect_length w : forall s r, expect w s = Some r -> (length r <= length s)%nat.
Proof.
  induction w as [|a w IH]; intros [|c s] r; simpl; try done.
  - by intros [= <-].
  - by intros [= <-].
  - destruct (c =? a); [|done]. intros H%IH. lia.
Qed.

Lemma parse_string_rest n : forall s t r,
  (length s <= n)%nat -> parse_string s = Parsed t r -> (length r < length s)%nat.
Proof.
  induction n as [|n IH]; intros [|c s] t r Hn; simpl in *; try done; try lia.
  destruct (c =? 34); [intros [= _ <-]; lia|].
  destruct (c =? 92).
  - destruct s as [|e s2]; [done|]. destruct (e =? 117).
    + destruct s2 as [|h1 [|h2 [|h3 [|h4 s6]]]]; try done.
      destruct (hex_digit h1), (hex_digit h2), (hex_digit h3), (hex_digit h4); try done.
      destruct (parse_string s6) as [t' r'| |] eqn:Hp; try done.
      intros [= _ <-]. apply IH in Hp; simpl in *; lia.
    + destruct (simple_escape e); [|done].
      destruct (parse_string s2) as [t' r'| |] eqn:Hp; try done.
      intros [= _ <-]. apply IH in Hp; simpl in *; lia.
  - destruct (c <? 32); [done|].
    destruct (parse_string s) as [t' r'| |] eqn:Hp; try done.
    intros [= _ <-]. apply IH in Hp; simpl in *; lia.
Qed.

Lemma parse_number_rest s n r :
  parse_number s = Parsed n r -> (length r < length s)%nat.
Proof.
  unfold parse_number.
  assert (length (number_sign s).2 <= length s)%nat as H1.
  { destruct s as [|c s]; simpl; [lia|]. destruct (c =? 45); simpl; lia. }
  destruct (number_sign s) as [neg s1]. simpl in H1.
  assert (forall c ip s2, number_int s1 = (c :: ip, s2) -> length s2 < length s1)%nat as H2.
  { intros c ip s2. unfold number_int. destruct s1 as [|d s1']; [done|].
    destruct (d =? 48); [intros [= _ _ <-]; simpl; lia|]. apply span_digits_nonempty. }
  destruct (number_int s1) as [[|c ip] s2]; [done|]. specialize (H2 c ip s2 eq_refl).
  assert (forall fd s3, number_frac s2 = Parsed fd s3 -> length s3 <= length s2)%nat as H3.
  { intros fd s3. destruct s2 as [|d s2']; simpl; [intros [= _ <-]; simpl; lia|].
    destruct (d =? 46); [|intros [= _ <-]; simpl; lia].
    pose proof (span_digits_length s2'). destruct (span_digits s2') as [[|f fd'] s3']; [done|].
    intros [= _ <-]. simpl in *. lia. }
  destruct (number_frac s2) as [fd s3| |]; try done. specialize (H3 fd s3 eq_refl).
  cbn [bind].
  assert (forall ex s4, number_exp s3 = Parsed ex s4 -> length s4 <= length s3)%nat as H4.
  { intros ex s4. destruct s3 as [|d s3']; simpl; [intros [= _ <-]; simpl; lia|].
    destruct ((d =? 101) || (d =? 69)); [|intros [= _ <-]; simpl; lia].
    assert (Nat.le (length (match s3' with
                    | [] => (false, s3')
                    | g :: r1 => if g =? 45 then (true, r1)
                                 else if g =? 43 then (false, r1) else (false, s3')
                    end).2) (length s3')) as Hs.
    { destruct s3' as [|g r1]; simpl; [lia|].
      destruct (g =? 45); [simpl; lia|]. destruct (g =? 43); simpl; lia. }
    destruct (match s3' with
              | [] => (false, s3')
              | g :: r1 => if g =? 45 then (true, r1)
                           else if g =? 43 then (false, r1) else (false, s3')
              end) as [eneg r']. simpl in Hs.
    pose proof (span_digits_length r'). destruct (span_digits r') as [[|e ed] s4']; [done|].
    intros [= _ <-]. simpl in *. lia. }
  destruct (number_exp s3) as [ex s4| |]; try done. specialize (H4 ex s4 eq_refl).
  cbn [bind]. intros [= _ <-]. lia.
Qed.

Ltac length_facts :=
  repeat match goal with
  | H : skip_ws ?s = _ |- _ =>
      let L := fresh "L" in
      pose proof (skip_ws_length s) as L; rewrite H in L; cbn [length] in L;
      revert H
  | H : expect _ ?s = Some _ |- _ =>
      let L := fresh "L" in
      pose proof (expect_length _ _ _ H) as L; revert H
  | H : parse_string ?s = Parsed _ _ |- _ =>
      let L := fresh "L" in
      pose proof (parse_string_rest _ _ _ _ (Nat.le_refl _) H) as L; revert H
  | H : parse_number ?s = Parsed _ _ |- _ =>
      let L := fresh "L" in
      pose proof (parse_number_rest _ _ _ H) as L; cbn [length] in L; revert H
  end; intros.

(** What is left after a value is shorter than what there was. *)
Lemma parse_rest fuel :
  (forall s v r, parse_value fuel s = Parsed v r -> (length r < length s)%nat) /\
  (forall s vs r, parse_elements fuel s = Parsed vs r -> (length r < length s)%nat) /\
  (forall s ps r, parse_members fuel s = Parsed ps r -> (length r < length s)%nat).
Proof.
  induction fuel as [|fuel (IHv & IHe & IHm)]; [by split_and!|]. split_and!.
  - intros s v r. rewrite parse_value_S. intros H.
    repeat (case_match; try done); simplify_eq; length_facts; try lia.
    + destruct (parse_members fuel _) as [ps rest| |] eqn:Hm; [|done..].
      apply IHm in Hm. simpl in *. simplify_eq. lia.
    + destruct (parse_elements fuel _) as [vs rest| |] eqn:He; [|done..].
      apply IHe in He. simpl in *. simplify_eq. lia.
    + destruct (parse_string _) as [t rest| |] eqn:Hs; [|done..].
      simpl in *. simplify_eq. length_facts. lia.
    + destruct (parse_number _) as [n rest| |] eqn:Hn; [|done..].
      simpl in *. simplify_eq. length_facts. lia.
  - intros s vs r. rewrite parse_elements_S.
    destruct (parse_value fuel s) as [v s1| |] eqn:Hv; [|done..]. apply IHv in Hv.
    cbn [bind]. intros H.
    repeat (case_match; try done); simplify_eq; length_facts; try lia.
    destruct (parse_elements fuel _) as [vs' rest| |] eqn:He; [|done..].
    apply IHe in He. simpl in *. simplify_eq. lia.
  - intros s ps r. rewrite parse_members_S. intros H.
    destruct s as [|q s1]; [done|]. destruct (q =? 34); [|done].
    destruct (parse_string s1) as [k s2| |] eqn:Hk; [|done..]. cbn [bind] in H.
    destruct (skip_ws s2) as [|col s3] eqn:Hs2; [done|]. destruct (col =? 58); [|done].
    destruct (parse_value fuel s3) as [v s4| |] eqn:Hv; [|done..]. apply IHv in Hv.
    cbn [bind] in H.
    destruct (skip_ws s4) as [|d s5] eqn:Hs4; [done|].
    length_facts. cbn [length]. destruct (d =? 44).
    + destruct (parse_members fuel (skip_ws s5)) as [ps' rest| |] eqn:Hm; [|done..].
      apply IHm in Hm. pose proof (skip_ws_length s5). simpl in *. simplify_eq. lia.
    + destruct (d =? 125); [|done]. simplify_eq. lia.
Qed.

Lemma parse_string_total n : forall s, (length s <= n)%nat -> parse_string s <> OutOfFuel.
Proof.
  induction n as [|n IH]; intros [|c s] Hn; simpl in *; try done; try lia.
  destruct (c =? 34); [done|]. destruct (c =? 92).
  - destruct s as [|e s2]; [done|]. destruct (e =? 117).
    + destruct s2 as [|h1 [|h2 [|h3 [|h4 s6]]]]; try done.
      destruct (hex_digit h1), (hex_digit h2), (hex_digit h3), (hex_digit h4); try done.
      destruct (parse_string s6) eqn:Hp; try done.
      exfalso. revert Hp. apply IH. simpl in *. lia.
    + destruct (simple_escape e); [|done].
      destruct (parse_string s2) eqn:Hp; try done.
      exfalso. revert Hp. apply IH. simpl in *. lia.
  - destruct (c <? 32); [done|].
    destruct (parse_string s) eqn:Hp; try done.
    exfalso. revert Hp. apply IH. simpl in *. lia.
Qed.

Lemma parse_number_total s : parse_number s <> OutOfFuel.
Proof.
  unfold parse_number.
  destruct (number_sign s) as [neg s1]. destruct (number_int s1) as [[|? ?] s2]; [done|].
  destruct (number_frac s2) eqn:Hf; [| done | unfold number_frac in Hf; by repeat case_match].
  cbn [bind]. destruct (number_exp _) eqn:Hx; try done.
  unfold number_exp in Hx. by repeat case_match.
Qed.

(** With twice the length of the text and one more, the reader does not
    run out of fuel. *)
Lemma parse_fuel fuel :
  (forall s, (2 * length s + 1 <= fuel)%nat -> parse_value fuel s <> OutOfFuel) /\
  (forall s, (2 * length s + 2 <= fuel)%nat -> parse_elements fuel s <> OutOfFuel) /\
  (forall s, (2 * length s + 2 <= fuel)%nat -> parse_members fuel s <> OutOfFuel).
Proof.
  induction fuel as [|fuel (IHv & IHe & IHm)]; [split_and!; intros; lia|]. split_and!.
  - intros s Hs. rewrite parse_value_S.
    repeat (case_match; try done); simplify_eq; length_facts.
    + intros Hout. destruct (parse_members fuel _) eqn:Hm; try done.
      revert Hm. apply IHm. simpl in *. lia.
    + intros Hout. destruct (parse_elements fuel _) eqn:He; try done.
      revert He. apply IHe. simpl in *. lia.
    + match goal with
      | |- context [parse_string ?x] =>
          pose proof (parse_string_total _ x (Nat.le_refl _))
      end. by destruct (parse_string _).
    + match goal with
      | |- context [parse_number ?x] => pose proof (parse_number_total x)
      end. by destruct (parse_number _).
  - intros s Hs. rewrite parse_elements_S.
    destruct (parse_value fuel s) as [v s1| |] eqn:Hv; [|done|].
    + apply (proj1 (parse_rest fuel)) in Hv. cbn [bind].
      repeat (case_match; try done); simplify_eq; length_facts.
      intros Hout. destruct (parse_elements fuel _) eqn:He; try done.
      revert He. apply IHe. simpl in *. lia.
    + exfalso. revert Hv. apply IHv. lia.
  - intros s Hs. rewrite parse_members_S.
    destruct s as [|q s1]; [done|]. destruct (q =? 34); [|done].
    pose proof (parse_string_total _ _ (Nat.le_refl (length s1))).
    destruct (parse_string s1) as [k s2| |] eqn:Hk; [|done..].
    cbn [bind]. destruct (skip_ws s2) as [|col s3] eqn:Hs2; [done|].
    destruct (col =? 58); [|done]. length_facts. cbn [length] in *.
    destruct (parse_value fuel s3) as [v s4| |] eqn:Hv; [|done|].
    + apply (proj1 (parse_rest fuel)) in Hv. cbn [bind].
      destruct (skip_ws s4) as [|d s5] eqn:Hs4; [done|]. length_facts.
      destruct (d =? 44); [|by destruct (d =? 125)].
      intros Hout. destruct (parse_members fuel _) eqn:Hm; try done.
      revert Hm. apply IHm. pose proof (skip_ws_length s5). lia.
    + exfalso. revert Hv. apply IHv. lia.
Qed.

(** [JSON_parse] gives [None] only for a text with a syntax error. *)
Lemma JSON_parse_fuel text : parse_value (S (2 * length text)) text <> OutOfFuel.
Proof. apply (proj1 (parse_fuel _)). lia. Qed.

(** *** The wire: UTF-8 there and back

    Induction on a string, a surrogate pair at a time. *)
Lemma pair_ind (P : jsstring -> Prop) :
  P [] ->
  (forall c s, P s -> (forall d s2, s = d :: s2 -> P s2) -> P (c :: s)) ->
  forall s, P s.
Proof.
  intros Hnil Hcons s.
  assert (P s /\ forall d s2, s = d :: s2 -> P s2) as [H _]; [|done].
  induction s as [|c s [IH1 IH2]]; [split; [done | discriminate]|].
  split; [by apply Hcons|]. by intros d s2 [= <- <-].
Qed.

Ltac btest :=
  match goal with
  | |- context [?a =? ?b] => destruct (Z.eqb_spec a b); try lia
  | |- context [?a <=? ?b] => destruct (Z.leb_spec a b); try lia
  | |- context [?a <? ?b] => destruct (Z.ltb_spec a b); try lia
  end.

Lemma decode_encode_cp c bs :
  0 <= c < 0x110000 -> is_surrogate c = false ->
  utf8_decode None (utf8_encode_cp c ++ bs) = c :: utf8_decode None bs.
Proof.
  intros Hc Hs. unfold is_surrogate in Hs. unfold utf8_encode_cp.
  destruct (Z.ltb_spec c 0x80); [|destruct (Z.ltb_spec c 0x800);
    [|destruct (Z.ltb_spec c 0x10000)]].
  - simpl. unfold utf8_lead. by repeat (btest; simpl).
  - pose proof (Z.div_mod c 64 ltac:(lia)). pose proof (Z.mod_pos_bound c 64 ltac:(lia)).
    set (q := c / 64) in *. set (r := c mod 64) in *.
    simpl. unfold utf8_lead. repeat (btest; simpl). f_equal. lia.
  - pose proof (Z.div_mod c 64 ltac:(lia)). pose proof (Z.mod_pos_bound c 64 ltac:(lia)).
    pose proof (Z.div_mod (c / 64) 64 ltac:(lia)).
    pose proof (Z.mod_pos_bound (c / 64) 64 ltac:(lia)).
    replace (c / 4096) with (c / 64 / 64) by (rewrite Z.div_div by lia; reflexivity).
    set (q := c / 64) in *. set (r := c mod 64) in *.
    set (q2 := q / 64) in *. set (r2 := q mod 64) in *.
    simpl. unfold utf8_lead. repeat (btest; simpl); f_equal; lia.
  - pose proof (Z.div_mod c 64 ltac:(lia)). pose proof (Z.mod_pos_bound c 64 ltac:(lia)).
    pose proof (Z.div_mod (c / 64) 64 ltac:(lia)).
    pose proof (Z.mod_pos_bound (c / 64) 64 ltac:(lia)).
    pose proof (Z.div_mod (c / 64 / 64) 64 ltac:(lia)).
    pose proof (Z.mod_pos_bound (c / 64 / 64) 64 ltac:(lia)).
    replace (c / 4096) with (c / 64 / 64) by (rewrite Z.div_div by lia; reflexivity).
    replace (c / 262144) with (c / 64 / 64 / 64) by (rewrite !Z.div_div by lia; reflexivity).
    set (q := c / 64) in *. set (r := c mod 64) in *.
    set (q2 := q / 64) in *. set (r2 := q mod 64) in *.
    set (q3 := q2 / 64) in *. set (r3 := q2 mod 64) in *.
    simpl. unfold utf8_lead. repeat (btest; simpl); f_equal; lia.
Qed.

Lemma utf16_encode_pair c d :
  is_high_surrogate c = true -> is_low_surrogate d = true ->
  utf16_encode (0x10000 + (c - 0xD800) * 0x400 + (d - 0xDC00)) = [c; d].
Proof.
  unfold is_high_surrogate, is_low_surrogate, utf16_encode. intros Hc Hd.
  destruct (Z.ltb_spec (0x10000 + (c - 0xD800) * 0x400 + (d - 0xDC00)) 0x10000); [lia|].
  replace (0x10000 + (c - 0xD800) * 0x400 + (d - 0xDC00) - 0x10000)
    with ((c - 0xD800) * 0x400 + (d - 0xDC00)) by lia.
  f_equal; [|f_equal]; Z.div_mod_to_equations; lia.
Qed.

(** A well-formed string survives the wire: written as UTF-8 and decoded,
    it is the same string. *)
Lemma utf8_round_trip s : well_formed s -> decoder_end (utf8_encode s) = s.
Proof.
  unfold decoder_end.
  induction s as [|c s IH1 IH2] using pair_ind; [done|]. intros Hwf.
  cbn [utf8_encode well_formed] in *. destruct (is_high_surrogate c) eqn:Hhigh.
  - destruct s as [|d s2]; [done|]. destruct Hwf as [Hlow Hwf]. rewrite Hlow.
    unfold is_high_surrogate, is_low_surrogate in Hhigh, Hlow.
    rewrite decode_encode_cp; [| lia | unfold is_surrogate; lia].
    cbn [flat_map]. rewrite utf16_encode_pair by (unfold is_high_surrogate, is_low_surrogate; lia).
    rewrite (IH2 d s2 eq_refl Hwf). done.
  - destruct Hwf as (Hlow & Hc & Hwf). rewrite Hlow.
    unfold is_high_surrogate, is_low_surrogate in Hhigh, Hlow.
    rewrite decode_encode_cp; [| lia | unfold is_surrogate; lia].
    cbn [flat_map]. rewrite (IH1 Hwf). unfold utf16_encode.
    destruct (Z.ltb_spec c 0x10000); [done | lia].
Qed.

Lemma well_formed_cons_plain c s : plain c -> well_formed s -> well_formed (c :: s).
Proof.
  intros [Hs Hc] Hwf. unfold is_surrogate in Hs. simpl.
  replace (is_high_surrogate c) with false by (unfold is_high_surrogate; lia).
  replace (is_low_surrogate c) with false by (unfold is_low_surrogate; lia). done.
Qed.

Lemma well_formed_app a b : well_formed a -> well_formed b -> well_formed (a ++ b).
Proof.
  induction a as [|c a IH1 IH2] using pair_ind; [done|]. intros Ha Hb.
  cbn [well_formed app] in *. destruct (is_high_surrogate c).
  - destruct a as [|d a2]; [done|]. destruct Ha as [Hd Ha]. simpl.
    split; [done|]. by apply (IH2 d a2).
  - destruct Ha as (? & ? & ?). split_and!; auto; lia.
Qed.

Lemma well_formed_plain s : Forall plain s -> well_formed s.
Proof. induction 1; [done|]. by apply well_formed_cons_plain. Qed.

Lemma plain_ascii c : 0 <= c < 128 -> plain c.
Proof. unfold plain, is_surrogate. lia. Qed.

Lemma plain_hex_char d : 0 <= d < 16 -> plain (hex_char d).
Proof. intros Hd. apply plain_ascii. unfold hex_char. destruct (d <? 10); lia. Qed.

Ltac plain_list :=
  apply well_formed_plain; repeat apply Forall_cons_2; try apply Forall_nil_2;
  try (apply plain_ascii; lia).

Lemma well_formed_unicode_escape c : 0 <= c <= 0xFFFF -> well_formed (unicode_escape c).
Proof.
  intros Hc. unfold unicode_escape. plain_list; apply plain_hex_char;
    try (apply Z.mod_pos_bound; lia).
  split; [apply Z.div_pos; lia | apply Z.div_lt_upper_bound; lia].
Qed.

Lemma well_formed_quote_units s : wf_string s -> well_formed (quote_units s).
Proof.
  induction s as [|c s IH1 IH2] using pair_ind; [done|].
  intros [Hc Hs]%Forall_cons. unfold code_unit in Hc. rewrite quote_units_cons.
  destruct (is_high_surrogate c) eqn:Hhigh.
  - destruct s as [|d s2]; [by apply well_formed_unicode_escape|].
    destruct (is_low_surrogate d) eqn:Hlow.
    + cbn [well_formed]. rewrite Hhigh. split; [done|].
      apply (IH2 d s2 eq_refl). by apply Forall_cons in Hs as [_ ?].
    + apply well_formed_app; [by apply well_formed_unicode_escape | auto].
  - destruct (is_low_surrogate c) eqn:Hlow.
    + apply well_formed_app; [by apply well_formed_unicode_escape | auto].
    + apply well_formed_app; [|auto]. unfold quote_unit.
      repeat (destruct (_ =? _); [by plain_list|]).
      destruct (Z.ltb_spec c 32); [by apply well_formed_unicode_escape|].
      plain_list. unfold plain, is_surrogate, is_high_surrogate, is_low_surrogate in *. lia.
Qed.

Lemma well_formed_join parts :
  Forall well_formed parts -> well_formed (join_comma parts).
Proof.
  induction 1 as [|t parts Ht Hparts IH]; [done|].
  destruct parts as [|t2 parts]; [done|].
  change (join_comma (t :: t2 :: parts)) with (t ++ 44 :: join_comma (t2 :: parts)).
  apply well_formed_app; [done|]. apply well_formed_cons_plain; [by apply plain_ascii | done].
Qed.

Lemma well_formed_number z :
  - 2 ^ 53 <= z <= 2 ^ 53 -> well_formed (Number_toString (NInt z)).
Proof.
  intros Hz.
  assert (Z.abs z < 10 ^ 21) as Habs by (change (2 ^ 53) with 9007199254740992 in Hz; lia).
  unfold Number_toString. apply Z.ltb_lt in Habs. rewrite Habs.
  destruct (decimal_spec (Z.abs z) (Z.abs_nonneg z)) as (Hd & _).
  apply well_formed_app.
  - destruct (z <? 0); by plain_list.
  - apply well_formed_plain. eapply Forall_impl; [exact Hd|].
    intros d Hdig. apply plain_ascii. unfold is_digit in Hdig. lia.
Qed.

Lemma stringify_well_formed v :
  json_value v -> forall t, SerializeJSONProperty v = Some t -> well_formed t.
Proof.
  induction v as [| |b|n|s|l IH|o IH] using value_ind'; intros Hv t Ht.
  - done.
  - injection Ht as <-. by plain_list.
  - injection Ht as <-.
    destruct b; by plain_list.
  - destruct n as [z| | | |]; try done. injection Ht as <-. by apply well_formed_number.
  - injection Ht as <-. unfold QuoteJSONString.
    apply well_formed_cons_plain; [by apply plain_ascii|].
    apply well_formed_app; [by apply well_formed_quote_units|].
    by plain_list.
  - apply json_value_arr in Hv.
    change (SerializeJSONProperty (VArr l))
      with (Some (91 :: join_comma (map item_text l) ++ [93])) in Ht.
    injection Ht as <-. apply well_formed_cons_plain; [by apply plain_ascii|].
    apply well_formed_app;
      [|by plain_list].
    apply well_formed_join. apply Forall_map, Forall_forall. intros x Hx.
    rewrite Forall_forall in IH, Hv. unfold item_text.
    destruct (SerializeJSONProperty x) eqn:Hser; [by eapply IH; eauto|].
    by plain_list.
  - apply json_value_obj in Hv as [_ Hv].
    change (SerializeJSONProperty (VObj o))
      with (Some (123 :: join_comma (omap member_text o) ++ [125])) in Ht.
    injection Ht as <-. apply well_formed_cons_plain; [by apply plain_ascii|].
    apply well_formed_app;
      [|by plain_list].
    apply well_formed_join. apply Forall_forall. intros m Hm.
    apply list_elem_of_omap in Hm as ([k x] & Hkx & Hm).
    rewrite Forall_forall in IH, Hv. destruct (Hv _ Hkx) as [Hk Hx].
    unfold member_text in Hm. simpl in *.
    destruct (SerializeJSONProperty x) eqn:Hser; [|done]. injection Hm as <-.
    unfold QuoteJSONString. rewrite <- !app_assoc.
    apply well_formed_cons_plain; [by apply plain_ascii|].
    apply well_formed_app; [by apply well_formed_quote_units|].
    apply well_formed_cons_plain; [by apply plain_ascii|].
    apply well_formed_cons_plain; [by apply plain_ascii|].
    eapply (IH (k, x)); eauto.
Qed.

(** *** Malformed UTF-8 is replaced *)

Lemma utf8_decode_cons p b bs :
  utf8_decode p (b :: bs) = (utf8_step p b).1 ++ utf8_decode (utf8_step p b).2 bs.
Proof. simpl. by destruct (utf8_step p b). Qed.

(** A byte that the sequence in progress accepts ... *)
Lemma utf8_decode_continue q b bs :
  lower q <= b <= upper q ->
  utf8_decode (Some q) (b :: bs) =
  match needed q with
  | O => cp q * 64 + (b - 0x80) :: utf8_decode None bs
  | S n => utf8_decode (Some (Pending (cp q * 64 + (b - 0x80)) n 0x80 0xBF)) bs
  end.
Proof.
  intros Hb. rewrite utf8_decode_cons. unfold utf8_step.
  replace ((lower q <=? b) && (b <=? upper q)) with true
    by (symmetry; apply andb_true_iff; lia).
  by destruct (needed q).
Qed.

(** ... and one that it does not. *)
Lemma utf8_decode_reject q b bs :
  ~ (lower q <= b <= upper q) -> REPLACEMENT ∈ utf8_decode (Some q) (b :: bs).
Proof.
  intros Hb. rewrite utf8_decode_cons. unfold utf8_step.
  replace ((lower q <=? b) && (b <=? upper q)) with false
    by (symmetry; apply andb_false_iff; lia).
  destruct (utf8_lead b). simpl. by left.
Qed.

(** In a sequence, either a replacement is produced or the next byte is
    accepted. *)
Lemma utf8_decode_pending q bs :
  REPLACEMENT ∈ utf8_decode (Some q) bs \/
  exists b rest, bs = b :: rest /\ lower q <= b <= upper q.
Proof.
  destruct bs as [|b rest]; [left; by left|].
  destruct (decide (lower q <= b <= upper q)); [right; eauto|].
  left. by apply utf8_decode_reject.
Qed.

Lemma valid_utf8_cons b1 r1 :
  valid_utf8 (b1 :: r1) =
  if (0 <=? b1) && (b1 <=? 0x7F) then valid_utf8 r1
  else if (0xC2 <=? b1) && (b1 <=? 0xDF) then
    match r1 with
    | b2 :: r2 => continuation b2 && valid_utf8 r2
    | _ => false
    end
  else if (0xE0 <=? b1) && (b1 <=? 0xEF) then
    match r1 with
    | b2 :: b3 :: r3 =>
        ((if b1 =? 0xE0 then 0xA0 else 0x80) <=? b2) &&
        (b2 <=? (if b1 =? 0xED then 0x9F else 0xBF)) &&
        continuation b3 && valid_utf8 r3
    | _ => false
    end
  else if (0xF0 <=? b1) && (b1 <=? 0xF4) then
    match r1 with
    | b2 :: b3 :: b4 :: r4 =>
        ((if b1 =? 0xF0 then 0x90 else 0x80) <=? b2) &&
        (b2 <=? (if b1 =? 0xF4 then 0x8F else 0xBF)) &&
        continuation b3 && continuation b4 && valid_utf8 r4
    | _ => false
    end
  else false.
Proof. reflexivity. Qed.

Lemma continuation_spec b : continuation b = true <-> 0x80 <= b <= 0xBF.
Proof. unfold continuation. rewrite andb_true_iff. lia. Qed.

Lemma invalid_utf8_replaced n : forall bs,
  (length bs <= n)%nat -> Forall (fun b => 0 <= b) bs -> valid_utf8 bs = false ->
  REPLACEMENT ∈ utf8_decode None bs.
Proof.
  induction n as [|n IH]; intros [|b1 r1] Hn Hb Hv; simpl in Hn; try done; try lia.
  apply Forall_cons in Hb as [Hb1 Hb].
  assert (forall c r, (length r <= n)%nat -> Forall (fun b => 0 <= b) r ->
            valid_utf8 r = false -> REPLACEMENT ∈ c :: utf8_decode None r) as Hnext.
  { intros c r ? ? ?. right. by apply IH. }
  rewrite valid_utf8_cons in Hv. rewrite utf8_decode_cons. cbn [utf8_step]. unfold utf8_lead.
  destruct (decide (b1 <= 0x7F)).
  { replace ((0 <=? b1) && (b1 <=? 0x7F)) with true in Hv by lia.
    replace (b1 <=? 0x7F) with true by lia.
    apply (Hnext b1 r1); [lia | done | done]. }
  replace ((0 <=? b1) && (b1 <=? 0x7F)) with false in Hv by lia.
  replace (b1 <=? 0x7F) with false by lia.
  destruct ((0xC2 <=? b1) && (b1 <=? 0xDF)) eqn:H2.
  { cbn [fst snd app].
    destruct (utf8_decode_pending (Pending (b1 - 0xC0) 0 0x80 0xBF) r1)
      as [|(b2 & r2 & -> & Hb2)]; [done|].
    rewrite utf8_decode_continue by done. cbn [needed cp lower upper] in *.
    apply Forall_cons in Hb as [_ Hb].
    replace (continuation b2) with true in Hv by (unfold continuation; lia).
    apply Hnext; [simpl in Hn; lia | done | done]. }
  destruct ((0xE0 <=? b1) && (b1 <=? 0xEF)) eqn:H3.
  { cbn [fst snd app].
    destruct (utf8_decode_pending (Pending (b1 - 0xE0) 1
                (if b1 =? 0xE0 then 0xA0 else 0x80)
                (if b1 =? 0xED then 0x9F else 0xBF)) r1)
      as [|(b2 & r2 & -> & Hb2)]; [done|].
    rewrite utf8_decode_continue by done. cbn [needed cp lower upper] in *.
    destruct (utf8_decode_pending
                (Pending ((b1 - 0xE0) * 64 + (b2 - 0x80)) 0 0x80 0xBF) r2)
      as [|(b3 & r3 & -> & Hb3)]; [done|].
    rewrite utf8_decode_continue by done. cbn [needed cp lower upper] in *.
    apply Forall_cons in Hb as [_ Hb]. apply Forall_cons in Hb as [_ Hb].
    replace (continuation b3) with true in Hv by (unfold continuation; lia).
    replace (((if b1 =? 0xE0 then 0xA0 else 0x80) <=? b2) &&
             (b2 <=? (if b1 =? 0xED then 0x9F else 0xBF))) with true in Hv
      by lia.
    apply Hnext; [simpl in Hn; lia | done | done]. }
  destruct ((0xF0 <=? b1) && (b1 <=? 0xF4)) eqn:H4.
  { cbn [fst snd app].
    destruct (utf8_decode_pending (Pending (b1 - 0xF0) 2
                (if b1 =? 0xF0 then 0x90 else 0x80)
                (if b1 =? 0xF4 then 0x8F else 0xBF)) r1)
      as [|(b2 & r2 & -> & Hb2)]; [done|].
    rewrite utf8_decode_continue by done. cbn [needed cp lower upper] in *.
    destruct (utf8_decode_pending
                (Pending ((b1 - 0xF0) * 64 + (b2 - 0x80)) 1 0x80 0xBF) r2)
      as [|(b3 & r3 & -> & Hb3)]; [done|].
    rewrite utf8_decode_continue by done. cbn [needed cp lower upper] in *.
    destruct (utf8_decode_pending
                (Pending (((b1 - 0xF0) * 64 + (b2 - 0x80)) * 64 + (b3 - 0x80)) 0 0x80 0xBF) r3)
      as [|(b4 & r4 & -> & Hb4)]; [done|].
    rewrite utf8_decode_continue by done. cbn [needed cp lower upper] in *.
    do 3 apply Forall_cons in Hb as [_ Hb].
    replace (continuation b3) with true in Hv by (unfold continuation; lia).
    replace (continuation b4) with true in Hv by (unfold continuation; lia).
    replace (((if b1 =? 0xF0 then 0x90 else 0x80) <=? b2) &&
             (b2 <=? (if b1 =? 0xF4 then 0x8F else 0xBF))) with true in Hv
      by lia.
    apply Hnext; [simpl in Hn; lia | done | done]. }
  simpl. by left.
Qed.

(** The text decoded from a frame that is not valid UTF-8 contains U+FFFD. *)
Lemma decoder_end_replaces message :
  Forall (fun b => 0 <= b <= 255) message -> valid_utf8 message = false ->
  REPLACEMENT ∈ decoder_end message.
Proof.
  intros Hb Hv. unfold decoder_end. apply list_elem_of_In, in_flat_map.
  exists REPLACEMENT. split; [|by left]. apply list_elem_of_In.
  apply (invalid_utf8_replaced (length message)); [done | | done].
  eapply Forall_impl; [exact Hb|]. simpl. lia.
Qed.


Section Properties.

Context {setting : Setting}.

Example stringify_announce :
  JSON_stringify (VObj [(js "action", VStr (js "announce")); (js "interval", VNum (NInt 120));
                        (js "peers", VArr [VNull; VBool false; VNum (NInt (-7))])])
  = Some (jsq "{'action':'announce','interval':120,'peers':[null,false,-7]}").
Proof. reflexivity. Qed.

Example stringify_numbers :
  map Number_toString [NInt 0; NInt 9007199254740992; NDec 5 (-1); NDec (-125) (-2);
                       NDec 1 21; NDec 1 (-7); NDec 123456 (-3); NDec 1 (-6);
                       NDec 12 (-8); NDec 15 20; NDec 123 25;
                       NInt 1000000000000000000000; NInt 100000000000000000000]
  = [js "0"; js "9007199254740992"; js "0.5"; js "-1.25"; js "1e+21"; js "1e-7";
     js "123.456"; js "0.000001"; js "1.2e-7"; js "1.5e+21"; js "1.23e+27"; js "1e+21";
     js "100000000000000000000"].
Proof. reflexivity. Qed.

Example stringify_string :
  JSON_stringify (VStr [97; 34; 92; 10; 1; 0xD83D; 0xDE00; 0xD83D; 0xE9; 0xDE00; 47])
  = Some (jsq "'a\'\\\n\u0001" ++ [0xD83D; 0xDE00] ++ js "\ud83d" ++ [0xE9] ++ js "\ude00/" ++ [34]).
Proof. reflexivity. Qed.

Example stringify_undefined :
  map JSON_stringify [VUndefined; VArr [VUndefined; VNum NNaN];
                      VObj [(js "a", VUndefined); (js "b", VNum (NInf false))]]
  = [None; Some (js "[null,null]"); Some (jsq "{'b':null}")].
Proof. reflexivity. Qed.

Example parse_announce :
  JSON_parse (jsq "{'action': 'announce', 'numwant': 5, 'offers': [true, null]}")
  = Some (VObj [(js "action", VStr (js "announce")); (js "numwant", VNum (NInt 5));
                (js "offers", VArr [VBool true; VNull])]).
Proof. reflexivity. Qed.

Example parse_numbers :
  JSON_parse (js "[0, -0, 1.0, 1e2, 0.5, -12.50e-1, 9007199254740993, 1e400]")
  = Some (VArr [VNum (NInt 0); VNum NNegZero; VNum (NInt 1); VNum (NInt 100);
                VNum (NDec 5 (-1)); VNum (NDec (-125) (-2));
                VNum (NDec 9007199254740993 0); VNum (NDec 1 400)]).
Proof. reflexivity. Qed.

Example parse_key_order :
  JSON_parse (jsq "{'b':1,'2':2,'a':3,'1':4,'b':5}")
  = Some (VObj [(js "1", VNum (NInt 4)); (js "2", VNum (NInt 2));
                (js "b", VNum (NInt 5)); (js "a", VNum (NInt 3))]).
Proof. reflexivity. Qed.

Example parse_escapes :
  JSON_parse (jsq "'a\n\u00E9\ud83d\/'") = Some (VStr [97; 10; 0xE9; 0xD83D; 47]).
Proof. reflexivity. Qed.

Example parse_rejects :
  map JSON_parse [js ""; js "{"; jsq "{'a':"; js "[1,]"; js "01"; js "1."; js "nul";
                  jsq "{'a' 1}"; jsq "'abc"; js "[1] x"; js "tru"; jsq "{a:1}";
                  [0xFEFF; 49]; [34; 9; 34]; js "+1"; js ".5"; js "1e"; js "[,1]"]
  = [None; None; None; None; None; None; None; None; None; None; None; None; None;
     None; None; None; None; None].
Proof. reflexivity. Qed.

Example decode_ascii : decoder_end [0x7B; 0x7D] = js "{}".
Proof. reflexivity. Qed.

Example decode_euro : decoder_end [0xE2; 0x82; 0xAC] = [0x20AC].
Proof. reflexivity. Qed.

Example decode_astral : decoder_end [0xF0; 0x9F; 0x98; 0x80] = [0xD83D; 0xDE00].
Proof. reflexivity. Qed.

Example decode_malformed : decoder_end [0x22; 0xFF; 0x22] = [0x22; 0xFFFD; 0x22].
Proof. reflexivity. Qed.

Example decode_truncated : decoder_end [0x61; 0xE2; 0x82] = [0x61; 0xFFFD].
Proof. reflexivity. Qed.

Example decode_overlong : decoder_end [0xC0; 0xAF] = [0xFFFD; 0xFFFD].
Proof. reflexivity. Qed.

Example encode_astral : utf8_encode [0xD83D; 0xDE00] = [0xF0; 0x9F; 0x98; 0x80].
Proof. reflexivity. Qed.

(** ** The handlers, one step at a time *)

Ltac munfold :=
  cbv beta iota delta
    [bindM gets modify ret throw record try_catch access ws_send ws_close
     onClose open drain createPeer resolve tracker_disconnectPeer
     tracker_processMessage sendMessage PeerContext_sendMessage
     set_webSocketsCount set_peer set_contexts set_readyState set_tracker
     webSocketsCount peer contexts readyState tracker trace].

Lemma frame_refl g : frame g g.
Proof.
  repeat split; exists []; split; [by rewrite app_nil_r | constructor].
Qed.

Lemma frame_trans g1 g2 g3 : frame g1 g2 -> frame g2 g3 -> frame g1 g3.
Proof.
  intros (? & ? & ? & ? & l & Hl & Fl) (? & ? & ? & ? & l' & Hl' & Fl').
  repeat split; try congruence.
  exists (l ++ l'); split; [rewrite Hl', Hl; by rewrite app_assoc |].
  by apply Forall_app.
Qed.

Lemma sendMessage_frame ws json g : frame g (snd (sendMessage ws json g)).
Proof.
  destruct g as [n pe cx rs t tr]; munfold; simpl.
  assert (Forall is_send [ws_send_call ws (JSON_stringify json)])
    by (repeat constructor).
  destruct (rs !! ws) as [[|]|]; try destruct invalid_access;
    destruct debugMessagesEnabled; simpl; try destruct (pe !! ws); simpl;
    repeat split; eauto.
Qed.

Lemma PeerContext_sendMessage_frame p json g :
  frame g (snd (PeerContext_sendMessage p json g)).
Proof.
  unfold PeerContext_sendMessage, bindM, gets; simpl.
  destruct (contexts g !! p); [apply sendMessage_frame | apply frame_refl].
Qed.

(** The tracker's own state apart, the tracker at work changes nothing but
    the list of frames handed to the transport. *)
Lemma run_frame m : forall g, frame g (snd (run m g)).
Proof.
  induction m as [t | t e | p json k IH]; intros g.
  - destruct g; repeat split; exists []; split; [by rewrite app_nil_r | constructor].
  - destruct g; repeat split; exists []; split; [by rewrite app_nil_r | constructor].
  - simpl. pose proof (PeerContext_sendMessage_frame p json g) as F.
    destruct (PeerContext_sendMessage p json g) as [[[]|e] g'];
      eapply frame_trans; eauto; apply IH.
Qed.

(** ** The invariants, step by step *)

Lemma open_connections_open rs ws :
  rs !! ws = None ->
  size (open_connections (<[ws := OPEN]> rs)) = S (size (open_connections rs)).
Proof.
  intros Hws. unfold open_connections.
  rewrite map_filter_insert_True by done.
  rewrite !size_dom. apply map_size_insert_None.
  apply map_lookup_filter_None. left. done.
Qed.

Lemma open_connections_close rs ws :
  rs !! ws = Some OPEN ->
  S (size (open_connections (<[ws := CLOSED]> rs))) = size (open_connections rs).
Proof.
  intros Hws. unfold open_connections.
  rewrite map_filter_insert_False by done.
  rewrite map_filter_delete, !size_dom.
  assert (filter (fun kv : conn * ready_state => kv.2 = OPEN) rs !! ws = Some OPEN) as Hf
    by (by apply map_lookup_filter_Some).
  rewrite map_size_delete, Hf.
  assert (size (filter (fun kv : conn * ready_state => kv.2 = OPEN) rs) <> 0%nat).
  { intros Hz. apply map_size_empty_inv in Hz. rewrite Hz in Hf. done. }
  lia.
Qed.

Lemma coherent_on_initial : coherent_on ∅ [] [].
Proof.
  split; [|split].
  - intros ws p H. by rewrite lookup_empty in H.
  - constructor.
  - intros p H. by apply elem_of_nil in H.
Qed.

Lemma coherent_on_detach pe cx ds ws p :
  coherent_on pe cx ds -> pe !! ws = Some p ->
  coherent_on (delete ws pe) cx (ds ++ [p]).
Proof.
  intros (Hpe & Hnd & Hlt) Hws. destruct (Hpe _ _ Hws) as [Hcx Hp].
  split; [|split].
  - intros ws' p' H. apply lookup_delete_Some in H as [Hne H].
    destruct (Hpe _ _ H) as [Hcx' Hp']. split; [done|].
    rewrite elem_of_app, list_elem_of_singleton. intros [?| ->]; [done|].
    congruence.
  - apply NoDup_app. split; [done|]. split; [|apply NoDup_singleton].
    intros x Hx ->%list_elem_of_singleton. done.
  - intros q [Hq| ->%list_elem_of_singleton]%elem_of_app; [auto|].
    by eapply lookup_lt_Some.
Qed.

Lemma coherent_on_attach pe cx ds ws :
  coherent_on pe cx ds -> pe !! ws = None ->
  coherent_on (<[ws := length cx]> pe) (cx ++ [ws]) ds.
Proof.
  intros (Hpe & Hnd & Hlt) Hws. split; [|split; [done|]].
  - intros ws' p' H. apply lookup_insert_Some in H as [[<- <-]|[Hne H]].
    + split; [by rewrite list_lookup_middle|].
      intros Hin. apply Hlt in Hin. lia.
    + destruct (Hpe _ _ H). split; [|done]. by apply lookup_app_l_Some.
  - intros p Hp. rewrite length_app. apply Hlt in Hp. simpl. lia.
Qed.

Lemma orderly_on_initial : orderly_on 0 ∅ [] ∅ [].
Proof.
  split; [|split].
  - unfold open_connections. by rewrite map_filter_empty, dom_empty_L, size_empty.
  - constructor.
  - intros p ws H. by rewrite lookup_nil in H.
Qed.

Lemma orderly_on_open n pe cx rs ds ws :
  orderly_on n pe cx rs ds -> rs !! ws = None ->
  orderly_on (n + 1) pe cx (<[ws := OPEN]> rs) ds.
Proof.
  intros (Hn & Hnd & Hcx) Hws. split; [|split; [done|]].
  - rewrite open_connections_open by done. lia.
  - intros p ws' H. assert (ws' <> ws).
    { intros ->. destruct (Hcx _ _ H) as [[? _]|[? _]]; congruence. }
    rewrite lookup_insert_ne by done. auto.
Qed.

Lemma orderly_on_close n pe cx rs ds ws :
  orderly_on n pe cx rs ds -> coherent_on pe cx ds -> rs !! ws = Some OPEN ->
  orderly_on (n - 1)
    (match pe !! ws with Some _ => delete ws pe | None => pe end) cx
    (<[ws := CLOSED]> rs)
    (match pe !! ws with Some p => ds ++ [p] | None => ds end).
Proof.
  intros (Hn & Hnd & Hcx) (Hpe & _ & _) Hws. split; [|split; [done|]].
  - pose proof (open_connections_close _ _ Hws). lia.
  - intros p ws' H. destruct (decide (ws' = ws)) as [->|Hne].
    + right. rewrite lookup_insert_eq. split; [done|].
      destruct (Hcx _ _ H) as [[_ Hp]|[? _]]; [|congruence].
      rewrite Hp. rewrite elem_of_app, list_elem_of_singleton. auto.
    + rewrite lookup_insert_ne by done.
      destruct (Hcx _ _ H) as [[? Hp]|[? Hp]]; [left|right]; split; try done.
      * destruct (pe !! ws); [by rewrite lookup_delete_ne|done].
      * destruct (pe !! ws); [|done]. rewrite elem_of_app. auto.
Qed.

Lemma orderly_on_attach n pe cx rs ds ws :
  orderly_on n pe cx rs ds -> rs !! ws = Some OPEN -> pe !! ws = None ->
  orderly_on n (<[ws := length cx]> pe) (cx ++ [ws]) rs ds.
Proof.
  intros (Hn & Hnd & Hcx) Hws Hpe.
  assert (ws ∉ cx) as Hfresh.
  { intros (p & Hp)%list_elem_of_lookup.
    destruct (Hcx _ _ Hp) as [[_ ?]|[? _]]; congruence. }
  split; [done|split].
  - apply NoDup_app. split; [done|]. split; [|apply NoDup_singleton].
    intros x Hx ->%list_elem_of_singleton. done.
  - intros p ws' H. apply lookup_app_Some in H as [H|[Hle H]].
    + assert (ws' <> ws) by (intros ->; apply Hfresh; by eapply list_elem_of_lookup_2).
      rewrite lookup_insert_ne by done. auto.
    + apply list_lookup_singleton_Some in H as [Hp <-].
      left. split; [done|]. assert (p = length cx) as -> by lia.
      by rewrite lookup_insert_eq.
Qed.

Lemma accounted_on_initial : accounted_on [] [] [].
Proof.
  split; [|split].
  - intros p ws H. by rewrite lookup_nil in H.
  - intros ws (m & json & [] & _).
  - intros json p H. by apply elem_of_nil in H.
Qed.

Lemma decoded_snoc ws events e :
  decoded ws (events ++ [e]) <->
  decoded ws events \/
  exists message json,
    e = Message ws message /\ JSON_parse (decoder_end message) = Some json.
Proof.
  unfold decoded. split.
  - intros (m & json & Hin & Hp). apply in_app_or in Hin as [Hin|[Heq|[]]]; eauto 6.
  - intros [(m & json & Hin & Hp)|(m & json & -> & Hp)]; exists m, json;
      (split; [apply in_or_app; simpl; auto | done]).
Qed.

(** An event that decodes no message leaves the account as it is. *)
Lemma accounted_on_other events e cx calls :
  accounted_on events cx calls ->
  (forall ws message, e = Message ws message ->
     JSON_parse (decoder_end message) = None) ->
  accounted_on (events ++ [e]) cx calls.
Proof.
  intros (H1 & H2 & H3) He. split; [|split].
  - intros p ws H. apply decoded_snoc. left. eauto.
  - intros ws [H|(m & json & -> & Hp)]%decoded_snoc; [eauto|].
    rewrite (He _ _ eq_refl) in Hp. done.
  - intros json p H. destruct (H3 _ _ H) as (ws & m & Hin & Hp & Hcx).
    exists ws, m. split; [apply in_or_app; auto | done].
Qed.

(** A decoded message is dispatched with a context of its connection; [cx']
    is the heap after the resolution, [cx] or [cx] with one more context. *)
Lemma accounted_on_message events cx cx' calls ws message json p :
  accounted_on events cx calls ->
  JSON_parse (decoder_end message) = Some json ->
  cx' !! p = Some ws ->
  (cx' = cx \/ cx' = cx ++ [ws]) ->
  accounted_on (events ++ [Message ws message]) cx' (calls ++ [(json, p)]).
Proof.
  intros (H1 & H2 & H3) Hp Hcx Hext.
  assert (forall q w, cx !! q = Some w -> cx' !! q = Some w) as Hmono.
  { intros q w Hq. destruct Hext as [->| ->]; [done | by apply lookup_app_l_Some]. }
  split; [|split].
  - intros q w Hq. apply decoded_snoc.
    destruct Hext as [->| ->]; [left; eauto|].
    apply lookup_app_Some in Hq as [Hq|[_ Hq]]; [left; eauto|].
    apply list_lookup_singleton_Some in Hq as [_ <-]. right. eauto.
  - intros w [H|(m & j & [= <- <-] & _)]%decoded_snoc; [|eauto].
    destruct (H2 _ H) as (q & Hq). eauto.
  - intros j q [H| [= -> ->]%list_elem_of_singleton]%elem_of_app.
    + destruct (H3 _ _ H) as (w & m & Hin & Hpm & Hq).
      exists w, m. split; [apply in_or_app; auto | auto].
    + exists ws, message. split; [apply in_or_app; simpl; auto | auto].
Qed.

(** *** What each handler does to the state *)

Lemma disconnects_of_app a b :
  disconnects_of (a ++ b) = disconnects_of a ++ disconnects_of b.
Proof. apply omap_app. Qed.

Lemma calls_of_app a b : calls_of (a ++ b) = calls_of a ++ calls_of b.
Proof. apply omap_app. Qed.

Lemma sends_silent l :
  Forall is_send l -> disconnects_of l = [] /\ calls_of l = [].
Proof. induction 1 as [|[] ? ? ? [IH1 IH2]]; simpl in *; done. Qed.

Lemma closes_silent ws l :
  Forall (fun c => c = ws_close_call ws) l -> disconnects_of l = [] /\ calls_of l = [].
Proof. induction 1 as [|? ? -> ? [IH1 IH2]]; simpl in *; done. Qed.

Lemma frame_disconnects g g' : frame g g' -> disconnects g' = disconnects g.
Proof.
  intros (_ & _ & _ & _ & l & Hl & Fl). unfold disconnects.
  rewrite Hl, disconnects_of_app. destruct (sends_silent _ Fl) as [-> _].
  apply app_nil_r.
Qed.

Lemma frame_calls g g' : frame g g' -> processMessage_calls g' = processMessage_calls g.
Proof.
  intros (_ & _ & _ & _ & l & Hl & Fl). unfold processMessage_calls.
  rewrite Hl, calls_of_app. destruct (sends_silent _ Fl) as [_ ->].
  apply app_nil_r.
Qed.

Lemma frame_coherent g g' : frame g g' -> coherent g -> coherent g'.
Proof.
  intros F. unfold coherent. rewrite (frame_disconnects _ _ F).
  destruct F as (_ & -> & -> & _). done.
Qed.

Lemma frame_orderly g g' : frame g g' -> orderly g -> orderly g'.
Proof.
  intros F. unfold orderly. rewrite (frame_disconnects _ _ F).
  destruct F as (-> & -> & -> & -> & _). done.
Qed.

Lemma frame_accounted events g g' : frame g g' -> accounted events g -> accounted events g'.
Proof.
  intros F. unfold accounted. rewrite (frame_calls _ _ F).
  destruct F as (_ & _ & -> & _). done.
Qed.

Lemma onClose_eq ws g :
  onClose ws g =
  (Normal tt,
   match peer g !! ws with
   | Some p =>
       mkGateway (webSocketsCount g - 1) (delete ws (peer g)) (contexts g)
         (readyState g) (disconnectPeer p (tracker g))
         (trace g ++ [disconnectPeer_call p])
   | None => set_webSocketsCount (webSocketsCount g - 1) g
   end).
Proof. destruct g as [n pe cx rs t tr]; munfold; simpl. by destruct (pe !! ws). Qed.

Lemma ws_close_eq ws g :
  readyState g !! ws <> Some CLOSED ->
  ws_close ws g =
  onClose ws (mkGateway (webSocketsCount g) (peer g) (contexts g)
                (<[ws := CLOSED]> (readyState g)) (tracker g)
                (trace g ++ [ws_close_call ws])).
Proof.
  intros Hws. rewrite onClose_eq.
  destruct g as [n pe cx rs t tr]; munfold; simpl in *.
  destruct (rs !! ws) as [[]|]; try done; by destruct (pe !! ws).
Qed.

(** The [close] handler, on a connection the transport has just marked
    closed; [l] is what was recorded in between ([ws.close()], or nothing). *)
Lemma closing_coherent ws g rs l :
  coherent g -> Forall (fun c => c = ws_close_call ws) l ->
  coherent (snd (onClose ws
    (mkGateway (webSocketsCount g) (peer g) (contexts g) rs (tracker g) (trace g ++ l)))).
Proof.
  intros Hc Hl. rewrite onClose_eq. destruct g as [n pe cx rs0 t tr]; simpl in *.
  destruct (closes_silent _ _ Hl) as [Hd _].
  unfold coherent, disconnects in *; simpl in *.
  destruct (pe !! ws) as [p|] eqn:Hp; simpl;
    rewrite !disconnects_of_app, Hd, app_nil_r; [|done].
  by apply coherent_on_detach.
Qed.

Lemma closing_orderly ws g l :
  orderly g -> coherent g -> readyState g !! ws = Some OPEN ->
  Forall (fun c => c = ws_close_call ws) l ->
  orderly (snd (onClose ws
    (mkGateway (webSocketsCount g) (peer g) (contexts g)
       (<[ws := CLOSED]> (readyState g)) (tracker g) (trace g ++ l)))).
Proof.
  intros Ho Hc Hws Hl. rewrite onClose_eq. destruct g as [n pe cx rs t tr]; simpl in *.
  destruct (closes_silent _ _ Hl) as [Hd _].
  unfold orderly, coherent, disconnects in *; simpl in *.
  pose proof (orderly_on_close _ _ _ _ _ _ Ho Hc Hws) as H.
  destruct (pe !! ws) as [p|] eqn:Hp; simpl;
    rewrite !disconnects_of_app, Hd, app_nil_r; done.
Qed.

Lemma closing_accounted events ws g rs l :
  accounted events g -> Forall (fun c => c = ws_close_call ws) l ->
  accounted events (snd (onClose ws
    (mkGateway (webSocketsCount g) (peer g) (contexts g) rs (tracker g) (trace g ++ l)))).
Proof.
  intros Ha Hl. rewrite onClose_eq. destruct g as [n pe cx rs0 t tr]; simpl in *.
  destruct (closes_silent _ _ Hl) as [_ Hd].
  unfold accounted, processMessage_calls in *; simpl in *.
  destruct (pe !! ws) as [p|] eqn:Hp; simpl;
    rewrite !calls_of_app, Hd, ?app_nil_r; done.
Qed.

Lemma ws_close_closed ws g :
  readyState g !! ws = Some CLOSED ->
  ws_close ws g =
  (match invalid_access with Some e => Throws e | None => Normal tt end,
   mkGateway (webSocketsCount g) (peer g) (contexts g) (readyState g) (tracker g)
     (trace g ++ [ws_close_call ws])).
Proof.
  intros Hws. destruct g as [n pe cx rs t tr]; munfold; simpl in *.
  rewrite Hws. by destruct invalid_access.
Qed.

Lemma ws_close_coherent ws g : coherent g -> coherent (snd (ws_close ws g)).
Proof.
  intros Hc. destruct (decide (readyState g !! ws = Some CLOSED)) as [Hws|Hws].
  - rewrite ws_close_closed by done. simpl.
    unfold coherent, disconnects in *; simpl.
    by rewrite disconnects_of_app, app_nil_r.
  - rewrite ws_close_eq by done. apply closing_coherent; [done|]. by repeat constructor.
Qed.

Lemma ws_close_accounted events ws g :
  accounted events g -> accounted events (snd (ws_close ws g)).
Proof.
  intros Hc. destruct (decide (readyState g !! ws = Some CLOSED)) as [Hws|Hws].
  - rewrite ws_close_closed by done. simpl.
    unfold accounted, processMessage_calls in *; simpl.
    by rewrite calls_of_app, app_nil_r.
  - rewrite ws_close_eq by done. apply closing_accounted; [done|]. by repeat constructor.
Qed.

Lemma ws_close_orderly ws g :
  orderly g -> coherent g -> readyState g !! ws = Some OPEN ->
  orderly (snd (ws_close ws g)).
Proof.
  intros Ho Hc Hws. rewrite ws_close_eq by congruence.
  apply closing_orderly; try done. by repeat constructor.
Qed.

Lemma resolve_eq ws g :
  resolve ws g =
  match peer g !! ws with
  | Some p => (Normal p, g)
  | None =>
      (Normal (length (contexts g)),
       mkGateway (webSocketsCount g) (<[ws := length (contexts g)]> (peer g))
         (contexts g ++ [ws]) (readyState g) (tracker g) (trace g))
  end.
Proof. destruct g as [n pe cx rs t tr]; munfold; simpl. by destruct (pe !! ws). Qed.

(** The resolution never throws, and leaves the context it returns attached
    to [ws]. *)
Lemma resolve_attached ws g :
  coherent g ->
  exists p g1,
    resolve ws g = (Normal p, g1) /\ peer g1 !! ws = Some p /\
    contexts g1 !! p = Some ws /\
    (contexts g1 = contexts g \/ contexts g1 = contexts g ++ [ws]) /\
    webSocketsCount g1 = webSocketsCount g /\ readyState g1 = readyState g /\
    trace g1 = trace g /\ tracker g1 = tracker g /\ coherent g1.
Proof.
  intros Hc. rewrite resolve_eq. destruct (peer g !! ws) as [p|] eqn:Hp.
  - exists p, g. pose proof Hc as (H & _). destruct (H _ _ Hp).
    split_and!; auto.
  - eexists _, _. split; [done|]. simpl. rewrite lookup_insert_eq, list_lookup_middle by done.
    split_and!; auto. by apply coherent_on_attach.
Qed.

Lemma resolve_orderly ws g p g1 :
  orderly g -> readyState g !! ws = Some OPEN ->
  resolve ws g = (Normal p, g1) -> orderly g1.
Proof.
  intros Ho Hws. rewrite resolve_eq. destruct (peer g !! ws) as [q|] eqn:Hp.
  - by intros [= <- <-].
  - intros [= <- <-]. by apply orderly_on_attach.
Qed.

(** A call of [processMessage]: the call is recorded, then the tracker runs. *)
Lemma tracker_processMessage_frame json p g :
  frame (mkGateway (webSocketsCount g) (peer g) (contexts g) (readyState g) (tracker g)
           (trace g ++ [processMessage_call json p]))
        (snd (tracker_processMessage json p g)).
Proof. destruct g as [n pe cx rs t tr]. apply run_frame. Qed.

Lemma tracker_processMessage_trace json p g :
  exists l,
    trace (snd (tracker_processMessage json p g))
    = trace g ++ processMessage_call json p :: l /\ Forall is_send l.
Proof.
  destruct (tracker_processMessage_frame json p g) as (_ & _ & _ & _ & l & Hl & Fl).
  exists l. simpl in Hl. by rewrite Hl, <- app_assoc.
Qed.

Lemma tracker_processMessage_coherent json p g :
  coherent g -> coherent (snd (tracker_processMessage json p g)).
Proof.
  intros Hc. eapply frame_coherent; [apply tracker_processMessage_frame|].
  unfold coherent, disconnects in *; simpl. by rewrite disconnects_of_app, app_nil_r.
Qed.

Lemma tracker_processMessage_orderly json p g :
  orderly g -> orderly (snd (tracker_processMessage json p g)).
Proof.
  intros Hc. eapply frame_orderly; [apply tracker_processMessage_frame|].
  unfold orderly, disconnects in *; simpl. by rewrite disconnects_of_app, app_nil_r.
Qed.

(** [onMessage] on a frame that decodes: the context is resolved, the
    tracker is called, and the completion of that call decides the rest. *)
Lemma onMessage_decoded ws message json g :
  JSON_parse (decoder_end message) = Some json ->
  onMessage ws message g =
  match resolve ws g with
  | (Normal p, g1) =>
      match tracker_processMessage json p g1 with
      | (Normal _, g2) => (Normal tt, g2)
      | (Throws e, g2) =>
          if instanceof_TrackerError e then ws_close ws g2 else (Throws e, g2)
      end
  | (Throws e, g1) => (Throws e, g1)
  end.
Proof.
  intros Hp. unfold onMessage. rewrite Hp. unfold bindM at 1.
  destruct (resolve ws g) as [[p|e] g1]; [|done].
  unfold try_catch. destruct (tracker_processMessage json p g1) as [[[]|e] g2]; [done|].
  by destruct (instanceof_TrackerError e).
Qed.

Lemma onMessage_malformed ws message g :
  JSON_parse (decoder_end message) = None ->
  onMessage ws message g = ws_close ws g.
Proof. intros Hp. unfold onMessage. by rewrite Hp. Qed.

Lemma onMessage_coherent ws message g :
  coherent g -> coherent (snd (onMessage ws message g)).
Proof.
  intros Hc. destruct (JSON_parse (decoder_end message)) as [json|] eqn:Hp.
  - rewrite (onMessage_decoded _ _ _ _ Hp).
    destruct (resolve_attached ws g Hc) as (p & g1 & -> & _ & _ & _ & _ & _ & _ & _ & Hc1).
    pose proof (tracker_processMessage_coherent json p g1 Hc1) as Hc2.
    destruct (tracker_processMessage json p g1) as [[[]|e] g2]; [done|].
    destruct (instanceof_TrackerError e); [by apply ws_close_coherent | done].
  - rewrite onMessage_malformed by done. by apply ws_close_coherent.
Qed.

Lemma onMessage_orderly ws message g :
  coherent g -> orderly g -> readyState g !! ws = Some OPEN ->
  orderly (snd (onMessage ws message g)).
Proof.
  intros Hc Ho Hws. destruct (JSON_parse (decoder_end message)) as [json|] eqn:Hp.
  - rewrite (onMessage_decoded _ _ _ _ Hp).
    destruct (resolve_attached ws g Hc)
      as (p & g1 & Hr & _ & _ & _ & _ & Hrs & _ & _ & Hc1).
    pose proof (resolve_orderly _ _ _ _ Ho Hws Hr) as Ho1. rewrite Hr.
    pose proof (tracker_processMessage_coherent json p g1 Hc1) as Hc2.
    pose proof (tracker_processMessage_orderly json p g1 Ho1) as Ho2.
    destruct (tracker_processMessage_frame json p g1) as (_ & _ & _ & Hrs2 & _).
    destruct (tracker_processMessage json p g1) as [[[]|e] g2]; [done|].
    destruct (instanceof_TrackerError e); [|done].
    apply ws_close_orderly; try done. simpl in *. congruence.
  - rewrite onMessage_malformed by done. by apply ws_close_orderly.
Qed.

Lemma onMessage_accounted events ws message g :
  coherent g -> accounted events g ->
  accounted (events ++ [Message ws message]) (snd (onMessage ws message g)).
Proof.
  intros Hc Ha. destruct (JSON_parse (decoder_end message)) as [json|] eqn:Hp.
  - rewrite (onMessage_decoded _ _ _ _ Hp).
    destruct (resolve_attached ws g Hc)
      as (p & g1 & -> & _ & Hcx & Hext & _ & _ & Htr & _ & Hc1).
    assert (accounted (events ++ [Message ws message])
              (snd (tracker_processMessage json p g1))) as Ha2.
    { eapply frame_accounted; [apply tracker_processMessage_frame|].
      unfold accounted, processMessage_calls in *; simpl. rewrite calls_of_app. simpl.
      rewrite Htr. eapply accounted_on_message; eauto. }
    destruct (tracker_processMessage json p g1) as [[[]|e] g2]; [done|].
    destruct (instanceof_TrackerError e); [by apply ws_close_accounted | done].
  - rewrite onMessage_malformed by done. apply ws_close_accounted.
    apply accounted_on_other; [done|]. intros ? ? [= <- <-]. done.
Qed.

(** *** Every event keeps the invariants *)

Lemma after_Close_eq ws g :
  after (Close ws) g =
  snd (onClose ws (mkGateway (webSocketsCount g) (peer g) (contexts g)
                     (<[ws := CLOSED]> (readyState g)) (tracker g) (trace g ++ []))).
Proof. rewrite app_nil_r. by destruct g. Qed.

Lemma after_Open_eq ws g :
  after (Open ws) g =
  mkGateway (webSocketsCount g + 1) (peer g) (contexts g)
    (<[ws := OPEN]> (readyState g)) (tracker g) (trace g).
Proof. by destruct g. Qed.

Lemma after_Drain_eq ws g : after (Drain ws) g = g.
Proof.
  destruct g as [n pe cx rs t tr]. unfold after; simpl; munfold; simpl.
  destruct (rs !! ws) as [[]|]; try done. by destruct invalid_access.
Qed.

Lemma after_Send_frame p json g : frame g (after (Send p json) g).
Proof. apply PeerContext_sendMessage_frame. Qed.

Lemma after_coherent e g : coherent g -> coherent (after e g).
Proof.
  intros Hc. destruct e as [ws|ws m|ws|ws|p json].
  - by rewrite after_Open_eq.
  - by apply onMessage_coherent.
  - by rewrite after_Drain_eq.
  - rewrite after_Close_eq. by apply closing_coherent.
  - eapply frame_coherent; [apply after_Send_frame | done].
Qed.

Lemma after_orderly e g :
  coherent g -> orderly g -> admissible e g -> orderly (after e g).
Proof.
  intros Hc Ho Ha. destruct e as [ws|ws m|ws|ws|p json]; simpl in Ha.
  - rewrite after_Open_eq. by apply orderly_on_open.
  - by apply onMessage_orderly.
  - by rewrite after_Drain_eq.
  - rewrite after_Close_eq. by apply closing_orderly.
  - eapply frame_orderly; [apply after_Send_frame | done].
Qed.

Lemma after_accounted events e g :
  coherent g -> accounted events g -> accounted (events ++ [e]) (after e g).
Proof.
  intros Hc Ha. destruct e as [ws|ws m|ws|ws|p json].
  - rewrite after_Open_eq. by apply accounted_on_other.
  - by apply onMessage_accounted.
  - rewrite after_Drain_eq. by apply accounted_on_other.
  - rewrite after_Close_eq. apply closing_accounted; [|done]. by apply accounted_on_other.
  - eapply frame_accounted; [apply after_Send_frame |]. by apply accounted_on_other.
Qed.

Lemma exec_snoc events e g : exec (events ++ [e]) g = after e (exec events g).
Proof. unfold exec. by rewrite fold_left_app. Qed.

Lemma disciplined_snoc events e g :
  disciplined (events ++ [e]) g <->
  disciplined events g /\ admissible e (exec events g).
Proof.
  revert g. induction events as [|e' events IH]; intros g; simpl.
  - tauto.
  - rewrite IH. unfold exec. simpl. tauto.
Qed.

(** Whatever the events and their order. *)
Lemma exec_coherent events t :
  coherent (exec events (initial t)) /\ accounted events (exec events (initial t)).
Proof.
  induction events as [|e events [IHc IHa]] using rev_ind.
  - split; [apply coherent_on_initial | apply accounted_on_initial].
  - rewrite exec_snoc. split; [by apply after_coherent | by apply after_accounted].
Qed.

(** Under the transport's discipline. *)
Lemma exec_orderly events t :
  disciplined events (initial t) -> orderly (exec events (initial t)).
Proof.
  induction events as [|e events IH] using rev_ind.
  - intros _. apply orderly_on_initial.
  - intros [Hd Ha]%disciplined_snoc. rewrite exec_snoc.
    apply after_orderly; auto. apply exec_coherent.
Qed.

Lemma disciplined_take events g n :
  disciplined events g -> disciplined (take n events) g.
Proof.
  revert events g. induction n as [|n IH]; intros [|e events] g; simpl; try done.
  intros [Ha Hd]. split; [done|]. by apply IH.
Qed.

(** ** The claims *)

(** C1, as amended: for every sequence of events that keeps the transport's
    discipline (a connection is opened once, and frames and the close signal
    come only while it is open, so that no connection is signalled closed
    twice), at every observation point between two events the counter given
    by [stats] is the number of connections opened and not yet closed, and
    it is never negative. *)
Theorem C1_counter_is_live_connections events t :
  disciplined events (initial t) ->
  forall n,
    let g := exec (take n events) (initial t) in
    stats g = Z.of_nat (size (live g)) /\ 0 <= stats g.
Proof.
  intros Hd n g.
  destruct (exec_orderly (take n events) t) as (Hn & _); [by apply disciplined_take|].
  fold g in Hn. unfold stats, live. rewrite Hn. split; [done | lia].
Qed.

(** [ws.close()] on an open connection. *)
Lemma ws_close_open ws g :
  readyState g !! ws = Some OPEN ->
  let r := ws_close ws g in
  fst r = Normal tt /\
  webSocketsCount (snd r) = webSocketsCount g - 1 /\
  peer (snd r) = delete ws (peer g) /\
  contexts (snd r) = contexts g /\
  readyState (snd r) = <[ws := CLOSED]> (readyState g) /\
  trace (snd r) = trace g ++ ws_close_call ws ::
                  match peer g !! ws with
                  | Some p => [disconnectPeer_call p]
                  | None => []
                  end.
Proof.
  intros Hws. simpl. rewrite ws_close_eq by congruence. rewrite onClose_eq. simpl.
  destruct (peer g !! ws) as [p|] eqn:Hp; simpl.
  - split_and!; try done. by rewrite <- app_assoc.
  - split_and!; try done. by rewrite delete_id.
Qed.

Lemma trace_grows e g : exists l, trace (after e g) = trace g ++ l.
Proof.
  destruct e as [ws|ws m|ws|ws|p json].
  - rewrite after_Open_eq. exists []. simpl. by rewrite app_nil_r.
  - change (after (Message ws m) g) with (snd (onMessage ws m g)).
    destruct (JSON_parse (decoder_end m)) as [json|] eqn:Hp.
    + rewrite (onMessage_decoded _ _ _ _ Hp), resolve_eq.
      assert (forall p g1, trace g1 = trace g ->
        exists l, trace (snd (
          match tracker_processMessage json p g1 with
          | (Normal _, g2) => (Normal tt, g2)
          | (Throws e, g2) =>
              if instanceof_TrackerError e then ws_close ws g2 else (Throws e, g2)
          end)) = trace g ++ l) as H.
      { intros p g1 H1. destruct (tracker_processMessage_trace json p g1) as (l & Hl & _).
        rewrite H1 in Hl.
        destruct (tracker_processMessage json p g1) as [[[]|e] g2]; simpl in *; eauto.
        destruct (instanceof_TrackerError e); simpl; eauto.
        destruct (decide (readyState g2 !! ws = Some CLOSED)).
        - rewrite ws_close_closed by done. simpl. rewrite Hl, <- app_assoc. eauto.
        - rewrite ws_close_eq, onClose_eq by done. simpl.
          destruct (peer g2 !! ws); simpl; rewrite Hl, <- ?app_assoc; eauto. }
      destruct (peer g !! ws); apply H; done.
    + rewrite onMessage_malformed by done.
      destruct (decide (readyState g !! ws = Some CLOSED)).
      * rewrite ws_close_closed by done. simpl. eauto.
      * rewrite ws_close_eq, onClose_eq by done. simpl.
        destruct (peer g !! ws); simpl; rewrite <- ?app_assoc; eauto.
  - rewrite after_Drain_eq. exists []. by rewrite app_nil_r.
  - rewrite after_Close_eq, onClose_eq. simpl.
    destruct (peer g !! ws); simpl; rewrite <- ?app_assoc; eauto.
  - destruct (after_Send_frame p json g) as (_ & _ & _ & _ & l & Hl & _). eauto.
Qed.

Lemma exec_app events more g : exec (events ++ more) g = exec more (exec events g).
Proof. unfold exec. by rewrite fold_left_app. Qed.

Lemma disconnects_grow events g p :
  p ∈ disconnects g -> p ∈ disconnects (exec events g).
Proof.
  induction events as [|e events IH] using rev_ind; [done|].
  intros Hp. rewrite exec_snoc. destruct (trace_grows e (exec events g)) as (l & Hl).
  unfold disconnects in *. rewrite Hl, disconnects_of_app, elem_of_app. auto.
Qed.

Lemma count_once (l : list nat) p :
  NoDup l -> p ∈ l -> length (filter (fun q => q = p) l) = 1%nat.
Proof.
  induction 1 as [|x l Hx Hnd IH]; [by intros ?%elem_of_nil|].
  rewrite filter_cons. intros [->|Hp]%elem_of_cons.
  - rewrite decide_True by done. simpl. f_equal.
    apply length_zero_iff_nil, elem_of_nil_inv.
    intros q [-> Hq]%list_elem_of_filter. done.
  - rewrite decide_False by (intros ->; done). auto.
Qed.

Lemma count_none (l : list nat) p :
  p ∉ l -> length (filter (fun q => q = p) l) = 0%nat.
Proof.
  intros Hp. apply length_zero_iff_nil, elem_of_nil_inv.
  intros q [-> Hq]%list_elem_of_filter. done.
Qed.

(** C4: in a state reached by any events whatever, closing a connection
    that has a context attached calls [disconnectPeer] once, with that
    context, which had not been disconnected before; whatever follows, that
    context is disconnected exactly once; and a second close signal for the
    connection calls [disconnectPeer] for nothing. *)
Theorem C4_disconnectPeer_exactly_once events t ws p :
  let g := exec events (initial t) in
  peer g !! ws = Some p ->
  let g1 := after (Close ws) g in
  count_disconnects p g = 0%nat /\
  disconnects g1 = disconnects g ++ [p] /\
  (forall more, count_disconnects p (exec more g1) = 1%nat) /\
  disconnects (after (Close ws) g1) = disconnects g1.
Proof.
  intros g Hp g1.
  destruct (exec_coherent events t) as [(Hpe & _) _]. fold g in Hpe.
  destruct (Hpe _ _ Hp) as [_ Hnot].
  assert (disconnects g1 = disconnects g ++ [p]) as H1.
  { unfold g1. rewrite after_Close_eq, onClose_eq. simpl. rewrite Hp.
    unfold disconnects. simpl. by rewrite app_nil_r, disconnects_of_app. }
  split_and!.
  - by apply count_none.
  - done.
  - intros more. apply count_once.
    + replace (exec more g1) with (exec (events ++ [Close ws] ++ more) (initial t)).
      * by destruct (exec_coherent (events ++ [Close ws] ++ more) t) as [(_ & ? & _) _].
      * by rewrite !exec_app.
    + apply disconnects_grow. rewrite H1, elem_of_app, list_elem_of_singleton. auto.
  - assert (peer g1 !! ws = None) as Hnone.
    { unfold g1. rewrite after_Close_eq, onClose_eq. simpl. rewrite Hp. simpl.
      apply lookup_delete_eq. }
    rewrite (after_Close_eq ws g1), onClose_eq. simpl. rewrite Hnone.
    unfold disconnects. simpl. by rewrite app_nil_r.
Qed.


(** C10: under the transport's discipline, once a connection is closed its
    context has been handed to [disconnectPeer] if and only if one of its
    frames was decoded to a message, whatever the tracker made of that
    message. *)
Theorem C10_disconnect_iff_decoded events t ws :
  disciplined events (initial t) ->
  let g := exec events (initial t) in
  readyState g !! ws = Some CLOSED ->
  (exists p, contexts g !! p = Some ws /\ p ∈ disconnects g) <-> decoded ws events.
Proof.
  intros Hd g Hws.
  destruct (exec_orderly events t Hd) as (_ & _ & Hcx).
  destruct (exec_coherent events t) as [_ (H1 & H2 & _)].
  fold g in Hcx, H1, H2. split.
  - intros (p & Hp & _). eauto.
  - intros (p & Hp)%H2. exists p. split; [done|].
    destruct (Hcx _ _ Hp) as [[? _]|[_ ?]]; [congruence | done].
Qed.

(** C6: a frame whose text is not a JSON document, on an open connection:
    the handler returns normally, [ws.close()] has been called and the
    connection is closed, and [processMessage] has not been called. *)
Theorem C6_malformed_document_closes ws message g :
  JSON_parse (decoder_end message) = None ->
  readyState g !! ws = Some OPEN ->
  let r := onMessage ws message g in
  fst r = Normal tt /\
  readyState (snd r) !! ws = Some CLOSED /\
  processMessage_calls (snd r) = processMessage_calls g /\
  exists l, trace (snd r) = trace g ++ ws_close_call ws :: l.
Proof.
  intros Hp Hws. simpl. rewrite onMessage_malformed by done.
  destruct (ws_close_open ws g Hws) as (Hr & _ & _ & _ & Hrs & Htr).
  split_and!; [done | by rewrite Hrs, lookup_insert_eq | | eauto].
  unfold processMessage_calls. rewrite Htr, calls_of_app. simpl.
  destruct (peer g !! ws); simpl; apply app_nil_r.
Qed.

(** C3: a decoded message, on an open connection, whose [processMessage]
    throws: on a [TrackerError] the handler returns normally and the
    connection is closed; on any other exception the handler throws that
    exception. *)
Theorem C3_error_containment ws message json g p g1 e g2 :
  JSON_parse (decoder_end message) = Some json ->
  readyState g !! ws = Some OPEN ->
  resolve ws g = (Normal p, g1) ->
  tracker_processMessage json p g1 = (Throws e, g2) ->
  let r := onMessage ws message g in
  if instanceof_TrackerError e
  then fst r = Normal tt /\ readyState (snd r) !! ws = Some CLOSED
  else fst r = Throws e.
Proof.
  intros Hp Hws Hr Ht. simpl. rewrite (onMessage_decoded _ _ _ _ Hp), Hr, Ht.
  destruct (instanceof_TrackerError e); [|done].
  assert (readyState g2 !! ws = Some OPEN) as Hws2.
  { pose proof (tracker_processMessage_frame json p g1) as (_ & _ & _ & Hrs & _).
    rewrite Ht in Hrs. simpl in Hrs. rewrite Hrs.
    rewrite resolve_eq in Hr. destruct (peer g !! ws); by injection Hr as <- <-. }
  destruct (ws_close_open ws g2 Hws2) as (H1 & _ & _ & _ & Hrs & _).
  split; [done|]. by rewrite Hrs, lookup_insert_eq.
Qed.

(** C9: a decoded message whose [processMessage] throws something that is
    not a [TrackerError]: the handler throws it again, [ws.close()] is not
    called, the connection is in the state it was in, the context is still
    attached and the counter is what it was. *)
Theorem C9_unexpected_error_keeps_connection ws message json g p g1 e g2 :
  JSON_parse (decoder_end message) = Some json ->
  resolve ws g = (Normal p, g1) ->
  tracker_processMessage json p g1 = (Throws e, g2) ->
  instanceof_TrackerError e = false ->
  onMessage ws message g = (Throws e, g2) /\
  webSocketsCount g2 = webSocketsCount g /\
  readyState g2 = readyState g /\
  peer g2 !! ws = Some p /\
  exists l, trace g2 = trace g ++ processMessage_call json p :: l /\ Forall is_send l.
Proof.
  intros Hp Hr Ht He. rewrite (onMessage_decoded _ _ _ _ Hp), Hr, Ht, He.
  pose proof (tracker_processMessage_frame json p g1) as (Hn & Hpe & _ & Hrs & _).
  destruct (tracker_processMessage_trace json p g1) as (l & Hl & Fl).
  rewrite Ht in Hn, Hpe, Hrs, Hl. simpl in *.
  rewrite resolve_eq in Hr.
  destruct (peer g !! ws) as [q|] eqn:Hq; injection Hr as <- <-; simpl in *.
  - split_and!; try done. { congruence. } eauto.
  - split_and!; try done. { rewrite Hpe. apply lookup_insert_eq. } eauto.
Qed.

(** C2, as amended: a frame that is not valid UTF-8, on an open connection.
    Decoding does not fail: the malformed sequences are replaced, so that the
    text contains U+FFFD, and the text is read as JSON.  If the text is not a
    JSON document the handler closes the connection and does not call
    [processMessage]; if it is one, [processMessage] is called, once, with
    the message read from it. *)
Theorem C2_malformed_utf8_is_replaced ws message g :
  Forall (fun b => 0 <= b <= 255) message ->
  valid_utf8 message = false ->
  readyState g !! ws = Some OPEN ->
  let r := onMessage ws message g in
  REPLACEMENT ∈ decoder_end message /\
  match JSON_parse (decoder_end message) with
  | None =>
      fst r = Normal tt /\ readyState (snd r) !! ws = Some CLOSED /\
      processMessage_calls (snd r) = processMessage_calls g
  | Some json =>
      exists p, processMessage_calls (snd r) = processMessage_calls g ++ [(json, p)]
  end.
Proof.
  intros Hb Hv Hws. simpl. split; [by apply decoder_end_replaces|].
  destruct (JSON_parse (decoder_end message)) as [json|] eqn:Hp.
  - rewrite (onMessage_decoded _ _ _ _ Hp), resolve_eq.
    assert (forall p g1, trace g1 = trace g ->
      processMessage_calls (snd (
        match tracker_processMessage json p g1 with
        | (Normal _, g2) => (Normal tt, g2)
        | (Throws e, g2) =>
            if instanceof_TrackerError e then ws_close ws g2 else (Throws e, g2)
        end)) = processMessage_calls g ++ [(json, p)]) as H.
    { intros p g1 H1.
      pose proof (frame_calls _ _ (tracker_processMessage_frame json p g1)) as Hc.
      unfold processMessage_calls in Hc at 2. simpl in Hc.
      rewrite calls_of_app, H1 in Hc. simpl in Hc.
      destruct (tracker_processMessage json p g1) as [[[]|e] g2]; simpl in *; [done|].
      destruct (instanceof_TrackerError e); [|done].
      destruct (decide (readyState g2 !! ws = Some CLOSED)).
      - rewrite ws_close_closed by done. unfold processMessage_calls in *. simpl.
        by rewrite calls_of_app, app_nil_r.
      - rewrite ws_close_eq, onClose_eq by done. unfold processMessage_calls in *. simpl.
        destruct (peer g2 !! ws); simpl; by rewrite !calls_of_app, ?app_nil_r. }
    destruct (peer g !! ws) as [p|]; eexists; by apply H.
  - rewrite onMessage_malformed by done.
    destruct (ws_close_open ws g Hws) as (Hr & _ & _ & _ & Hrs & Htr).
    split_and!; [done | by rewrite Hrs, lookup_insert_eq |].
    unfold processMessage_calls. rewrite Htr, calls_of_app. simpl.
    destruct (peer g !! ws); simpl; apply app_nil_r.
Qed.

(** C7, where the code departs from it: with the message diagnostics
    enabled, [sendMessage] on a context whose connection has closed throws.
    [ws.send] throws if the transport refuses the call; if it does not, the
    diagnostic line reads [ws.peer.id], and [onClose] has deleted [ws.peer]. *)
Theorem C7_sendMessage_after_close_throws g0 ws p json :
  debugMessagesEnabled = true ->
  contexts g0 !! p = Some ws ->
  let g := after (Close ws) g0 in
  contexts g !! p = Some ws /\
  exists e, fst (PeerContext_sendMessage p json g) = Throws e.
Proof.
  intros Hdbg Hp g.
  assert (contexts g = contexts g0 /\ peer g !! ws = None /\
          readyState g !! ws = Some CLOSED) as (Hcx & Hpe & Hrs).
  { unfold g. rewrite after_Close_eq, onClose_eq. simpl.
    destruct (peer g0 !! ws) eqn:H; simpl;
      rewrite ?lookup_delete_eq, lookup_insert_eq; auto. }
  split; [congruence|].
  unfold PeerContext_sendMessage, bindM, gets. rewrite Hcx, Hp.
  destruct g as [n pe cx rs t tr]; munfold; simpl in *. rewrite Hrs, Hdbg.
  destruct invalid_access; simpl; eauto. rewrite Hpe. eauto.
Qed.

(** ** Further properties of the handlers *)


(** What one event adds to the trace: for a frame that is decoded, the call
    of [processMessage] with the message, with a context that has not been
    disconnected, and then no other call of it; for anything else, no call
    of [processMessage]. *)
Lemma after_trace e g :
  coherent g ->
  exists l, trace (after e g) = trace g ++ l /\
    match message_of e with
    | Some json =>
        exists p l', l = processMessage_call json p :: l' /\ calls_of l' = [] /\
                     p ∉ disconnects g
    | None => calls_of l = []
    end.
Proof.
  intros Hc. destruct e as [ws|ws m|ws|ws|p json]; cbn [message_of].
  - rewrite after_Open_eq. exists []. simpl. by rewrite app_nil_r.
  - change (after (Message ws m) g) with (snd (onMessage ws m g)).
    destruct (JSON_parse (decoder_end m)) as [json|] eqn:Hp.
    + rewrite (onMessage_decoded _ _ _ _ Hp).
      destruct (resolve_attached ws g Hc) as (p & g1 & -> & Hpe & _ & _ & _ & _ & Ht & _ & Hc1).
      assert (p ∉ disconnects g) as Hnot.
      { destruct Hc1 as (H & _). destruct (H _ _ Hpe) as [_ Hn].
        unfold disconnects in *. by rewrite <- Ht. }
      destruct (tracker_processMessage_trace json p g1) as (l & Hl & Fl).
      rewrite Ht in Hl.
      assert (forall l2, calls_of l2 = [] ->
        exists l0, trace g ++ processMessage_call json p :: l ++ l2 = trace g ++ l0 /\
          exists p0 l', l0 = processMessage_call json p0 :: l' /\ calls_of l' = [] /\
                        p0 ∉ disconnects g) as H.
      { intros l2 H2. eexists. split; [done|]. eexists _, _. split; [done|].
        split; [|done]. rewrite calls_of_app, H2. by destruct (sends_silent l Fl) as [_ ->]. }
      destruct (tracker_processMessage json p g1) as [[[]|e] g2]; simpl in *.
      * rewrite Hl. specialize (H [] eq_refl). by rewrite app_nil_r in H.
      * destruct (instanceof_TrackerError e); simpl.
        2: { rewrite Hl. specialize (H [] eq_refl). by rewrite app_nil_r in H. }
        destruct (decide (readyState g2 !! ws = Some CLOSED)).
        -- rewrite ws_close_closed by done. simpl. rewrite Hl, <- app_assoc. simpl.
           by apply (H [ws_close_call ws]).
        -- rewrite ws_close_eq, onClose_eq by done. simpl.
           destruct (peer g2 !! ws) as [q|]; simpl; rewrite Hl, <- ?app_assoc; simpl.
           ++ by apply (H [ws_close_call ws; disconnectPeer_call q]).
           ++ by apply (H [ws_close_call ws]).
    + rewrite onMessage_malformed by done.
      destruct (decide (readyState g !! ws = Some CLOSED)).
      * rewrite ws_close_closed by done. simpl. eauto.
      * rewrite ws_close_eq, onClose_eq by done. simpl.
        destruct (peer g !! ws); simpl; rewrite <- ?app_assoc; eauto.
  - rewrite after_Drain_eq. exists []. by rewrite app_nil_r.
  - rewrite after_Close_eq, onClose_eq. simpl.
    destruct (peer g !! ws); simpl; rewrite <- ?app_assoc; eauto.
  - destruct (after_Send_frame p json g) as (_ & _ & _ & _ & l & Hl & Fl).
    exists l. split; [done|]. by destruct (sends_silent l Fl).
Qed.

Lemma calls_of_cons_nil l1 json p l2 :
  calls_of (l1 ++ processMessage_call json p :: l2) <> [].
Proof. rewrite calls_of_app. simpl. by destruct (calls_of l1). Qed.

(** X1: whatever the events and their order, the messages handed to
    [processMessage] are the messages of the frames that were decoded, one
    call for each such frame, in the order of arrival. *)
Theorem X1_dispatch_in_order events t :
  (processMessage_calls (exec events (initial t))).*1 = omap message_of events.
Proof.
  induction events as [|e events IH] using rev_ind; [done|].
  rewrite exec_snoc, omap_app. simpl.
  destruct (exec_coherent events t) as [Hc _].
  destruct (after_trace e _ Hc) as (l & Hl & H).
  unfold processMessage_calls in *. rewrite Hl, calls_of_app, fmap_app, IH. f_equal.
  destruct (message_of e) as [json|].
  - destruct H as (p & l' & -> & Hs & _). simpl. by rewrite Hs.
  - by rewrite H.
Qed.

(** X2: whatever the events and their order, once [disconnectPeer] has been
    called with a context, [processMessage] is never called with that context
    again. *)
Theorem X2_no_message_after_disconnect events t l1 p l2 :
  trace (exec events (initial t)) = l1 ++ disconnectPeer_call p :: l2 ->
  forall json, processMessage_call json p ∉ l2.
Proof.
  assert (forall l1 json q l2,
    trace (exec events (initial t)) = l1 ++ processMessage_call json q :: l2 ->
    q ∉ disconnects_of l1) as Htimely.
  { induction events as [|e events IH] using rev_ind.
    - intros [|] ? ? ? [=].
    - intros k1 json q k2. rewrite exec_snoc.
      destruct (exec_coherent events t) as [Hc _].
      destruct (after_trace e _ Hc) as (l & -> & H).
      assert (l = processMessage_call json q :: k2 -> k1 = trace (exec events (initial t)) ->
              q ∉ disconnects_of k1) as Hhead.
      { intros -> ->. destruct (message_of e); [|done].
        by destruct H as (p0 & l' & [= <- <- <-] & _ & Hn). }
      intros [(k & Hk & Hl)|(k & Hk & Hl)]%app_eq_inv.
      + destruct k as [|c k]; simpl in Hl.
        * rewrite app_nil_r in Hk. by apply Hhead.
        * injection Hl as <- Hl. by apply (IH _ _ _ _ Hk).
      + destruct k as [|c k].
        * rewrite app_nil_r in Hk. by apply Hhead.
        * exfalso. destruct (message_of e).
          -- destruct H as (p0 & l' & -> & Hs & _). injection Hl as _ Hl.
             rewrite Hl in Hs. by apply calls_of_cons_nil in Hs.
          -- rewrite Hl in H. by apply (calls_of_cons_nil (c :: k)) in H. }
  intros Ht json (a & b & ->)%list_elem_of_split.
  apply (Htimely (l1 ++ disconnectPeer_call p :: a) json p b).
  - rewrite Ht. by rewrite <- app_assoc.
  - rewrite disconnects_of_app. simpl. apply elem_of_app. right. by left.
Qed.

(** Under the transport's discipline a context is attached exactly while
    its connection is open. *)
Lemma attached_iff_open events t p ws :
  disciplined events (initial t) ->
  let g := exec events (initial t) in
  contexts g !! p = Some ws ->
  (peer g !! ws = Some p <-> readyState g !! ws = Some OPEN).
Proof.
  intros Hd g Hp.
  destruct (exec_orderly events t Hd) as (_ & _ & Hcx).
  destruct (exec_coherent events t) as [(Hpe & _) _]. fold g in Hcx, Hpe.
  destruct (Hcx _ _ Hp) as [[Ho Ha]|[Hcl Hds]].
  - tauto.
  - split; [|congruence]. intros Ha. by destruct (Hpe _ _ Ha).
Qed.


(** X4: under the transport's discipline a connection that is closed holds
    no context, and the contexts attached are never more than the counter. *)
Theorem X4_no_context_outlives_its_connection events t :
  disciplined events (initial t) ->
  let g := exec events (initial t) in
  (forall ws p, peer g !! ws = Some p -> readyState g !! ws = Some OPEN) /\
  Z.of_nat (size (peer g)) <= stats g.
Proof.
  intros Hd g.
  assert (forall ws p, peer g !! ws = Some p -> readyState g !! ws = Some OPEN) as H.
  { intros ws p Ha. destruct (exec_coherent events t) as [(Hpe & _) _].
    destruct (Hpe _ _ Ha) as [Hp _]. by apply (attached_iff_open events t p ws). }
  split; [done|].
  destruct (exec_orderly events t Hd) as (Hn & _). fold g in Hn.
  unfold stats. rewrite Hn, <- size_dom. apply inj_le, subseteq_size.
  intros ws [p Ha]%elem_of_dom. apply elem_of_dom. exists OPEN.
  apply map_lookup_filter_Some. split; [by apply (H ws p) | done].
Qed.


(** X6: a message that the tracker rejects with a [TrackerError]: before
    the handler returns, the counter has been decremented, the context has
    been detached, and [disconnectPeer] has been called with it, right after
    [ws.close()]. *)
Theorem X6_protocol_error_releases_context ws message json g p g1 e g2 :
  JSON_parse (decoder_end message) = Some json ->
  readyState g !! ws = Some OPEN ->
  resolve ws g = (Normal p, g1) ->
  tracker_processMessage json p g1 = (Throws e, g2) ->
  instanceof_TrackerError e = true ->
  let g3 := snd (onMessage ws message g) in
  stats g3 = stats g - 1 /\
  peer g3 !! ws = None /\
  tracker g3 = disconnectPeer p (tracker g2) /\
  trace g3 = trace g2 ++ [ws_close_call ws; disconnectPeer_call p].
Proof.
  intros Hp Hws Hr Ht He. simpl.
  rewrite (onMessage_decoded _ _ _ _ Hp), Hr, Ht, He.
  pose proof (tracker_processMessage_frame json p g1) as (Hn & Hpe & _ & Hrs & _).
  rewrite Ht in Hn, Hpe, Hrs. simpl in Hn, Hpe, Hrs.
  assert (webSocketsCount g1 = webSocketsCount g /\ peer g1 !! ws = Some p /\
          readyState g1 = readyState g) as (Hn1 & Hpe1 & Hrs1).
  { rewrite resolve_eq in Hr. destruct (peer g !! ws) as [q|] eqn:Hq;
      injection Hr as <- <-; simpl; [done|]. by rewrite lookup_insert_eq. }
  rewrite ws_close_eq by (rewrite Hrs, Hrs1, Hws; done).
  rewrite onClose_eq. simpl. rewrite Hpe, Hpe1. simpl. unfold stats.
  split_and!; [lia | apply lookup_delete_eq | done | by rewrite <- app_assoc].
Qed.

(** X7: a frame that is not a JSON document, on an open connection that has
    a context: the counter is decremented, the context is detached, and
    [disconnectPeer] is called with it, right after [ws.close()]. *)
Theorem X7_malformed_frame_releases_context ws message g p :
  JSON_parse (decoder_end message) = None ->
  readyState g !! ws = Some OPEN ->
  peer g !! ws = Some p ->
  let g' := after (Message ws message) g in
  stats g' = stats g - 1 /\
  peer g' !! ws = None /\
  tracker g' = disconnectPeer p (tracker g) /\
  trace g' = trace g ++ [ws_close_call ws; disconnectPeer_call p].
Proof.
  intros Hp Hws Ha. simpl.
  change (after (Message ws message) g) with (snd (onMessage ws message g)).
  rewrite onMessage_malformed by done.
  rewrite ws_close_eq by (rewrite Hws; done).
  rewrite onClose_eq. simpl. rewrite Ha. simpl. unfold stats.
  split_and!; [done | apply lookup_delete_eq | done | by rewrite <- app_assoc].
Qed.

(** X17: under the transport's discipline the [open], [drain] and [close]
    handlers never throw, and what the [message] handler throws is what
    [processMessage] threw for the message of the frame, and is not a
    [TrackerError]. *)
Theorem X17_what_a_handler_throws e g x :
  admissible e g ->
  fst (deliver e g) = Throws x ->
  match e with
  | Message ws message =>
      instanceof_TrackerError x = false /\
      exists json p g1 g2,
        JSON_parse (decoder_end message) = Some json /\
        resolve ws g = (Normal p, g1) /\
        tracker_processMessage json p g1 = (Throws x, g2)
  | Send _ _ => True
  | _ => False
  end.
Proof.
  intros Ha Hx. destruct e as [ws|ws m|ws|ws|p json]; simpl in Ha; [| | | |done].
  - destruct g as [n pe cx rs t tr]. by munfold.
  - change (deliver (Message ws m) g) with (onMessage ws m g) in Hx.
    destruct (JSON_parse (decoder_end m)) as [json|] eqn:Hp.
    + rewrite (onMessage_decoded _ _ _ _ Hp) in Hx.
      destruct (resolve ws g) as [[p|e] g1] eqn:Hr.
      2: { rewrite resolve_eq in Hr. by destruct (peer g !! ws). }
      destruct (tracker_processMessage json p g1) as [[[]|e] g2] eqn:Ht; [done|].
      destruct (instanceof_TrackerError e) eqn:He.
      * assert (readyState g2 !! ws = Some OPEN) as Hws.
        { pose proof (tracker_processMessage_frame json p g1) as (_ & _ & _ & Hrs & _).
          rewrite Ht in Hrs. simpl in Hrs. rewrite Hrs.
          rewrite resolve_eq in Hr. destruct (peer g !! ws); by injection Hr as <- <-. }
        destruct (ws_close_open ws g2 Hws) as (Hn & _). simpl in Hn. congruence.
      * simpl in Hx. injection Hx as <-. split; [done|]. by exists json, p, g1, g2.
    + rewrite onMessage_malformed in Hx by done.
      destruct (ws_close_open ws g Ha) as (Hn & _). simpl in Hn. congruence.
  - destruct g as [n pe cx rs t tr]. revert Hx. unfold deliver. munfold. simpl in *.
    by rewrite Ha.
  - destruct g as [n pe cx rs t tr]. unfold deliver in Hx.
    change (fst (onClose ws (mkGateway n pe cx (<[ws := CLOSED]> rs) t tr)) = Throws x) in Hx.
    by rewrite onClose_eq in Hx.
Qed.

Lemma ws_close_other ws ws' g :
  ws <> ws' ->
  peer (snd (ws_close ws g)) !! ws' = peer g !! ws' /\
  readyState (snd (ws_close ws g)) !! ws' = readyState g !! ws'.
Proof.
  intros Hne. destruct (decide (readyState g !! ws = Some CLOSED)).
  - by rewrite ws_close_closed.
  - rewrite ws_close_eq, onClose_eq by done. simpl.
    destruct (peer g !! ws); simpl; rewrite ?lookup_delete_ne, ?lookup_insert_ne; done.
Qed.

(** X18: an event of one connection leaves the other connections as they
    were: the context attached to each, and the state of each; and so does a
    call of [sendMessage], whatever the tracker does. *)
Theorem X18_connections_are_isolated e g ws' :
  connection_of e <> Some ws' ->
  peer (after e g) !! ws' = peer g !! ws' /\
  readyState (after e g) !! ws' = readyState g !! ws'.
Proof.
  intros Hne. destruct e as [ws|ws m|ws|ws|p json]; simpl in Hne.
  - rewrite after_Open_eq. simpl. rewrite lookup_insert_ne by congruence. done.
  - assert (ws <> ws') as Hws by congruence.
    change (after (Message ws m) g) with (snd (onMessage ws m g)).
    destruct (JSON_parse (decoder_end m)) as [json|] eqn:Hp.
    2: { rewrite onMessage_malformed by done. by apply ws_close_other. }
    rewrite (onMessage_decoded _ _ _ _ Hp).
    destruct (resolve ws g) as [[p|e] g1] eqn:Hr.
    2: { rewrite resolve_eq in Hr. by destruct (peer g !! ws). }
    assert (peer g1 !! ws' = peer g !! ws' /\ readyState g1 = readyState g) as [Hpe1 Hrs1].
    { rewrite resolve_eq in Hr. destruct (peer g !! ws); injection Hr as <- <-; [done|].
      simpl. by rewrite lookup_insert_ne. }
    pose proof (tracker_processMessage_frame json p g1) as (_ & Hpe & _ & Hrs & _).
    simpl in Hpe, Hrs.
    destruct (tracker_processMessage json p g1) as [[[]|e] g2]; simpl in *.
    + by rewrite Hpe, Hrs, Hrs1.
    + destruct (instanceof_TrackerError e); simpl; [|by rewrite Hpe, Hrs, Hrs1].
      destruct (ws_close_other ws ws' g2 Hws) as [-> ->]. by rewrite Hpe, Hrs, Hrs1.
  - by rewrite after_Drain_eq.
  - rewrite after_Close_eq, onClose_eq. simpl.
    destruct (peer g !! ws); simpl;
      rewrite ?lookup_delete_ne, ?lookup_insert_ne by congruence; done.
  - destruct (after_Send_frame p json g) as (_ & -> & _ & -> & _). done.
Qed.

End Properties.

(** ** The claims on concrete runs *)

Example sample_run :
  let g := sample_exec false None
             [Open 0; Open 1; Message 0 announce_frame; Message 1 scrape_frame;
              Message 0 truncated_frame] in
  stats g = 0 /\ tracker g = 1%nat /\
  trace g = [processMessage_call
               (VObj [(js "action", VStr (js "announce")); (js "info_hash", VStr (js "abc"))]) 0;
             ws_send_call 0 (Some (jsq "{'action':'announce','interval':120}"));
             processMessage_call (VObj [(js "action", VStr (js "scrape"))]) 1;
             ws_close_call 1; disconnectPeer_call 1;
             ws_close_call 0; disconnectPeer_call 0].
Proof. vm_compute. auto. Qed.

(** C1 fails as it is stated: a second close signal for a connection that
    is already closed decrements the counter again, below zero, while no
    connection is open. *)
Lemma C1_repeated_close_decrements_again :
  let g := sample_exec false None [Open 0; Close 0; Close 0] in
  stats g = -1 /\ live g = ∅ /\ stats g <> Z.of_nat (size (live g)).
Proof. vm_compute. split_and!; [done | done | discriminate]. Qed.

Lemma C1_witness :
  let events := [Open 0; Open 1; Message 0 announce_frame; Message 1 truncated_frame;
                 Drain 0; Send 0 VNull; Open 2; Close 0] in
  disciplined (setting := sample false None) events (initial (setting := sample false None) 0%nat) /\
  forall n,
    let g := exec (setting := sample false None) (take n events) (initial (setting := sample false None) 0%nat) in
    stats g = Z.of_nat (size (live g)) /\ 0 <= stats g.
Proof.
  split.
  - vm_compute. split_and!; done.
  - apply (C1_counter_is_live_connections (setting := sample false None)).
    vm_compute. split_and!; done.
Defined.

(** C2 fails as it is stated: a frame with a byte that no UTF-8 sequence
    contains, inside a string of an announce, is decoded with U+FFFD in its
    place; [processMessage] is called with the message and the connection
    stays open. *)
Lemma C2_malformed_utf8_is_dispatched :
  let g := sample_exec false None [Open 0; Message 0 malformed_utf8_frame] in
  valid_utf8 malformed_utf8_frame = false /\
  processMessage_calls g =
    [(VObj [(js "action", VStr (js "announce")); (js "info_hash", VStr [0xFFFD])], 0%nat)] /\
  readyState g !! 0%nat = Some OPEN.
Proof. vm_compute. split_and!; done. Qed.

Lemma C2_witness :
  let g := sample_exec false None [Open 0] in
  let message := [0x7B; 0xC3; 0x28; 0x7D] in
  (Forall (fun b => 0 <= b <= 255) message /\ valid_utf8 message = false /\
   readyState g !! 0%nat = Some OPEN) /\
  let r := onMessage 0 message g in
  REPLACEMENT ∈ decoder_end message /\
  fst r = Normal tt /\ readyState (snd r) !! 0%nat = Some CLOSED /\
  processMessage_calls (snd r) = processMessage_calls g.
Proof.
  assert (Forall (fun b => 0 <= b <= 255) [0x7B; 0xC3; 0x28; 0x7D] /\
          valid_utf8 [0x7B; 0xC3; 0x28; 0x7D] = false /\
          readyState (sample_exec false None [Open 0]) !! 0%nat = Some OPEN) as H.
  { split; [repeat constructor; lia | vm_compute; split; done]. }
  split; [exact H|].
  exact (C2_malformed_utf8_is_replaced (setting := sample false None)
           0%nat [0x7B; 0xC3; 0x28; 0x7D] _ (proj1 H) (proj1 (proj2 H)) (proj2 (proj2 H))).
Defined.

Lemma C3_witness :
  let g := sample_exec false None [Open 0] in
  let json := VObj [(js "action", VStr (js "scrape"))] in
  let g1 := snd (resolve 0 g) in
  let g2 := snd (tracker_processMessage json 0 g1) in
  (JSON_parse (decoder_end scrape_frame) = Some json /\
   readyState g !! 0%nat = Some OPEN /\
   resolve 0 g = (Normal 0%nat, g1) /\
   tracker_processMessage json 0 g1 = (Throws (TrackerError "unknown action"), g2)) /\
  let r := onMessage 0 scrape_frame g in
  fst r = Normal tt /\ readyState (snd r) !! 0%nat = Some CLOSED.
Proof.
  intros g json g1 g2.
  assert (JSON_parse (decoder_end scrape_frame) = Some json /\
          readyState g !! 0%nat = Some OPEN /\
          resolve 0 g = (Normal 0%nat, g1) /\
          tracker_processMessage json 0 g1 = (Throws (TrackerError "unknown action"), g2))
    as H by (vm_compute; split_and!; done).
  split; [exact H|].
  destruct H as (H1 & H2 & H3 & H4).
  exact (C3_error_containment (setting := sample false None) _ _ _ _ _ _ _ _ H1 H2 H3 H4).
Defined.

(** The other side of C3: the document [null] makes the sample tracker
    throw a [TypeError], and the handler throws it. *)
Example C3_other_error_propagates :
  let g := sample_exec false None [Open 0] in
  fst (onMessage 0 null_frame g)
  = Throws (TypeError "Cannot read property 'action' of null").
Proof. vm_compute. done. Qed.

Lemma C4_witness :
  let events := [Open 0; Message 0 announce_frame] in
  let g := sample_exec false None events in
  let g1 := after (Close 0) g in
  peer g !! 0%nat = Some 0%nat /\
  (count_disconnects 0 g = 0%nat /\
   disconnects g1 = disconnects g ++ [0%nat] /\
   (forall more, count_disconnects 0 (exec more g1) = 1%nat) /\
   disconnects (after (Close 0) g1) = disconnects g1).
Proof.
  split.
  - vm_compute. done.
  - apply (C4_disconnectPeer_exactly_once (setting := sample false None)
             [Open 0; Message 0 announce_frame] 0%nat 0%nat 0%nat).
    vm_compute. done.
Defined.


Lemma C6_witness :
  let g := sample_exec false None [Open 0; Message 0 announce_frame] in
  (JSON_parse (decoder_end truncated_frame) = None /\
   readyState g !! 0%nat = Some OPEN) /\
  let r := onMessage 0 truncated_frame g in
  fst r = Normal tt /\
  readyState (snd r) !! 0%nat = Some CLOSED /\
  processMessage_calls (snd r) = processMessage_calls g /\
  exists l, trace (snd r) = trace g ++ ws_close_call 0 :: l.
Proof.
  assert (JSON_parse (decoder_end truncated_frame) = None /\
          readyState (sample_exec false None [Open 0; Message 0 announce_frame]) !! 0%nat
          = Some OPEN) as H by (vm_compute; split; done).
  split; [exact H|].
  exact (C6_malformed_document_closes (setting := sample false None)
           0%nat truncated_frame _ (proj1 H) (proj2 H)).
Defined.

(** C7 at a concrete input: diagnostics enabled, a transport that ignores
    calls on a closed connection; connection 0 opens, sends an announce and
    is closed; the tracker then calls the [sendMessage] of its context. *)
Lemma C7_witness :
  let g0 := sample_exec true None [Open 0; Message 0 announce_frame] in
  let g := after (Close 0) g0 in
  (debugMessagesEnabled (Setting := sample true None) = true /\
   contexts g0 !! 0%nat = Some 0%nat) /\
  contexts g !! 0%nat = Some 0%nat /\
  exists e, fst (PeerContext_sendMessage 0 announce_reply g) = Throws e.
Proof.
  split.
  - vm_compute. split; done.
  - apply (C7_sendMessage_after_close_throws (setting := sample true None)).
    + reflexivity.
    + vm_compute. done.
Defined.

Example C7_TypeError :
  let g := sample_exec true None [Open 0; Message 0 announce_frame; Close 0] in
  fst (deliver (Send 0 announce_reply) g)
  = Throws (TypeError "Cannot read property 'id' of undefined").
Proof. vm_compute. done. Qed.

Lemma C9_witness :
  let g := sample_exec false None [Open 0] in
  let g1 := snd (resolve 0 g) in
  let e := TypeError "Cannot read property 'action' of null" in
  let g2 := snd (tracker_processMessage VNull 0 g1) in
  (JSON_parse (decoder_end null_frame) = Some VNull /\
   resolve 0 g = (Normal 0%nat, g1) /\
   tracker_processMessage VNull 0 g1 = (Throws e, g2) /\
   instanceof_TrackerError e = false) /\
  onMessage 0 null_frame g = (Throws e, g2) /\
  webSocketsCount g2 = webSocketsCount g /\
  readyState g2 = readyState g /\
  peer g2 !! 0%nat = Some 0%nat /\
  exists l, trace g2 = trace g ++ processMessage_call VNull 0 :: l /\ Forall is_send l.
Proof.
  intros g g1 e g2.
  assert (JSON_parse (decoder_end null_frame) = Some VNull /\
          resolve 0 g = (Normal 0%nat, g1) /\
          tracker_processMessage VNull 0 g1 = (Throws e, g2) /\
          instanceof_TrackerError e = false) as H by (vm_compute; split_and!; done).
  split; [exact H|].
  destruct H as (H1 & H2 & H3 & H4).
  exact (C9_unexpected_error_keeps_connection (setting := sample false None)
           _ _ _ _ _ _ _ _ H1 H2 H3 H4).
Defined.

(** C10 on a connection whose only message was rejected by the tracker
    (the context is disconnected) ... *)
Lemma C10_witness :
  let events := [Open 0; Open 1; Message 0 scrape_frame; Message 1 truncated_frame] in
  let g := sample_exec false None events in
  (disciplined (setting := sample false None) events (initial (setting := sample false None) 0%nat) /\
   readyState g !! 0%nat = Some CLOSED) /\
  ((exists p, contexts g !! p = Some 0%nat /\ p ∈ disconnects g) <-> decoded 0 events).
Proof.
  split.
  - vm_compute. split_and!; done.
  - apply (C10_disconnect_iff_decoded (setting := sample false None)).
    + vm_compute. split_and!; done.
    + vm_compute. done.
Defined.

(** ... and on one none of whose frames was decoded (nothing is). *)
Example C10_no_message_no_disconnect :
  let g := sample_exec false None
             [Open 0; Open 1; Message 0 scrape_frame; Message 1 truncated_frame] in
  readyState g !! 1%nat = Some CLOSED /\ disconnects g = [0%nat] /\ contexts g = [0%nat].
Proof. vm_compute. split_and!; done. Qed.


Example C8_undefined_property_is_dropped :
  let v := VObj [(js "id", VUndefined)] in
  JSON_stringify v = Some (js "{}") /\
  JSON_parse (decoder_end (utf8_encode (js "{}"))) = Some (VObj []) /\
  value_equiv v (VObj []) = false.
Proof. vm_compute. split_and!; done. Qed.

Example C8_NaN_becomes_null :
  let v := VNum NNaN in
  JSON_stringify v = Some (js "null") /\
  JSON_parse (decoder_end (utf8_encode (js "null"))) = Some VNull /\
  value_equiv v VNull = false.
Proof. vm_compute. split_and!; done. Qed.


Example sample_message_read_back :
  JSON_parse (decoder_end (utf8_encode (default [] (JSON_stringify sample_message))))
  = Some (VObj [(js "2", VArr [VNull; VBool true; VStr [0x22; 0xD83D; 0xDE00; 0xD800; 0x0A; 0xE9]]);
                (js "10", VNum (NInt (-42)));
                (js "action", VStr (js "announce")); (js "offers", VObj [])]).
Proof. vm_compute. done. Qed.

(** * Further properties *)

(** *** The shape of a message *)

Lemma replace_property_keys k v o : map fst (replace_property k v o) = map fst o.
Proof.
  induction o as [|[k0 v0] o IH]; simpl; [done|].
  destruct (bool_decide_reflect (k0 = k)) as [->|]; simpl; by rewrite ?IH.
Qed.

Lemma insert_index_keys i k v o : map fst (insert_index i k v o) ≡ₚ k :: map fst o.
Proof.
  induction o as [|[k0 v0] o IH]; simpl; [done|].
  destruct (array_index k0) as [j|]; [destruct (i <? j)|]; simpl; try done.
  rewrite IH. apply Permutation_swap.
Qed.

Lemma define_property_keys o k v :
  NoDup (map fst o) -> NoDup (map fst (define_property o (k, v))).
Proof.
  intros Hnd. unfold define_property. destruct (get_property k o) eqn:Hg.
  - by rewrite replace_property_keys.
  - apply get_property_None in Hg. destruct (array_index k).
    + rewrite insert_index_keys. by apply NoDup_cons.
    + rewrite map_app. simpl. apply NoDup_app. split_and!; [done | | apply NoDup_singleton].
      intros x Hx ->%list_elem_of_singleton. done.
Qed.

Lemma replace_property_values (P : value -> Prop) k v o :
  P v -> Forall (fun kx => P kx.2) o -> Forall (fun kx => P kx.2) (replace_property k v o).
Proof.
  intros Hv. induction 1 as [|[k0 v0] o H0 Ho IH]; simpl; [done|].
  destruct (bool_decide (k0 = k)); constructor; done.
Qed.

Lemma insert_index_values (P : value -> Prop) i k v o :
  P v -> Forall (fun kx => P kx.2) o -> Forall (fun kx => P kx.2) (insert_index i k v o).
Proof.
  intros Hv. induction 1 as [|[k0 v0] o H0 Ho IH]; simpl; [by repeat constructor|].
  destruct (array_index k0) as [j|]; [destruct (i <? j)|]; repeat constructor; done.
Qed.

Lemma define_property_values (P : value -> Prop) o k v :
  P v -> Forall (fun kx => P kx.2) o -> Forall (fun kx => P kx.2) (define_property o (k, v)).
Proof.
  intros Hv Ho. unfold define_property. destruct (get_property k o).
  - by apply replace_property_values.
  - destruct (array_index k); [by apply insert_index_values|].
    apply Forall_app. split; [done|]. by repeat constructor.
Qed.

(** The object built from the members of a text. *)
Lemma parsed_members ps : forall acc,
  Forall (fun kx => parsed kx.2) ps -> parsed (VObj acc) ->
  parsed (VObj (fold_left define_property ps acc)).
Proof.
  induction ps as [|[k v] ps IH]; intros acc Hps Hacc; simpl; [done|].
  apply Forall_cons in Hps as [Hv Hps]. apply IH; [done|].
  inversion_clear Hacc as [| | | | |? Hnd Hvs]. constructor.
  - by apply define_property_keys.
  - by apply define_property_values.
Qed.

Lemma parse_parsed fuel :
  (forall s v r, parse_value fuel s = Parsed v r -> parsed v) /\
  (forall s vs r, parse_elements fuel s = Parsed vs r -> Forall parsed vs) /\
  (forall s ps r, parse_members fuel s = Parsed ps r -> Forall (fun kx => parsed kx.2) ps).
Proof.
  induction fuel as [|fuel (IHv & IHe & IHm)]; [by split_and!|]. split_and!.
  - intros s v r. rewrite parse_value_S. intros H.
    repeat (case_match; try done); simplify_eq; try by constructor.
    + constructor; constructor.
    + destruct (parse_members fuel _) as [ps rest| |] eqn:Hm; [|done..].
      apply IHm in Hm. simpl in *. simplify_eq.
      apply parsed_members; [done|]. constructor; constructor.
    + destruct (parse_elements fuel _) as [vs rest| |] eqn:He; [|done..].
      apply IHe in He. simpl in *. simplify_eq. by constructor.
    + destruct (parse_string _) as [t rest| |] eqn:Hs; [|done..].
      simpl in *. simplify_eq. constructor.
    + destruct (parse_number _) as [n rest| |] eqn:Hn; [|done..].
      simpl in *. simplify_eq. constructor.
  - intros s vs r. rewrite parse_elements_S.
    destruct (parse_value fuel s) as [v s1| |] eqn:Hv; [|done..]. apply IHv in Hv.
    cbn [bind]. intros H.
    repeat (case_match; try done); simplify_eq; try by repeat constructor.
    destruct (parse_elements fuel _) as [vs' rest| |] eqn:He; [|done..].
    apply IHe in He. simpl in *. simplify_eq. by constructor.
  - intros s ps r. rewrite parse_members_S. intros H.
    destruct s as [|q s1]; [done|]. destruct (q =? 34); [|done].
    destruct (parse_string s1) as [k s2| |] eqn:Hk; [|done..]. cbn [bind] in H.
    destruct (skip_ws s2) as [|col s3] eqn:Hs2; [done|]. destruct (col =? 58); [|done].
    destruct (parse_value fuel s3) as [v s4| |] eqn:Hv; [|done..]. apply IHv in Hv.
    cbn [bind] in H.
    destruct (skip_ws s4) as [|d s5] eqn:Hs4; [done|].
    destruct (d =? 44).
    + destruct (parse_members fuel (skip_ws s5)) as [ps' rest| |] eqn:Hm; [|done..].
      apply IHm in Hm. simpl in *. simplify_eq. by constructor.
    + destruct (d =? 125); [|done]. simplify_eq. by repeat constructor.
Qed.

(** X8: the message that [JSON.parse] reads from a frame holds no
    [undefined], at any depth, and none of its objects has a key twice. *)
Theorem X8_message_shape message json :
  JSON_parse (decoder_end message) = Some json -> parsed json.
Proof.
  unfold JSON_parse.
  destruct (parse_value _ _) as [v rest| |] eqn:Hv; [|done..].
  destruct (skip_ws rest); [|done]. intros [= <-].
  destruct (parse_parsed (S (2 * length (decoder_end message)))) as (H & _ & _).
  by apply (H _ _ _ Hv).
Qed.

(** *** What [decoder.end] makes of any frame *)

Lemma utf8_lead_ascii b : b <= 0x7F -> utf8_lead b = ([b], None).
Proof. intros. unfold utf8_lead. repeat case_match; try done; lia. Qed.

Lemma utf8_lead_2 b :
  0xC2 <= b <= 0xDF -> utf8_lead b = ([], Some (Pending (b - 0xC0) 0 0x80 0xBF)).
Proof. intros. unfold utf8_lead. repeat case_match; try done; lia. Qed.

Lemma utf8_lead_3 b :
  0xE0 <= b <= 0xEF ->
  utf8_lead b = ([], Some (Pending (b - 0xE0) 1 (if b =? 0xE0 then 0xA0 else 0x80)
                                   (if b =? 0xED then 0x9F else 0xBF))).
Proof.
  intros. unfold utf8_lead.
  replace (b <=? 0x7F) with false by lia.
  replace ((0xC2 <=? b) && (b <=? 0xDF)) with false by lia.
  by replace ((0xE0 <=? b) && (b <=? 0xEF)) with true by lia.
Qed.

Lemma utf8_lead_4 b :
  0xF0 <= b <= 0xF4 ->
  utf8_lead b = ([], Some (Pending (b - 0xF0) 2 (if b =? 0xF0 then 0x90 else 0x80)
                                   (if b =? 0xF4 then 0x8F else 0xBF))).
Proof.
  intros. unfold utf8_lead.
  replace (b <=? 0x7F) with false by lia.
  replace ((0xC2 <=? b) && (b <=? 0xDF)) with false by lia.
  replace ((0xE0 <=? b) && (b <=? 0xEF)) with false by lia.
  by replace ((0xF0 <=? b) && (b <=? 0xF4)) with true by lia.
Qed.

Lemma utf8_lead_other b :
  0x80 <= b <= 0xC1 \/ 0xF5 <= b -> utf8_lead b = ([REPLACEMENT], None).
Proof. intros. unfold utf8_lead. repeat case_match; try done; lia. Qed.

(** A byte that the sequence in progress does not accept: U+FFFD for the
    sequence, and the byte is read again as the start of another. *)
Lemma utf8_decode_restart q b bs :
  ~ (lower q <= b <= upper q) ->
  utf8_decode (Some q) (b :: bs) = REPLACEMENT :: utf8_decode None (b :: bs).
Proof.
  intros Hb. rewrite !utf8_decode_cons. unfold utf8_step.
  replace ((lower q <=? b) && (b <=? upper q)) with false by lia.
  by destruct (utf8_lead b).
Qed.

Lemma div_mod_64 q r : 0 <= r < 64 -> (q * 64 + r) / 64 = q /\ (q * 64 + r) mod 64 = r.
Proof. intros. Z.div_mod_to_equations. lia. Qed.

Lemma utf8_encode_cp_2 b1 b2 :
  0xC2 <= b1 <= 0xDF -> 0x80 <= b2 <= 0xBF ->
  utf8_encode_cp ((b1 - 0xC0) * 64 + (b2 - 0x80)) = [b1; b2].
Proof.
  intros H1 H2. unfold utf8_encode_cp.
  destruct (div_mod_64 (b1 - 0xC0) (b2 - 0x80)) as [-> ->]; [lia|].
  replace (_ <? 0x80) with false by lia. replace (_ <? 0x800) with true by lia.
  f_equal; [|f_equal]; lia.
Qed.

Lemma utf8_encode_cp_3 b1 b2 b3 :
  0xE0 <= b1 <= 0xEF -> (if b1 =? 0xE0 then 0xA0 else 0x80) <= b2 <= 0xBF ->
  0x80 <= b3 <= 0xBF ->
  utf8_encode_cp (((b1 - 0xE0) * 64 + (b2 - 0x80)) * 64 + (b3 - 0x80)) = [b1; b2; b3].
Proof.
  intros H1 H2 H3. unfold utf8_encode_cp.
  assert (0x80 <= b2) by (destruct (b1 =? 0xE0); lia).
  assert (0x800 <= ((b1 - 0xE0) * 64 + (b2 - 0x80)) * 64 + (b3 - 0x80))
    by (destruct (Z.eqb_spec b1 0xE0); lia).
  replace (_ <? 0x80) with false by lia. replace (_ <? 0x800) with false by lia.
  replace (_ <? 0x10000) with true by lia.
  replace (_ / 4096) with
    ((((b1 - 0xE0) * 64 + (b2 - 0x80)) * 64 + (b3 - 0x80)) / 64 / 64)
    by (rewrite Z.div_div by lia; reflexivity).
  destruct (div_mod_64 ((b1 - 0xE0) * 64 + (b2 - 0x80)) (b3 - 0x80)) as [-> ->]; [lia|].
  destruct (div_mod_64 (b1 - 0xE0) (b2 - 0x80)) as [-> ->]; [lia|].
  f_equal; [|f_equal; [|f_equal]]; lia.
Qed.

Lemma utf8_encode_cp_4 b1 b2 b3 b4 :
  0xF0 <= b1 <= 0xF4 -> (if b1 =? 0xF0 then 0x90 else 0x80) <= b2 <= 0xBF ->
  0x80 <= b3 <= 0xBF -> 0x80 <= b4 <= 0xBF ->
  utf8_encode_cp ((((b1 - 0xF0) * 64 + (b2 - 0x80)) * 64 + (b3 - 0x80)) * 64 + (b4 - 0x80))
  = [b1; b2; b3; b4].
Proof.
  intros H1 H2 H3 H4. unfold utf8_encode_cp.
  assert (0x80 <= b2) by (destruct (b1 =? 0xF0); lia).
  assert (0x10000 <= (((b1 - 0xF0) * 64 + (b2 - 0x80)) * 64 + (b3 - 0x80)) * 64 + (b4 - 0x80))
    by (destruct (Z.eqb_spec b1 0xF0); lia).
  replace (_ <? 0x80) with false by lia. replace (_ <? 0x800) with false by lia.
  replace (_ <? 0x10000) with false by lia.
  replace (_ / 262144) with
    (((((b1 - 0xF0) * 64 + (b2 - 0x80)) * 64 + (b3 - 0x80)) * 64 + (b4 - 0x80)) / 64 / 64 / 64)
    by (rewrite !Z.div_div by lia; reflexivity).
  replace (_ / 4096) with
    (((((b1 - 0xF0) * 64 + (b2 - 0x80)) * 64 + (b3 - 0x80)) * 64 + (b4 - 0x80)) / 64 / 64)
    by (rewrite Z.div_div by lia; reflexivity).
  destruct (div_mod_64 (((b1 - 0xF0) * 64 + (b2 - 0x80)) * 64 + (b3 - 0x80)) (b4 - 0x80))
    as [-> ->]; [lia|].
  destruct (div_mod_64 ((b1 - 0xF0) * 64 + (b2 - 0x80)) (b3 - 0x80)) as [-> ->]; [lia|].
  destruct (div_mod_64 (b1 - 0xF0) (b2 - 0x80)) as [-> ->]; [lia|].
  f_equal; [|f_equal; [|f_equal; [|f_equal]]]; lia.
Qed.

Lemma valid_utf8_ascii b r : 0 <= b <= 0x7F -> valid_utf8 (b :: r) = valid_utf8 r.
Proof.
  intros. rewrite valid_utf8_cons.
  by replace ((0 <=? b) && (b <=? 0x7F)) with true by lia.
Qed.

Lemma valid_utf8_2 b1 r1 :
  0xC2 <= b1 <= 0xDF ->
  valid_utf8 (b1 :: r1) = match r1 with
                          | b2 :: r2 => continuation b2 && valid_utf8 r2
                          | [] => false
                          end.
Proof.
  intros. rewrite valid_utf8_cons.
  replace ((0 <=? b1) && (b1 <=? 0x7F)) with false by lia.
  by replace ((0xC2 <=? b1) && (b1 <=? 0xDF)) with true by lia.
Qed.

Lemma valid_utf8_3 b1 r1 :
  0xE0 <= b1 <= 0xEF ->
  valid_utf8 (b1 :: r1) =
  match r1 with
  | b2 :: b3 :: r3 =>
      ((if b1 =? 0xE0 then 0xA0 else 0x80) <=? b2) &&
      (b2 <=? (if b1 =? 0xED then 0x9F else 0xBF)) &&
      continuation b3 && valid_utf8 r3
  | _ => false
  end.
Proof.
  intros. rewrite valid_utf8_cons.
  replace ((0 <=? b1) && (b1 <=? 0x7F)) with false by lia.
  replace ((0xC2 <=? b1) && (b1 <=? 0xDF)) with false by lia.
  by replace ((0xE0 <=? b1) && (b1 <=? 0xEF)) with true by lia.
Qed.

Lemma valid_utf8_4 b1 r1 :
  0xF0 <= b1 <= 0xF4 ->
  valid_utf8 (b1 :: r1) =
  match r1 with
  | b2 :: b3 :: b4 :: r4 =>
      ((if b1 =? 0xF0 then 0x90 else 0x80) <=? b2) &&
      (b2 <=? (if b1 =? 0xF4 then 0x8F else 0xBF)) &&
      continuation b3 && continuation b4 && valid_utf8 r4
  | _ => false
  end.
Proof.
  intros. rewrite valid_utf8_cons.
  replace ((0 <=? b1) && (b1 <=? 0x7F)) with false by lia.
  replace ((0xC2 <=? b1) && (b1 <=? 0xDF)) with false by lia.
  replace ((0xE0 <=? b1) && (b1 <=? 0xEF)) with false by lia.
  by replace ((0xF0 <=? b1) && (b1 <=? 0xF4)) with true by lia.
Qed.

Lemma valid_utf8_other b r :
  0x80 <= b <= 0xC1 \/ 0xF5 <= b -> valid_utf8 (b :: r) = false.
Proof.
  intros. rewrite valid_utf8_cons.
  replace ((0 <=? b) && (b <=? 0x7F)) with false by lia.
  replace ((0xC2 <=? b) && (b <=? 0xDF)) with false by lia.
  replace ((0xE0 <=? b) && (b <=? 0xEF)) with false by lia.
  by replace ((0xF0 <=? b) && (b <=? 0xF4)) with false by lia.
Qed.

Lemma scalar_REPLACEMENT : scalar REPLACEMENT.
Proof. by split. Qed.

(** The first code point of a frame: U+FFFD for a sequence that is not
    UTF-8, decoding going on at some later byte; or a scalar value, for the
    bytes that encode it. *)
Lemma utf8_decode_head b1 r1 :
  0 <= b1 ->
  (exists rest, rest `suffix_of` r1 /\
     utf8_decode None (b1 :: r1) = REPLACEMENT :: utf8_decode None rest /\
     valid_utf8 (b1 :: r1) = false) \/
  (exists c rest, scalar c /\ b1 :: r1 = utf8_encode_cp c ++ rest /\
     utf8_decode None (b1 :: r1) = c :: utf8_decode None rest /\
     valid_utf8 (b1 :: r1) = valid_utf8 rest).
Proof.
  intros H0.
  assert (b1 <= 0x7F \/ (0x80 <= b1 <= 0xC1 \/ 0xF5 <= b1) \/ 0xC2 <= b1 <= 0xDF \/
          0xE0 <= b1 <= 0xEF \/ 0xF0 <= b1 <= 0xF4) as [H|[H|[H|[H|H]]]] by lia.
  - right. exists b1, r1. rewrite utf8_decode_cons. cbn [utf8_step].
    rewrite utf8_lead_ascii, valid_utf8_ascii by lia. split_and!; try done.
    + split; [lia|]. unfold is_surrogate. lia.
    + unfold utf8_encode_cp. by replace (b1 <? 0x80) with true by lia.
  - left. exists r1. rewrite utf8_decode_cons. cbn [utf8_step].
    rewrite utf8_lead_other, valid_utf8_other by done. done.
  - rewrite utf8_decode_cons. cbn [utf8_step]. rewrite utf8_lead_2, valid_utf8_2 by done.
    cbn [fst snd app].
    destruct r1 as [|b2 r2]; [left; by exists []|].
    destruct (decide (0x80 <= b2 <= 0xBF)) as [H2|H2].
    + right. rewrite utf8_decode_continue by done. cbn [needed cp].
      eexists _, r2. split_and!; [| |done|].
      * split; [lia|]. unfold is_surrogate. lia.
      * by rewrite utf8_encode_cp_2.
      * unfold continuation. by replace ((0x80 <=? b2) && (b2 <=? 0xBF)) with true by lia.
    + left. rewrite utf8_decode_restart by done. exists (b2 :: r2). split_and!; try done.
      unfold continuation. by replace ((0x80 <=? b2) && (b2 <=? 0xBF)) with false by lia.
  - rewrite utf8_decode_cons. cbn [utf8_step]. rewrite utf8_lead_3, valid_utf8_3 by done.
    cbn [fst snd app].
    destruct r1 as [|b2 r2]; [left; by exists []|].
    set (lo := if b1 =? 0xE0 then 0xA0 else 0x80).
    set (hi := if b1 =? 0xED then 0x9F else 0xBF).
    assert (0x80 <= lo /\ hi <= 0xBF) by (unfold lo, hi; repeat case_match; lia).
    destruct (decide (lo <= b2 <= hi)) as [H2|H2].
    2: { left. rewrite utf8_decode_restart by done. exists (b2 :: r2). split_and!; try done.
         replace ((lo <=? b2) && (b2 <=? hi)) with false by lia. by destruct r2. }
    rewrite utf8_decode_continue by done. cbn [needed cp].
    destruct r2 as [|b3 r3].
    { left. exists []. split_and!; [by exists [b2] | done | done]. }
    destruct (decide (0x80 <= b3 <= 0xBF)) as [H3|H3].
    + right. rewrite utf8_decode_continue by done. cbn [needed cp].
      eexists _, r3. split_and!; [| |done|].
      * split; [lia|]. unfold is_surrogate, hi in *. destruct (Z.eqb_spec b1 0xED); lia.
      * rewrite utf8_encode_cp_3; [done | done | fold lo; lia | done].
      * unfold continuation.
        replace ((lo <=? b2) && (b2 <=? hi)) with true by lia.
        by replace ((0x80 <=? b3) && (b3 <=? 0xBF)) with true by lia.
    + left. rewrite utf8_decode_restart by done. exists (b3 :: r3).
      split_and!; [by exists [b2] | done |].
      unfold continuation.
      replace ((0x80 <=? b3) && (b3 <=? 0xBF)) with false by lia.
      by rewrite andb_false_r.
  - rewrite utf8_decode_cons. cbn [utf8_step]. rewrite utf8_lead_4, valid_utf8_4 by done.
    cbn [fst snd app].
    destruct r1 as [|b2 r2]; [left; by exists []|].
    set (lo := if b1 =? 0xF0 then 0x90 else 0x80).
    set (hi := if b1 =? 0xF4 then 0x8F else 0xBF).
    assert (0x80 <= lo /\ hi <= 0xBF) by (unfold lo, hi; repeat case_match; lia).
    destruct (decide (lo <= b2 <= hi)) as [H2|H2].
    2: { left. rewrite utf8_decode_restart by done. exists (b2 :: r2). split_and!; try done.
         replace ((lo <=? b2) && (b2 <=? hi)) with false by lia. by destruct r2 as [|? []]. }
    rewrite utf8_decode_continue by done. cbn [needed cp].
    destruct r2 as [|b3 r3].
    { left. exists []. split_and!; [by exists [b2] | done | done]. }
    destruct (decide (0x80 <= b3 <= 0xBF)) as [H3|H3].
    2: { left. rewrite utf8_decode_restart by done. exists (b3 :: r3).
         split_and!; [by exists [b2] | done |].
         unfold continuation. replace ((0x80 <=? b3) && (b3 <=? 0xBF)) with false by lia.
         destruct r3; [done|]. by rewrite andb_false_r. }
    rewrite utf8_decode_continue by done. cbn [needed cp].
    destruct r3 as [|b4 r4].
    { left. exists []. split_and!; [by exists [b2; b3] | done | done]. }
    destruct (decide (0x80 <= b4 <= 0xBF)) as [H4|H4].
    + right. rewrite utf8_decode_continue by done. cbn [needed cp].
      eexists _, r4. split_and!; [| |done|].
      * assert (b1 = 0xF0 /\ lo = 0x90 \/ b1 <> 0xF0 /\ lo = 0x80)
          by (unfold lo; destruct (Z.eqb_spec b1 0xF0); lia).
        assert (b1 = 0xF4 /\ hi = 0x8F \/ b1 <> 0xF4 /\ hi = 0xBF)
          by (unfold hi; destruct (Z.eqb_spec b1 0xF4); lia).
        clearbody lo hi. split; [|unfold is_surrogate]; lia.
      * rewrite utf8_encode_cp_4; [done | done | fold lo; lia | done | done].
      * unfold continuation.
        replace ((lo <=? b2) && (b2 <=? hi)) with true by lia.
        replace ((0x80 <=? b3) && (b3 <=? 0xBF)) with true by lia.
        by replace ((0x80 <=? b4) && (b4 <=? 0xBF)) with true by lia.
    + left. rewrite utf8_decode_restart by done. exists (b4 :: r4).
      split_and!; [by exists [b2; b3] | done |].
      unfold continuation.
      replace ((0x80 <=? b4) && (b4 <=? 0xBF)) with false by lia.
      by rewrite andb_false_r.
Qed.

Lemma utf8_encode_cp_length c : (0 < length (utf8_encode_cp c))%nat.
Proof. unfold utf8_encode_cp. repeat case_match; simpl; lia. Qed.

Lemma utf8_decode_scalar n : forall bs,
  (length bs <= n)%nat -> Forall (fun b => 0 <= b) bs ->
  Forall scalar (utf8_decode None bs).
Proof.
  induction n as [|n IH]; intros [|b1 r1] Hn Hb; simpl in Hn; try (by constructor); try lia.
  apply Forall_cons in Hb as [Hb1 Hb].
  destruct (utf8_decode_head b1 r1 Hb1)
    as [(rest & [pre ->] & -> & _)|(c & rest & Hc & E & -> & _)].
  - constructor; [apply scalar_REPLACEMENT|].
    apply Forall_app in Hb as [_ Hb]. apply IH; [|done].
    rewrite length_app in Hn. lia.
  - constructor; [done|].
    pose proof (utf8_encode_cp_length c) as Hl.
    assert (Forall (fun b => 0 <= b) (b1 :: r1)) as Hall by (by constructor).
    apply (f_equal length) in E as El. rewrite length_app in El. simpl in El.
    rewrite E in Hall. apply Forall_app in Hall as [_ Hrest]. apply IH; [lia | done].
Qed.

Lemma well_formed_utf16_encode c : scalar c -> well_formed (utf16_encode c).
Proof.
  intros [Hc Hs]. unfold is_surrogate in Hs. unfold utf16_encode.
  destruct (Z.ltb_spec c 0x10000).
  - apply well_formed_cons_plain; [|done]. split; [done | lia].
  - cbn [well_formed].
    assert (0 <= (c - 0x10000) / 0x400 < 0x400 /\ 0 <= (c - 0x10000) mod 0x400 < 0x400)
      as [Hq Hr] by (Z.div_mod_to_equations; lia).
    replace (is_high_surrogate _) with true by (unfold is_high_surrogate; lia).
    split; [unfold is_low_surrogate; lia | done].
Qed.

(** X9: whatever the bytes of a frame, the text that [decoder.end] gives
    is well-formed UTF-16: it holds no lone surrogate. *)
Theorem X9_decoded_text_is_well_formed message :
  Forall (fun b => 0 <= b <= 255) message -> well_formed (decoder_end message).
Proof.
  intros Hb. unfold decoder_end.
  assert (Forall scalar (utf8_decode None message)) as Hs.
  { apply (utf8_decode_scalar (length message)); [done|].
    eapply Forall_impl; [exact Hb|]. simpl. lia. }
  induction Hs as [|c cs Hc _ IH]; [done|].
  cbn [flat_map]. apply well_formed_app; [by apply well_formed_utf16_encode | done].
Qed.

Lemma valid_utf8_nonneg b r : valid_utf8 (b :: r) = true -> 0 <= b.
Proof.
  rewrite valid_utf8_cons. destruct (Z.leb_spec 0 b); [done|].
  replace ((0xC2 <=? b) && (b <=? 0xDF)) with false by lia.
  replace ((0xE0 <=? b) && (b <=? 0xEF)) with false by lia.
  by replace ((0xF0 <=? b) && (b <=? 0xF4)) with false by lia.
Qed.

Lemma utf8_decode_valid n : forall bs,
  (length bs <= n)%nat -> valid_utf8 bs = true ->
  Forall scalar (utf8_decode None bs) /\
  flat_map utf8_encode_cp (utf8_decode None bs) = bs.
Proof.
  induction n as [|n IH]; intros [|b1 r1] Hn Hv; simpl in Hn; try done; try lia.
  destruct (utf8_decode_head b1 r1 (valid_utf8_nonneg _ _ Hv))
    as [(rest & _ & _ & Hf)|(c & rest & Hc & E & -> & Hr)]; [congruence|].
  pose proof (utf8_encode_cp_length c) as Hl.
  apply (f_equal length) in E as El. rewrite length_app in El. simpl in El.
  destruct (IH rest) as [Hs Hrest]; [lia | congruence |].
  split; [by constructor|]. cbn [flat_map]. by rewrite Hrest.
Qed.

Lemma utf8_encode_utf16_encode c s :
  scalar c -> utf8_encode (utf16_encode c ++ s) = utf8_encode_cp c ++ utf8_encode s.
Proof.
  intros [Hc Hs]. unfold is_surrogate in Hs. unfold utf16_encode.
  destruct (Z.ltb_spec c 0x10000).
  - cbn [app utf8_encode].
    replace (is_high_surrogate c) with false by (unfold is_high_surrogate; lia).
    by replace (is_low_surrogate c) with false by (unfold is_low_surrogate; lia).
  - cbn [app utf8_encode].
    assert (0 <= (c - 0x10000) / 0x400 < 0x400 /\ 0 <= (c - 0x10000) mod 0x400 < 0x400)
      as [Hq Hr] by (Z.div_mod_to_equations; lia).
    replace (is_high_surrogate _) with true by (unfold is_high_surrogate; lia).
    replace (is_low_surrogate _) with true by (unfold is_low_surrogate; lia).
    do 2 f_equal. Z.div_mod_to_equations. lia.
Qed.

(** X10: a frame that is valid UTF-8 is decoded without loss: the text,
    written as UTF-8 the way [ws.send] writes text, is the frame again. *)
Theorem X10_valid_utf8_is_decoded_exactly message :
  valid_utf8 message = true -> utf8_encode (decoder_end message) = message.
Proof.
  intros Hv. unfold decoder_end.
  destruct (utf8_decode_valid (length message) message) as [Hs E]; [done | done |].
  rewrite <- E at 2. clear E. induction Hs as [|c cs Hc _ IH]; [done|].
  cbn [flat_map]. rewrite utf8_encode_utf16_encode by done. by rewrite IH.
Qed.

(** *** The text of any message survives the wire *)

Lemma plain_decimal z : 0 <= z -> Forall plain (decimal z).
Proof.
  intros Hz. destruct (decimal_spec z Hz) as (Hd & _). cbv zeta in Hd.
  eapply Forall_impl; [exact Hd|].
  intros d Hdig. apply plain_ascii. unfold is_digit in Hdig. lia.
Qed.

Lemma plain_repeat c n : plain c -> Forall plain (repeat c n).
Proof. intros Hc. induction n; simpl; by constructor. Qed.

Lemma plain_Number_toString_decimal m e :
  0 <= m -> Forall plain (Number_toString_decimal m e).
Proof.
  intros Hm. pose proof (plain_decimal m Hm) as Hs.
  assert (plain 48 /\ plain 46 /\ plain 101 /\ plain 45 /\ plain 43) as (H0 & Hdot & He & Hmi & Hpl)
    by (split_and!; by apply plain_ascii).
  unfold Number_toString_decimal. cbv zeta. repeat case_match.
  - apply Forall_app. split; [done | by apply plain_repeat].
  - apply Forall_app. split; [by apply Forall_take|].
    constructor; [done | by apply Forall_drop].
  - repeat constructor; try done. apply Forall_app. split; [by apply plain_repeat | done].
  - constructor.
  - subst. apply Forall_cons in Hs as [Hd Hr]. constructor; [done|].
    apply Forall_app. split; [done|]. constructor; [done|]. constructor; [done|].
    apply plain_decimal. lia.
  - subst. apply Forall_cons in Hs as [Hd Hr]. constructor; [done|].
    apply Forall_app. split; [done|]. constructor; [done|]. constructor; [done|].
    apply plain_decimal. lia.
  - subst. apply Forall_cons in Hs as [Hd Hr]. constructor; [done|].
    apply Forall_app. split; [by constructor|]. constructor; [done|]. constructor; [done|].
    apply plain_decimal. lia.
  - subst. apply Forall_cons in Hs as [Hd Hr]. constructor; [done|].
    apply Forall_app. split; [by constructor|]. constructor; [done|]. constructor; [done|].
    apply plain_decimal. lia.
Qed.

Lemma plain_Number_toString n : Forall plain (Number_toString n).
Proof.
  assert (plain 45) as Hmi by (by apply plain_ascii).
  destruct n as [z| |m e| |neg]; cbn [Number_toString].
  - cbv zeta. apply Forall_app. split; [destruct (z <? 0); by repeat constructor|].
    destruct (Z.ltb_spec (Z.abs z) (10 ^ 21)); [apply plain_decimal; lia|].
    pose proof (strip_zeros_spec (S (Z.to_nat (Z.log2 (Z.abs z)))) (Z.abs z) 0) as Hsz.
    destruct (strip_zeros _ _ _) as [m e]. simpl in Hsz.
    apply plain_Number_toString_decimal. lia.
  - repeat apply Forall_cons_2; try apply Forall_nil_2; apply plain_ascii; by vm_compute.
  - apply Forall_app. split; [destruct (m <? 0); by repeat constructor|].
    apply plain_Number_toString_decimal. lia.
  - repeat apply Forall_cons_2; try apply Forall_nil_2; apply plain_ascii; by vm_compute.
  - destruct neg; repeat apply Forall_cons_2; try apply Forall_nil_2;
      apply plain_ascii; by vm_compute.
Qed.

Lemma of_code_units_well_formed v :
  of_code_units v -> forall t, SerializeJSONProperty v = Some t -> well_formed t.
Proof.
  induction v as [| |b|n|s|l IH|o IH] using value_ind'; intros Hv t Ht.
  - done.
  - injection Ht as <-. by plain_list.
  - injection Ht as <-. destruct b; by plain_list.
  - injection Ht as <-. destruct (is_finite n); [|by plain_list].
    apply well_formed_plain, plain_Number_toString.
  - inversion_clear Hv as [| | | |? Hs| |]. injection Ht as <-. unfold QuoteJSONString.
    apply well_formed_cons_plain; [by apply plain_ascii|].
    apply well_formed_app; [by apply well_formed_quote_units|].
    by plain_list.
  - inversion_clear Hv as [| | | | |? Hl|].
    change (SerializeJSONProperty (VArr l))
      with (Some (91 :: join_comma (map item_text l) ++ [93])) in Ht.
    injection Ht as <-. apply well_formed_cons_plain; [by apply plain_ascii|].
    apply well_formed_app; [|by plain_list].
    apply well_formed_join. apply Forall_map, Forall_forall. intros x Hx.
    rewrite Forall_forall in IH, Hl. unfold item_text.
    destruct (SerializeJSONProperty x) eqn:Hser; [by eapply IH; eauto|].
    by plain_list.
  - inversion_clear Hv as [| | | | | |? Ho].
    change (SerializeJSONProperty (VObj o))
      with (Some (123 :: join_comma (omap member_text o) ++ [125])) in Ht.
    injection Ht as <-. apply well_formed_cons_plain; [by apply plain_ascii|].
    apply well_formed_app; [|by plain_list].
    apply well_formed_join. apply Forall_forall. intros m Hm.
    apply list_elem_of_omap in Hm as ([k x] & Hkx & Hm).
    rewrite Forall_forall in IH, Ho. destruct (Ho _ Hkx) as [Hk Hx].
    unfold member_text in Hm. simpl in *.
    destruct (SerializeJSONProperty x) eqn:Hser; [|done]. injection Hm as <-.
    unfold QuoteJSONString. rewrite <- !app_assoc.
    apply well_formed_cons_plain; [by apply plain_ascii|].
    apply well_formed_app; [by apply well_formed_quote_units|].
    apply well_formed_cons_plain; [by apply plain_ascii|].
    apply well_formed_cons_plain; [by apply plain_ascii|].
    eapply (IH (k, x)); eauto.
Qed.

(** X16: for any message at all, the text that [sendMessage] hands to
    [ws.send] is well-formed UTF-16 (a lone surrogate of the message is
    written as an escape), so the frame, decoded the way the gateway decodes,
    is that text again: nothing is replaced on the wire. *)
Theorem X16_text_survives_the_wire json text :
  of_code_units json ->
  JSON_stringify json = Some text ->
  well_formed text /\ decoder_end (utf8_encode text) = text.
Proof.
  intros Hu Ht.
  assert (well_formed text) as Hwf by (by apply (of_code_units_well_formed json)).
  split; [done|]. by apply utf8_round_trip.
Qed.

(** ** The further properties on concrete runs *)

Lemma X2_witness :
  let events := [Open 0; Message 0 announce_frame; Close 0; Open 1; Message 1 announce_frame] in
  let announce :=
    VObj [(js "action", VStr (js "announce")); (js "info_hash", VStr (js "abc"))] in
  let l1 := [processMessage_call announce 0; ws_send_call 0 (JSON_stringify announce_reply)] in
  let l2 := [processMessage_call announce 1; ws_send_call 1 (JSON_stringify announce_reply)] in
  trace (sample_exec false None events) = l1 ++ disconnectPeer_call 0 :: l2 /\
  forall json, processMessage_call json 0%nat ∉ l2.
Proof.
  intros events announce l1 l2.
  assert (trace (sample_exec false None events) = l1 ++ disconnectPeer_call 0 :: l2) as H
    by (vm_compute; reflexivity).
  split; [exact H|].
  exact (X2_no_message_after_disconnect (setting := sample false None)
           events 0%nat l1 0%nat l2 H).
Defined.


Lemma X4_witness :
  let events := [Open 0; Open 1; Message 0 announce_frame; Message 1 announce_frame;
                 Close 0; Open 2; Message 2 truncated_frame] in
  let g := sample_exec false None events in
  disciplined (setting := sample false None) events
    (initial (setting := sample false None) 0%nat) /\
  (forall ws p, peer g !! ws = Some p -> readyState g !! ws = Some OPEN) /\
  Z.of_nat (size (peer g)) <= stats g.
Proof.
  intros events g.
  assert (disciplined (setting := sample false None) events
    (initial (setting := sample false None) 0%nat)) as H
    by (vm_compute; split_and!; done).
  split; [exact H|].
  exact (X4_no_context_outlives_its_connection (setting := sample false None)
           events 0%nat H).
Defined.


Lemma X6_witness :
  let g := sample_exec false None [Open 0; Open 1] in
  let json := VObj [(js "action", VStr (js "scrape"))] in
  let e := TrackerError "unknown action" in
  let g1 := snd (resolve 1 g) in
  let g2 := snd (tracker_processMessage json 0 g1) in
  (JSON_parse (decoder_end scrape_frame) = Some json /\
   readyState g !! 1%nat = Some OPEN /\
   resolve 1 g = (Normal 0%nat, g1) /\
   tracker_processMessage json 0 g1 = (Throws e, g2) /\
   instanceof_TrackerError e = true) /\
  let g3 := snd (onMessage 1 scrape_frame g) in
  stats g3 = stats g - 1 /\
  peer g3 !! 1%nat = None /\
  tracker g3 = disconnectPeer 0%nat (tracker g2) /\
  trace g3 = trace g2 ++ [ws_close_call 1; disconnectPeer_call 0].
Proof.
  intros g json e g1 g2.
  assert (JSON_parse (decoder_end scrape_frame) = Some json /\
          readyState g !! 1%nat = Some OPEN /\
          resolve 1 g = (Normal 0%nat, g1) /\
          tracker_processMessage json 0 g1 = (Throws e, g2) /\
          instanceof_TrackerError e = true) as H by (vm_compute; split_and!; done).
  split; [exact H|]. destruct H as (H1 & H2 & H3 & H4 & H5).
  exact (X6_protocol_error_releases_context (setting := sample false None)
           1%nat scrape_frame json g 0%nat g1 e g2 H1 H2 H3 H4 H5).
Defined.

Lemma X7_witness :
  let g := sample_exec false None [Open 0; Message 0 announce_frame] in
  (JSON_parse (decoder_end truncated_frame) = None /\
   readyState g !! 0%nat = Some OPEN /\ peer g !! 0%nat = Some 0%nat) /\
  let g' := after (Message 0 truncated_frame) g in
  stats g' = stats g - 1 /\
  peer g' !! 0%nat = None /\
  tracker g' = disconnectPeer 0%nat (tracker g) /\
  trace g' = trace g ++ [ws_close_call 0; disconnectPeer_call 0].
Proof.
  intros g.
  assert (JSON_parse (decoder_end truncated_frame) = None /\
          readyState g !! 0%nat = Some OPEN /\ peer g !! 0%nat = Some 0%nat) as H
    by (vm_compute; split_and!; done).
  split; [exact H|]. destruct H as (H1 & H2 & H3).
  exact (X7_malformed_frame_releases_context (setting := sample false None)
           0%nat truncated_frame g 0%nat H1 H2 H3).
Defined.

Lemma X8_witness :
  let message := jsq "{'a':1,'b':[null,{'a':2,'a':3}],'a':'last'}" in
  let json :=
    VObj [(js "a", VStr (js "last"));
          (js "b", VArr [VNull; VObj [(js "a", VNum (NInt 3))]])] in
  JSON_parse (decoder_end message) = Some json /\ parsed json.
Proof.
  intros message json.
  assert (JSON_parse (decoder_end message) = Some json) as H by (vm_compute; reflexivity).
  split; [exact H | exact (X8_message_shape message json H)].
Defined.

Lemma X9_witness :
  let message := [0x22; 0xED; 0xA0; 0x80; 0xF4; 0x90; 0x80; 0x80; 0xC3] in
  Forall (fun b => 0 <= b <= 255) message /\ well_formed (decoder_end message).
Proof.
  intros message.
  assert (Forall (fun b => 0 <= b <= 255) message) as H by (repeat constructor; lia).
  split; [exact H | exact (X9_decoded_text_is_well_formed message H)].
Defined.

Lemma X10_witness :
  let message := [0x22; 0xC3; 0xA9; 0xE2; 0x82; 0xAC; 0xF0; 0x9F; 0x98; 0x80; 0x22] in
  valid_utf8 message = true /\ utf8_encode (decoder_end message) = message.
Proof.
  intros message.
  assert (valid_utf8 message = true) as H by (vm_compute; reflexivity).
  split; [exact H | exact (X10_valid_utf8_is_decoded_exactly message H)].
Defined.

Lemma X16_witness :
  let json := VArr [VStr [0xD800; 0x22; 0xE9; 0xD83D; 0xDE00]; VUndefined; VNum NNaN;
                    VNum (NDec 15 (-1)); VObj [(js "u", VUndefined); (js "k", VNull)]] in
  let text := jsq "['\ud800\'" ++ [0xE9; 0xD83D; 0xDE00] ++ jsq "',null,null,1.5,{'k':null}]" in
  (of_code_units json /\ JSON_stringify json = Some text) /\
  well_formed text /\ decoder_end (utf8_encode text) = text.
Proof.
  intros json text.
  assert (of_code_units json /\ JSON_stringify json = Some text) as H.
  { split; [|vm_compute; reflexivity].
    repeat (constructor; simpl); unfold code_unit; lia. }
  split; [exact H | exact (X16_text_survives_the_wire json text (proj1 H) (proj2 H))].
Defined.

Lemma X17_witness :
  let g := sample_exec false None [Open 0] in
  let x := TypeError "Cannot read property 'action' of null" in
  (admissible (Message 0 null_frame) g /\
   fst (deliver (Message 0 null_frame) g) = Throws x) /\
  instanceof_TrackerError x = false /\
  exists json p g1 g2,
    JSON_parse (decoder_end null_frame) = Some json /\
    resolve 0 g = (Normal p, g1) /\
    tracker_processMessage json p g1 = (Throws x, g2).
Proof.
  intros g x.
  assert (admissible (Message 0 null_frame) g /\
          fst (deliver (Message 0 null_frame) g) = Throws x) as H
    by (vm_compute; split; reflexivity).
  split; [exact H|].
  exact (X17_what_a_handler_throws (setting := sample false None)
           (Message 0 null_frame) g x (proj1 H) (proj2 H)).
Defined.

Lemma X18_witness :
  let g := sample_exec false None [Open 0; Open 1; Message 1 announce_frame] in
  let e := Message 0 scrape_frame in
  connection_of e <> Some 1%nat /\
  peer (after e g) !! 1%nat = peer g !! 1%nat /\
  readyState (after e g) !! 1%nat = readyState g !! 1%nat.
Proof.
  intros g e.
  assert (connection_of e <> Some 1%nat) as H by discriminate.
  split; [exact H|].
  exact (X18_connections_are_isolated (setting := sample false None) e g 1%nat H).
Defined.

(** ** The constructor and [run] *)

Import UWebSocketsTracker.

Lemma get_fold_define_property ps : forall acc k,
  NoDup (map fst ps) ->
  get_property k (fold_left define_property ps acc)
  = match get_property k ps with
    | Some y => Some y
    | None => get_property k acc
    end.
Proof.
  induction ps as [|[k0 v0] ps IH]; intros acc k Hnd;
    cbn [fold_left map fst get_property] in *; [done|].
  apply NoDup_cons in Hnd as [Hk0 Hnd]. rewrite IH by done.
  rewrite get_define_property.
  destruct (bool_decide_reflect (k0 = k)) as [->|Hne]; [|done].
  apply get_property_None in Hk0. by rewrite Hk0.
Qed.

(** The keys of the elements of an array, or of the code units of a string,
    are the numerals of their positions. *)
Lemma indexed_lookup {A} (f : A -> value) l i :
  indexed f l !! i = (fun x => (decimal (Z.of_nat i), f x)) <$> l !! i.
Proof. unfold indexed. apply list_lookup_imap. Qed.

Lemma decimal_inj i j : decimal (Z.of_nat i) = decimal (Z.of_nat j) -> i = j.
Proof.
  intros E. destruct (decimal_spec (Z.of_nat i)) as (_ & Hi & _); [lia|].
  destruct (decimal_spec (Z.of_nat j)) as (_ & Hj & _); [lia|].
  cbv zeta in *. rewrite E in Hi. lia.
Qed.

Lemma indexed_NoDup {A} (f : A -> value) l : NoDup (map fst (indexed f l)).
Proof.
  apply NoDup_alt. intros i j k.
  change (map fst (indexed f l)) with (fst <$> indexed f l).
  rewrite !list_lookup_fmap, !indexed_lookup.
  destruct (l !! i); [|done]. destruct (l !! j); [|done]. simpl.
  intros [= <-] [= E]. by apply decimal_inj.
Qed.

Lemma indexed_digits {A} (f : A -> value) l k :
  is_Some (get_property k (indexed f l)) -> forallb is_digit k = true.
Proof.
  intros [v Hv]. destruct (get_property k (indexed f l)) eqn:Hg; [|done].
  assert (k ∈ map fst (indexed f l)) as Hin.
  { destruct (decide (k ∈ map fst (indexed f l))); [done|].
    apply get_property_None in n. congruence. }
  apply list_elem_of_fmap in Hin as ([k' x] & -> & Hin).
  apply list_elem_of_lookup in Hin as [i Hi]. rewrite indexed_lookup in Hi.
  destruct (l !! i); [|done]. injection Hi as <- _. simpl.
  destruct (decimal_spec (Z.of_nat i)) as (Hd & _); [lia|].
  apply forallb_forall. intros d Hd'. cbv zeta in Hd.
  rewrite Forall_forall in Hd. apply Hd. by apply list_elem_of_In.
Qed.

Lemma own_enumerable_NoDup v : distinct_keys v -> NoDup (map fst (own_enumerable v)).
Proof.
  destruct v; simpl; try done; intros; try apply NoDup_nil_2; apply indexed_NoDup.
Qed.

Lemma falsy_own_enumerable v : ToBoolean v = false -> own_enumerable v = [].
Proof. destruct v as [| | | |s| |]; try done. simpl. by destruct s. Qed.

(** What a spread leaves at a key: the property of the source, or else what
    was there. *)
Lemma get_spread o source k :
  distinct_keys source ->
  get_property k (spread o source)
  = match get_property k (own_enumerable source) with
    | Some y => Some y
    | None => get_property k o
    end.
Proof. intros Hd. apply get_fold_define_property. by apply own_enumerable_NoDup. Qed.

(** The guarded read of a section of the settings never throws, and what
    is spread is what the settings hold at the key. *)
Lemma section_spread arg k o :
  k = "server"%string \/ k = "websockets"%string ->
  exists x,
    section (match arg with VUndefined => VObj [] | _ => arg end) (js k) = Some x /\
    spread o x = spread o (given arg k).
Proof.
  intros Hk.
  assert (bool_decide (js k = js "length") = false /\ forallb is_digit (js k) = false)
    as [Hlen Hdig] by (by destruct Hk as [-> | ->]).
  assert (forall A (f : A -> value) l, get_property (js k) (indexed f l) = None) as Hidx.
  { intros A f l. destruct (get_property (js k) (indexed f l)) eqn:Hg; [|done].
    assert (forallb is_digit (js k) = true) by (eapply indexed_digits; by rewrite Hg).
    congruence. }
  unfold section, given, property.
  destruct arg as [| |b|n|s|l|o']; simpl; try (by exists (VObj [])).
  - destruct b; by exists (VObj []).
  - match goal with |- context [if ?c then _ else _] => destruct c end; by exists (VObj []).
  - destruct (bool_decide (s = [])); simpl; [by exists (VObj [])|].
    rewrite Hlen, Hidx. simpl. by exists (VObj []).
  - rewrite Hlen, Hidx. simpl. by exists (VObj []).
  - destruct (ToBoolean (default VUndefined (get_property (js k) o'))) eqn:Hb.
    + by eexists.
    + exists (VObj []). split; [done|]. unfold spread.
      by rewrite (falsy_own_enumerable _ Hb).
Qed.

(** The merge never throws; the settings kept are the defaults with the
    two sections of the argument spread over them. *)
Lemma constructor_spec arg :
  exists this, constructor arg = Some this /\
    server (settings this) = spread default_server (given arg "server") /\
    websockets (settings this) = spread default_websockets (given arg "websockets") /\
    app this = match property (server (settings this)) "key_file_name" with
               | VUndefined => App (server (settings this))
               | _ => SSLApp (server (settings this))
               end /\
    route this = buildApplication (settings this).
Proof.
  unfold constructor.
  destruct (section_spread arg "server" default_server) as (s & -> & Hs); [by left|].
  destruct (section_spread arg "websockets" default_websockets) as (w & -> & Hw);
    [by right|].
  eexists. split; [done|]. simpl. by rewrite Hs, Hw.
Qed.

(** X11: whatever the constructor is given for settings, the merge does not
    throw (nothing is read from [undefined] or [null]), and in each of the
    two sections it keeps, a property is the one of that name in the section
    given, when there is one, and the default otherwise. *)
Theorem X11_constructor_merges_settings arg k :
  distinct_keys (given arg "server") ->
  distinct_keys (given arg "websockets") ->
  exists this,
    constructor arg = Some this /\
    get_property k (server (settings this))
    = match get_property k (own_enumerable (given arg "server")) with
      | Some v => Some v
      | None => get_property k default_server
      end /\
    get_property k (websockets (settings this))
    = match get_property k (own_enumerable (given arg "websockets")) with
      | Some v => Some v
      | None => get_property k default_websockets
      end.
Proof.
  intros Hs Hw. destruct (constructor_spec arg) as (this & Hc & E1 & E2 & _).
  exists this. split; [done|]. rewrite E1, E2. split; by apply get_spread.
Qed.

(** X12: settings that hold no [server] and no [websockets] section, or
    hold there something without properties ([null], a number, an empty
    object), give the defaults: port 8000 on all interfaces, no TLS, and the
    route [/] with messages of at most 64 KiB, 240 seconds of idle time and
    compression 1. *)
Theorem X12_constructor_defaults arg :
  own_enumerable (given arg "server") = [] ->
  own_enumerable (given arg "websockets") = [] ->
  constructor arg =
  Some {| settings := {| server := default_server; websockets := default_websockets |};
          app := App default_server;
          route := {| pattern := VStr (js "/");
                      compression := VNum (NInt 1);
                      maxPayloadLength := VNum (NInt 65536);
                      idleTimeout := VNum (NInt 240) |} |}.
Proof.
  intros Hs Hw. destruct (constructor_spec arg) as (this & -> & E1 & E2 & E3 & E4).
  unfold spread in E1, E2. rewrite Hs in E1. rewrite Hw in E2. simpl in E1, E2.
  destruct this as [[s w] a r]. simpl in *. subst s w. by rewrite E3, E4.
Qed.

(** X13: the application is made by [SSLApp] exactly when the [server]
    section given holds a [key_file_name] that is not [undefined], and by
    [App] otherwise; either is given the merged [server] settings. *)
Theorem X13_SSLApp_iff_key_file_name arg this :
  distinct_keys (given arg "server") ->
  constructor arg = Some this ->
  app this =
  match get_property (js "key_file_name") (own_enumerable (given arg "server")) with
  | Some VUndefined | None => App (server (settings this))
  | Some _ => SSLApp (server (settings this))
  end.
Proof.
  intros Hs Hc. destruct (constructor_spec arg) as (this' & Hc' & E1 & _ & E3 & _).
  rewrite Hc in Hc'. injection Hc' as <-. rewrite E3. unfold property.
  rewrite E1 at 1. rewrite get_spread by done.
  by destruct (get_property (js "key_file_name") (own_enumerable (given arg "server"))).
Qed.

(** X14: the route that [buildApplication] registers takes its pattern and
    its three limits from the [websockets] section given, each one by its
    name, and the default for those that are not given. *)
Theorem X14_route_follows_settings arg this :
  distinct_keys (given arg "websockets") ->
  constructor arg = Some this ->
  let chosen (k : string) d :=
    default d (get_property (js k) (own_enumerable (given arg "websockets"))) in
  route this =
  {| pattern := chosen "path"%string (VStr (js "/"));
     compression := chosen "compression"%string (VNum (NInt 1));
     maxPayloadLength := chosen "maxPayloadLength"%string (VNum (NInt 65536));
     idleTimeout := chosen "idleTimeout"%string (VNum (NInt 240)) |}.
Proof.
  intros Hw Hc chosen. destruct (constructor_spec arg) as (this' & Hc' & _ & E2 & _ & E4).
  rewrite Hc in Hc'. injection Hc' as <-. rewrite E4. unfold buildApplication, property.
  rewrite E2, !get_spread by done. unfold chosen.
  by destruct (get_property (js "path") _), (get_property (js "compression") _),
    (get_property (js "maxPayloadLength") _), (get_property (js "idleTimeout") _).
Qed.


Lemma X11_witness :
  (distinct_keys (given sample_settings "server") /\
   distinct_keys (given sample_settings "websockets")) /\
  exists this,
    constructor sample_settings = Some this /\
    get_property (js "port") (server (settings this)) = Some (VNum (NInt 9000)) /\
    get_property (js "port") (websockets (settings this)) = None.
Proof.
  assert (distinct_keys (given sample_settings "server") /\
          distinct_keys (given sample_settings "websockets")) as H
    by (split; by apply (bool_decide_unpack (NoDup _)); vm_compute).
  split; [exact H|].
  exact (X11_constructor_merges_settings sample_settings (js "port") (proj1 H) (proj2 H)).
Defined.

Lemma X12_witness :
  let arg := VObj [(js "server", VNull); (js "websockets", VNum (NInt 0));
                   (js "port", VNum (NInt 9000))] in
  (own_enumerable (given arg "server") = [] /\
   own_enumerable (given arg "websockets") = []) /\
  constructor arg =
  Some {| settings := {| server := default_server; websockets := default_websockets |};
          app := App default_server;
          route := {| pattern := VStr (js "/");
                      compression := VNum (NInt 1);
                      maxPayloadLength := VNum (NInt 65536);
                      idleTimeout := VNum (NInt 240) |} |}.
Proof.
  intros arg.
  assert (own_enumerable (given arg "server") = [] /\
          own_enumerable (given arg "websockets") = []) as H by (vm_compute; split; reflexivity).
  split; [exact H | exact (X12_constructor_defaults arg (proj1 H) (proj2 H))].
Defined.

Lemma X13_witness :
  let this := sample_instance in
  (distinct_keys (given sample_settings "server") /\
   constructor sample_settings = Some this) /\
  app this = SSLApp (server (settings this)).
Proof.
  intros this.
  assert (distinct_keys (given sample_settings "server") /\
          constructor sample_settings = Some this) as H.
  { split; [by apply (bool_decide_unpack (NoDup _)); vm_compute | vm_compute; reflexivity]. }
  split; [exact H|].
  exact (X13_SSLApp_iff_key_file_name sample_settings this (proj1 H) (proj2 H)).
Defined.

Lemma X14_witness :
  let this := sample_instance in
  (distinct_keys (given sample_settings "websockets") /\
   constructor sample_settings = Some this) /\
  route this =
  {| pattern := VStr (js "/");
     compression := VNum (NInt 1);
     maxPayloadLength := VNum (NInt 1024);
     idleTimeout := VNum (NInt 240) |}.
Proof.
  intros this.
  assert (distinct_keys (given sample_settings "websockets") /\
          constructor sample_settings = Some this) as H.
  { split; [by apply (bool_decide_unpack (NoDup _)); vm_compute | vm_compute; reflexivity]. }
  split; [exact H|].
  exact (X14_route_follows_settings sample_settings this (proj1 H) (proj2 H)).
Defined.

